(** * The Legion stencil kernel (LEGION/Stencil/stencil.cc)

    A shallow embedding of the grid partitioner, the placement policy
    ([StencilMapper]), the boundary launch of the SPMD shard, the
    validation check and the command-line front end, followed by the
    properties proved about them.

    Conventions.  Integers are modelled in [Z].  Where the source computes
    in [int] (the command line, the processor grid, the corners of the
    tiles) the 32-bit wrap-around of every operation is written out with
    [to_int]; [coord_t] is 64 bits wide and the boxes built from [int]
    corners stay far inside it.  C++ [/] and [%] truncate towards zero:
    they are [Z.quot] and [Z.rem].  An [assert] that fails, an integer
    division by zero and a read through a null pointer end the computation
    with a [failure]; so does a subscript outside a [std::vector], which is
    not followed further.  The one read past the end of a vector that the
    program survives, the processor look-up of [map_must_epoch], yields the
    word that the storage holds there. *)

From Stdlib Require Import ZArith Lia List Bool Ascii String.
From Stdlib Require PrimFloat Uint63.
From stdpp Require Import base option list gmap strings.

Local Open Scope Z_scope.

(** ** Failing computations *)

Inductive failure : Type :=
| AssertionFailed   (* assert(e) with e false *)
| OutOfRange        (* v[i] with i >= v.size() *)
| DivisionByZero    (* a / 0 or a % 0 *)
| NullPointer.      (* *p with p null: begin() of an empty vector *)

Inductive result (A : Type) : Type :=
| Ok (a : A)
| Abort (f : failure).

Arguments Ok {A} a.
Arguments Abort {A} f.

#[global] Instance result_ret : MRet result := fun A a => Ok a.

#[global] Instance result_bind : MBind result :=
  fun A B k m => match m with Ok a => k a | Abort f => Abort f end.

Definition assert (b : bool) : result unit :=
  if b then Ok tt else Abort AssertionFailed.

Definition is_ok {A} (r : result A) : bool :=
  match r with Ok _ => true | Abort _ => false end.

(** A loop over [l] whose body may fail. *)
Fixpoint foldM {A B : Type} (f : A -> B -> result A) (a : A) (l : list B)
    : result A :=
  match l with
  | [] => Ok a
  | b :: l' => a' ← f a b; foldM f a' l'
  end.

(** ** Machine integers *)

Definition INT_MIN : Z := -2147483648.
Definition INT_MAX : Z := 2147483647.
Definition LONG_MIN : Z := -9223372036854775808.
Definition LONG_MAX : Z := 9223372036854775807.

(** The [int] that holds [z] modulo [2^32]. *)
Definition to_int (z : Z) : Z :=
  (z + 2147483648) mod 4294967296 - 2147483648.

Definition int_add (a b : Z) : Z := to_int (a + b).
Definition int_sub (a b : Z) : Z := to_int (a - b).
Definition int_mul (a b : Z) : Z := to_int (a * b).

(** ** Points and rectangles (Legion's [Point<2>] and [Rect<2>]) *)

Module Legion.

Record Point2 : Type := make_point { p0 : Z; p1 : Z }.

Record Rect2 : Type := Rect { lo : Point2; hi : Point2 }.

(** [p[i]] and [p.x[i] = v] for the axis index [i] (0 or 1). *)
Definition pt_get (p : Point2) (i : nat) : Z :=
  match i with O => p0 p | _ => p1 p end.

Definition pt_set (p : Point2) (i : nat) (v : Z) : Point2 :=
  match i with
  | O => make_point v (p1 p)
  | _ => make_point (p0 p) v
  end.

(** Membership of a grid cell in a rectangle; both corners are inclusive. *)
Definition in_rect (r : Rect2) (x y : Z) : Prop :=
  p0 (lo r) <= x <= p0 (hi r) /\ p1 (lo r) <= y <= p1 (hi r).

Definition in_rectb (r : Rect2) (x y : Z) : bool :=
  (p0 (lo r) <=? x) && (x <=? p0 (hi r)) &&
  (p1 (lo r) <=? y) && (y <=? p1 (hi r)).

#[global] Instance Point2_eq_dec : EqDecision Point2.
Proof. solve_decision. Defined.

#[global] Instance Rect2_eq_dec : EqDecision Rect2.
Proof. solve_decision. Defined.

End Legion.

Import Legion.

(** ** Grid partitioner *)

Module Partitioner.

(** [enum GhostDirection] and [enum Boundary], with their integer values. *)
Inductive GhostDirection : Type :=
| GHOST_LEFT | GHOST_UP | GHOST_RIGHT | GHOST_DOWN | PRIVATE.

Definition gid (d : GhostDirection) : nat :=
  match d with
  | GHOST_LEFT => 0 | GHOST_UP => 1 | GHOST_RIGHT => 2 | GHOST_DOWN => 3
  | PRIVATE => 4
  end%nat.

Inductive Boundary : Type :=
| LEFT | LEFT_UP | UP | UP_RIGHT | RIGHT | RIGHT_DOWN | DOWN | DOWN_LEFT
| INTERIOR.

Definition bid (b : Boundary) : nat :=
  match b with
  | LEFT => 0 | LEFT_UP => 1 | UP => 2 | UP_RIGHT => 3 | RIGHT => 4
  | RIGHT_DOWN => 5 | DOWN => 6 | DOWN_LEFT => 7 | INTERIOR => 8
  end%nat.

Definition all_sectors : list Boundary :=
  [LEFT; LEFT_UP; UP; UP_RIGHT; RIGHT; RIGHT_DOWN; DOWN; DOWN_LEFT; INTERIOR].

#[global] Instance GhostDirection_eq_dec : EqDecision GhostDirection.
Proof. solve_decision. Defined.

#[global] Instance Boundary_eq_dec : EqDecision Boundary.
Proof. solve_decision. Defined.

Section Grid.

(** The grid order [n] and the compile-time stencil radius [RADIUS]. *)
Variables (n RADIUS : Z).

(** *** Halo-extended tiles ([top_level_task], the [haloColoring] loops) *)

(** The corners are [int] expressions:
    [std::max(tileX * tileSizeX - RADIUS, 0)] and
    [std::min((tileX + 1) * tileSizeX + RADIUS, n) - 1]. *)
Definition tileDomain (tileSizeX tileSizeY tileX tileY : Z) : Rect2 :=
  Rect
    (make_point
       (Z.max (int_sub (int_mul tileX tileSizeX) RADIUS) 0)
       (Z.max (int_sub (int_mul tileY tileSizeY) RADIUS) 0))
    (make_point
       (int_sub
          (Z.min (int_add (int_mul (int_add tileX 1) tileSizeX) RADIUS) n) 1)
       (int_sub
          (Z.min (int_add (int_mul (int_add tileY 1) tileSizeY) RADIUS) n) 1)).

Definition haloColoring_row (tileSizeX tileSizeY Num_procsx tileY : Z)
    (coloring : gmap (Z * Z) Rect2) : gmap (Z * Z) Rect2 :=
  foldl
    (fun col tileX =>
       <[(tileX, tileY) := tileDomain tileSizeX tileSizeY tileX tileY]> col)
    coloring (seqZ 0 Num_procsx).

Definition haloColoring (Num_procsx Num_procsy : Z) : gmap (Z * Z) Rect2 :=
  let tileSizeX := n `quot` Num_procsx in
  let tileSizeY := n `quot` Num_procsy in
  foldl
    (fun col tileY => haloColoring_row tileSizeX tileSizeY Num_procsx tileY col)
    ∅ (seqZ 0 Num_procsy).

(** *** The shrink loop shared by [createHaloPartition] and
    [createBoundaryPartition]:
    [if (b.lo[i] != 0) b.lo.x[i] += RADIUS;
     if (b.hi[i] != n - 1) b.hi.x[i] -= RADIUS;] for [i = 0, 1]. *)

Definition shrink_axis (b : Rect2) (i : nat) : Rect2 :=
  let b1 :=
    if decide (pt_get (lo b) i <> 0)
    then Rect (pt_set (lo b) i (pt_get (lo b) i + RADIUS)) (hi b)
    else b in
  if decide (pt_get (hi b1) i <> n - 1)
  then Rect (lo b1) (pt_set (hi b1) i (pt_get (hi b1) i - RADIUS))
  else b1.

Definition shrink (b : Rect2) : Rect2 :=
  foldl shrink_axis b [0%nat; 1%nat].

(** *** [createHaloPartition]: the four ghost strips and the private box *)

Definition createHaloPartition (haloBox : Rect2) : gmap nat Rect2 :=
  let boundingBox := shrink haloBox in
  let coloring : gmap nat Rect2 := ∅ in
  let coloring :=
    if 0 <? p0 (lo boundingBox)
    then <[gid GHOST_LEFT :=
             Rect (make_point (p0 (lo haloBox)) (p1 (lo boundingBox)))
                  (make_point (p0 (lo boundingBox) - 1) (p1 (hi boundingBox)))]>
           coloring
    else coloring in
  let coloring :=
    if 0 <? p1 (lo boundingBox)
    then <[gid GHOST_UP :=
             Rect (make_point (p0 (lo boundingBox)) (p1 (lo haloBox)))
                  (make_point (p0 (hi boundingBox)) (p1 (lo boundingBox) - 1))]>
           coloring
    else coloring in
  let coloring :=
    if p0 (hi boundingBox) <? n - 1
    then <[gid GHOST_RIGHT :=
             Rect (make_point (p0 (hi boundingBox) + 1) (p1 (lo boundingBox)))
                  (make_point (p0 (hi haloBox)) (p1 (hi boundingBox)))]>
           coloring
    else coloring in
  let coloring :=
    if p1 (hi boundingBox) <? n - 1
    then <[gid GHOST_DOWN :=
             Rect (make_point (p0 (lo boundingBox)) (p1 (hi boundingBox) + 1))
                  (make_point (p0 (hi boundingBox)) (p1 (hi haloBox)))]>
           coloring
    else coloring in
  <[gid PRIVATE := boundingBox]> coloring.

(** The region a shard passes on as [privateLr]: the subregion of colour
    [PRIVATE]. *)
Definition privateBox (haloBox : Rect2) : Rect2 := shrink haloBox.

(** *** [createBoundaryPartition]: the eight perimeter sectors and the
    interior.  The state threaded through the function is the colouring and
    the caller's [hasBoundary] vector. *)

Definition sector_state : Type := gmap nat Rect2 * list bool.

Definition set_sector (b : Boundary) (r : Rect2) (st : sector_state)
    : sector_state :=
  (<[bid b := r]> (fst st), <[bid b := true]> (snd st)).

Definition createBoundaryPartition (boundingBox : Rect2)
    (hasBoundary : list bool) : sector_state :=
  let interiorBox := shrink boundingBox in
  let st : sector_state := (∅, hasBoundary) in
  let st :=
    if 0 <? p0 (lo interiorBox) then
      let st :=
        set_sector LEFT
          (Rect (make_point (p0 (lo boundingBox)) (p1 (lo interiorBox)))
                (make_point (p0 (lo interiorBox) - 1) (p1 (hi interiorBox))))
          st in
      if 0 <? p1 (lo interiorBox) then
        set_sector LEFT_UP
          (Rect (make_point (p0 (lo boundingBox)) (p1 (lo boundingBox)))
                (make_point (p0 (lo interiorBox) - 1) (p1 (lo interiorBox) - 1)))
          st
      else st
    else st in
  let st :=
    if 0 <? p1 (lo interiorBox) then
      let st :=
        set_sector UP
          (Rect (make_point (p0 (lo interiorBox)) (p1 (lo boundingBox)))
                (make_point (p0 (hi interiorBox)) (p1 (lo interiorBox) - 1)))
          st in
      if p0 (hi interiorBox) <? n - 1 then
        set_sector UP_RIGHT
          (Rect (make_point (p0 (hi interiorBox) + 1) (p1 (lo boundingBox)))
                (make_point (p0 (hi boundingBox)) (p1 (lo interiorBox) - 1)))
          st
      else st
    else st in
  let st :=
    if p0 (hi interiorBox) <? n - 1 then
      let st :=
        set_sector RIGHT
          (Rect (make_point (p0 (hi interiorBox) + 1) (p1 (lo interiorBox)))
                (make_point (p0 (hi boundingBox)) (p1 (hi interiorBox))))
          st in
      if p1 (hi interiorBox) <? n - 1 then
        set_sector RIGHT_DOWN
          (Rect (make_point (p0 (hi interiorBox) + 1) (p1 (hi interiorBox) + 1))
                (make_point (p0 (hi boundingBox)) (p1 (hi boundingBox))))
          st
      else st
    else st in
  let st :=
    if p1 (hi interiorBox) <? n - 1 then
      let st :=
        set_sector DOWN
          (Rect (make_point (p0 (lo interiorBox)) (p1 (hi interiorBox) + 1))
                (make_point (p0 (hi interiorBox)) (p1 (hi boundingBox))))
          st in
      if 0 <? p0 (lo interiorBox) then
        set_sector DOWN_LEFT
          (Rect (make_point (p0 (lo boundingBox)) (p1 (hi interiorBox) + 1))
                (make_point (p0 (lo interiorBox) - 1) (p1 (hi boundingBox))))
          st
      else st
    else st in
  (<[bid INTERIOR := interiorBox]> (fst st), snd st).

End Grid.

(** *** [createBalancedPartition]: the row bands handed to the threads *)

Section Balanced.

Variables (rect : Rect2) (numThreads : Z).

Definition sizeY : Z := p1 (hi rect) - p1 (lo rect) + 1.
Definition offY : Z := sizeY `quot` numThreads.
Definition remainder : Z := sizeY `rem` numThreads.

(** One pass of the loop body for the colours [color, color + 1, ...];
    [todo] counts the passes that remain. *)
Fixpoint balanced_loop (todo : nat) (color startY : Z)
    (coloring : gmap Z Rect2) : result (gmap Z Rect2) :=
  match todo with
  | O => Ok coloring
  | S todo' =>
      let widthY := if color <? remainder then offY + 1 else offY in
      _ ← assert (startY <? p1 (hi rect));
      _ ← assert (startY + widthY - 1 <=? p1 (hi rect));
      balanced_loop todo' (color + 1) (startY + widthY)
        (<[color := Rect (make_point (p0 (lo rect)) startY)
                         (make_point (p0 (hi rect)) (startY + widthY - 1))]>
           coloring)
  end.

Definition createBalancedPartition : result (gmap Z Rect2) :=
  if decide (numThreads = 0) then Abort DivisionByZero
  else balanced_loop (Z.to_nat numThreads) 0 (p1 (lo rect)) ∅.

End Balanced.

(** The number of rows of a band. *)
Definition rows (r : Rect2) : Z := p1 (hi r) - p1 (lo r) + 1.

End Partitioner.

(** ** Placement policy ([StencilMapper]) *)

Module Mapper.

Local Open Scope nat_scope.

(** Processors, memories and logical regions are handles: identifiers. *)
Abbreviation Processor := nat (only parsing).
Abbreviation Memory := nat (only parsing).
Abbreviation LogicalRegion := nat (only parsing).

(** [Memory::NO_MEMORY], the handle for which [exists()] is false. *)
Definition NO_MEMORY : Memory := 0.

Definition mem_exists (m : Memory) : bool := negb (m =? NO_MEMORY).

(** What the mapper reads from the machine: the [LOC_PROC] processors in the
    iteration order of the [std::set], the node of each, and its system
    memory. *)
Record Machine : Type := {
  get_all_processors : list Processor;
  address_space : Processor -> nat;
  find_memory_kind : Processor -> Memory
}.

Record StencilMapper : Type := {
  proc_map : gmap nat (list Processor);
  all_sysmems : gmap Processor Memory;
  num_nodes : nat
}.

(** The body of the constructor's loop; [m !!! k] is [operator[]] of a
    [std::map], which yields a default value for an absent key. *)
Definition register_processor (machine : Machine) (m : StencilMapper)
    (p : Processor) : result StencilMapper :=
  let node_id := address_space machine p in
  let sysmem := find_memory_kind machine p in
  _ ← assert (mem_exists sysmem);
  Ok {| proc_map := <[node_id := (proc_map m !!! node_id) ++ [p]]> (proc_map m);
        all_sysmems := <[p := sysmem]> (all_sysmems m);
        num_nodes := Nat.max (num_nodes m) (node_id + 1) |}.

Definition StencilMapper_init (machine : Machine) : result StencilMapper :=
  foldM (register_processor machine)
    {| proc_map := ∅; all_sysmems := ∅; num_nodes := 0 |}
    (get_all_processors machine).

Record RegionRequirement : Type := {
  region : LogicalRegion;
  virtual_map : bool;
  enable_WAR_optimization : bool;
  reduction_list : bool;
  blocking_factor : Z;
  max_blocking_factor : Z;
  target_ranking : list Memory
}.

Record Task : Type := {
  target_proc : Processor;
  regions : list RegionRequirement
}.

Definition with_target_proc (p : Processor) (t : Task) : Task :=
  {| target_proc := p; regions := regions t |}.

Definition with_regions (rs : list RegionRequirement) (t : Task) : Task :=
  {| target_proc := target_proc t; regions := rs |}.

Definition with_ranking (ms : list Memory) (r : RegionRequirement)
    : RegionRequirement :=
  {| region := region r;
     virtual_map := virtual_map r;
     enable_WAR_optimization := enable_WAR_optimization r;
     reduction_list := reduction_list r;
     blocking_factor := blocking_factor r;
     max_blocking_factor := max_blocking_factor r;
     target_ranking := ms |}.

(** [map_task]: every region goes to the system memory of the processor the
    task is bound to. *)
Definition map_region (sysmem : Memory) (req : RegionRequirement)
    : RegionRequirement :=
  {| region := region req;
     virtual_map := false;
     enable_WAR_optimization := false;
     reduction_list := false;
     blocking_factor := max_blocking_factor req;
     max_blocking_factor := max_blocking_factor req;
     target_ranking := target_ranking req ++ [sysmem] |}.

Definition map_task (m : StencilMapper) (task : Task) : Task :=
  let sysmem := all_sysmems m !!! target_proc task in
  with_regions (map_region sysmem <$> regions task) task.

(** *** [map_must_epoch], first loop: one processor per shard *)

(** [*(proc_map[node].begin() + offset)]: an unchecked read.  Inside the
    vector it yields the processor stored there.  Past the end of a
    non-empty vector it yields the word that follows in memory, which is
    [past_the_end node offset]; the program goes on with it.  [begin()] of
    an empty vector (a node without processors) is null, and the read ends
    the program. *)
Definition read_processor (past_the_end : nat -> nat -> Processor)
    (m : StencilMapper) (node offset : nat) : result Processor :=
  let procs := proc_map m !!! node in
  match procs !! offset with
  | Some p => Ok p
  | None =>
      if decide (procs = []) then Abort NullPointer
      else Ok (past_the_end node offset)
  end.

Definition assign_shard (past_the_end : nat -> nat -> Processor)
    (m : StencilMapper) (shards_per_node i : nat) (task : Task)
    : result Task :=
  if decide (shards_per_node = 0) then Abort DivisionByZero
  else
    p ← read_processor past_the_end m
          (i / shards_per_node) (i mod shards_per_node);
    Ok (map_task m (with_target_proc p task)).

Fixpoint assign_shards (past_the_end : nat -> nat -> Processor)
    (m : StencilMapper) (shards_per_node i : nat) (tasks : list Task)
    : result (list Task) :=
  match tasks with
  | [] => Ok []
  | task :: rest =>
      task' ← assign_shard past_the_end m shards_per_node i task;
      rest' ← assign_shards past_the_end m shards_per_node (S i) rest;
      Ok (task' :: rest')
  end.

Definition shard_assignment (past_the_end : nat -> nat -> Processor)
    (m : StencilMapper) (tasks : list Task) : result (list Task) :=
  if decide (num_nodes m = 0) then Abort DivisionByZero
  else assign_shards past_the_end m (length tasks / num_nodes m) 0 tasks.

(** *** [map_must_epoch], the two loops over the mapping constraints.
    A [Task*] is the position of the task in the store of tasks. *)

Record MappingConstraint : Type := {
  t1 : nat; idx1 : nat;
  t2 : nat; idx2 : nat
}.

#[global] Instance MappingConstraint_eq_dec : EqDecision MappingConstraint.
Proof. solve_decision. Defined.

(** The constraints of a must-epoch launch name tasks of the launch and
    regions these tasks have; a reference outside ([t] not a task of the
    store, [idx] not below [regions.size()]) has no defined behaviour in the
    source and stops the model with [OutOfRange]. *)
Definition get_task (tasks : list Task) (t : nat) : result Task :=
  match tasks !! t with
  | Some task => Ok task
  | None => Abort OutOfRange
  end.

Definition get_region (tasks : list Task) (t idx : nat)
    : result RegionRequirement :=
  task ← get_task tasks t;
  match regions task !! idx with
  | Some req => Ok req
  | None => Abort OutOfRange
  end.

(** [t->regions[idx].target_ranking.clear(); ...push_back(mem);] *)
Definition set_ranking (tasks : list Task) (t idx : nat) (mem : Memory)
    : result (list Task) :=
  task ← get_task tasks t;
  req ← get_region tasks t idx;
  Ok (<[t := with_regions (<[idx := with_ranking [mem] req]> (regions task))
               task]> tasks).

Definition epoch_state : Type := list Task * gmap LogicalRegion Memory.

Definition primary_step (m : StencilMapper) (st : epoch_state)
    (c : MappingConstraint) : result epoch_state :=
  if decide (idx1 c = 0) then
    task ← get_task (fst st) (t1 c);
    let sysmem := all_sysmems m !!! target_proc task in
    tasks ← set_ranking (fst st) (t1 c) (idx1 c) sysmem;
    tasks ← set_ranking tasks (t2 c) (idx2 c) sysmem;
    req ← get_region tasks (t1 c) (idx1 c);
    Ok (tasks, <[region req := sysmem]> (snd st))
  else if decide (idx2 c = 0) then
    task ← get_task (fst st) (t2 c);
    let sysmem := all_sysmems m !!! target_proc task in
    tasks ← set_ranking (fst st) (t1 c) (idx1 c) sysmem;
    tasks ← set_ranking tasks (t2 c) (idx2 c) sysmem;
    req ← get_region tasks (t2 c) (idx2 c);
    Ok (tasks, <[region req := sysmem]> (snd st))
  else Ok st.

Definition deferred_step (mappings : gmap LogicalRegion Memory)
    (tasks : list Task) (c : MappingConstraint) : result (list Task) :=
  if decide (idx1 c <> 0 /\ idx2 c <> 0) then
    req ← get_region tasks (t1 c) (idx1 c);
    match mappings !! region req with
    | None => Abort AssertionFailed
    | Some regmem =>
        tasks ← set_ranking tasks (t1 c) (idx1 c) regmem;
        set_ranking tasks (t2 c) (idx2 c) regmem
    end
  else Ok tasks.

Definition map_constraints (m : StencilMapper) (tasks : list Task)
    (constraints : list MappingConstraint) : result (list Task) :=
  st ← foldM (primary_step m) (tasks, ∅) constraints;
  foldM (deferred_step (snd st)) (fst st) constraints.

Definition map_must_epoch (past_the_end : nat -> nat -> Processor)
    (m : StencilMapper) (tasks : list Task)
    (constraints : list MappingConstraint) : result (list Task) :=
  tasks ← shard_assignment past_the_end m tasks;
  map_constraints m tasks constraints.

(** The memory ranking of region [idx] of task [t]. *)
Definition ranking_of (tasks : list Task) (t idx : nat)
    : option (list Memory) :=
  task ← tasks !! t;
  req ← regions task !! idx;
  Some (target_ranking req).

(** Both indices of a constraint refer to regions that exist. *)
Definition valid_refs (tasks : list Task) (c : MappingConstraint) : Prop :=
  is_Some (ranking_of tasks (t1 c) (idx1 c)) /\
  is_Some (ranking_of tasks (t2 c) (idx2 c)).

(** The processor of task [t] and the logical region of its region [idx]. *)
Definition proc_of (tasks : list Task) (t : nat) : option Processor :=
  target_proc <$> tasks !! t.

Definition region_of (tasks : list Task) (t idx : nat)
    : option LogicalRegion :=
  task ← tasks !! t;
  req ← regions task !! idx;
  Some (region req).

(** The side of a constraint that sits at the primary slot 0 (the first
    side when both do), the memory it decides on, and the region it records
    the memory for. *)
Definition primary_side (c : MappingConstraint) : option (nat * nat) :=
  if decide (idx1 c = 0) then Some (t1 c, idx1 c)
  else if decide (idx2 c = 0) then Some (t2 c, idx2 c)
  else None.

Definition primary_memory (m : StencilMapper) (tasks : list Task)
    (c : MappingConstraint) : option Memory :=
  side ← primary_side c;
  p ← proc_of tasks (fst side);
  Some (all_sysmems m !!! p).

Definition primary_region (tasks : list Task) (c : MappingConstraint)
    : option LogicalRegion :=
  side ← primary_side c;
  region_of tasks (fst side) (snd side).

Definition deferred (c : MappingConstraint) : Prop :=
  idx1 c <> 0 /\ idx2 c <> 0.

(** The region of the first side of a constraint has a memory on record. *)
Definition recorded (mappings : gmap LogicalRegion Memory)
    (tasks : list Task) (c : MappingConstraint) : Prop :=
  exists r, region_of tasks (t1 c) (idx1 c) = Some r /\
            is_Some (mappings !! r).

(** Two stores of tasks that differ in memory rankings only. *)
Definition same_shape (tasks tasks' : list Task) : Prop :=
  forall t idx,
    proc_of tasks' t = proc_of tasks t /\
    region_of tasks' t idx = region_of tasks t idx /\
    (is_Some (ranking_of tasks' t idx) <-> is_Some (ranking_of tasks t idx)).

(** The processor at position [i mod shards_per_node] of the table of node
    [i / shards_per_node]. *)
Definition shard_processor (m : StencilMapper) (shards_per_node i : nat)
    : option Processor :=
  (proc_map m !!! (i / shards_per_node)) !! (i mod shards_per_node).

(** *** The rankings that the two loops over the constraints leave, read
    off the constraints and the store the loops start from.  A write is a
    slot [(t, idx)] with the memory that its ranking is set to. *)

Definition side_writes (c : MappingConstraint) (mem : Memory)
    : list (nat * nat * Memory) :=
  [(t1 c, idx1 c, mem); (t2 c, idx2 c, mem)].

(** The writes of the first loop in the order of the constraints, and the
    memories on record for the regions when that loop has ended. *)
Definition primary_writes (m : StencilMapper) (tasks : list Task)
    (constraints : list MappingConstraint) : list (nat * nat * Memory) :=
  c ← constraints;
  match primary_memory m tasks c with
  | Some mem => side_writes c mem
  | None => []
  end.

Definition record_primary (m : StencilMapper) (tasks : list Task)
    (mappings : gmap LogicalRegion Memory) (c : MappingConstraint)
    : gmap LogicalRegion Memory :=
  match primary_region tasks c, primary_memory m tasks c with
  | Some r, Some mem => <[r := mem]> mappings
  | _, _ => mappings
  end.

Definition recorded_memories (m : StencilMapper) (tasks : list Task)
    (constraints : list MappingConstraint) : gmap LogicalRegion Memory :=
  foldl (record_primary m tasks) ∅ constraints.

(** The memory a constraint without a side at slot 0 copies, and the writes
    of the second loop. *)
Definition deferred_memory (mappings : gmap LogicalRegion Memory)
    (tasks : list Task) (c : MappingConstraint) : option Memory :=
  if decide (deferred c)
  then r ← region_of tasks (t1 c) (idx1 c); mappings !! r
  else None.

Definition deferred_writes (mappings : gmap LogicalRegion Memory)
    (tasks : list Task) (constraints : list MappingConstraint)
    : list (nat * nat * Memory) :=
  c ← constraints;
  match deferred_memory mappings tasks c with
  | Some mem => side_writes c mem
  | None => []
  end.

(** The memory of the last write to a slot. *)
Fixpoint last_write (writes : list (nat * nat * Memory)) (t idx : nat)
    : option Memory :=
  match writes with
  | [] => None
  | (t', idx', mem) :: rest =>
      match last_write rest t idx with
      | Some mem' => Some mem'
      | None => if decide ((t', idx') = (t, idx)) then Some mem else None
      end
  end.

(** The ranking of a slot after a list of writes to the store [tasks]: the
    memory of the last write to it alone, or the ranking it had. *)
Definition ranking_after (writes : list (nat * nat * Memory))
    (tasks : list Task) (t idx : nat) : option (list Memory) :=
  match last_write writes t idx with
  | Some mem => Some [mem]
  | None => ranking_of tasks t idx
  end.

Definition final_ranking (m : StencilMapper) (tasks : list Task)
    (constraints : list MappingConstraint) (t idx : nat)
    : option (list Memory) :=
  ranking_after
    (primary_writes m tasks constraints
     ++ deferred_writes (recorded_memories m tasks constraints) tasks
          constraints)
    tasks t idx.

(** The memory a constraint decides on, whichever loop handles it. *)
Definition constraint_memory (m : StencilMapper) (tasks : list Task)
    (constraints : list MappingConstraint) (c : MappingConstraint)
    : option Memory :=
  match primary_side c with
  | Some _ => primary_memory m tasks c
  | None => deferred_memory (recorded_memories m tasks constraints) tasks c
  end.

(** No other constraint of the list names a slot of [c]. *)
Definition slots (c : MappingConstraint) : list (nat * nat) :=
  [(t1 c, idx1 c); (t2 c, idx2 c)].

Definition sole_writer (constraints : list MappingConstraint)
    (c : MappingConstraint) : Prop :=
  forall c' s, c' ∈ constraints -> c' <> c -> s ∈ slots c -> s ∉ slots c'.

(** A machine of two nodes with two processors each, and four shards with
    two regions each, for the examples. *)
Definition demo_machine : Machine :=
  {| get_all_processors := [1; 2; 3; 4];
     address_space := fun p => (p - 1) / 2;
     find_memory_kind := fun p => 10 + (p - 1) / 2 |}.

Definition demo_region (r : LogicalRegion) : RegionRequirement :=
  {| region := r; virtual_map := true; enable_WAR_optimization := true;
     reduction_list := false; blocking_factor := 1%Z;
     max_blocking_factor := 8%Z; target_ranking := [] |}.

Definition demo_tasks : list Task :=
  [ {| target_proc := 0; regions := [demo_region 100; demo_region 101] |};
    {| target_proc := 0; regions := [demo_region 101; demo_region 100] |};
    {| target_proc := 0; regions := [demo_region 102; demo_region 100] |};
    {| target_proc := 0; regions := [demo_region 103; demo_region 101] |} ].

Definition demo_constraints : list MappingConstraint :=
  [ {| t1 := 0; idx1 := 0; t2 := 1; idx2 := 1 |};
    {| t1 := 0; idx1 := 1; t2 := 1; idx2 := 0 |};
    {| t1 := 2; idx1 := 1; t2 := 3; idx2 := 1 |} ].

Definition demo_mapper : StencilMapper :=
  match StencilMapper_init demo_machine with
  | Ok m => m
  | Abort _ => {| proc_map := ∅; all_sysmems := ∅; num_nodes := 0 |}
  end.

(** Six shards for the same machine, and storage that holds zeros past the
    end of the processor vectors. *)
Definition six_tasks : list Task :=
  replicate 6 {| target_proc := 0; regions := [demo_region 100] |}.

Definition zeroed : nat -> nat -> Processor := fun _ _ => 0.

(** The four shards of the example once the first loop has bound them. *)
Definition demo_assigned : list Task :=
  match shard_assignment zeroed demo_mapper demo_tasks with
  | Ok tasks => tasks
  | Abort _ => []
  end.

(** The shards of a store whose processor lives on a node. *)
Definition shards_on (machine : Machine) (tasks : list Task) (node : nat)
    : list nat :=
  filter (fun i => (address_space machine <$> proc_of tasks i) = Some node)
    (seq 0 (length tasks)).

End Mapper.

(** ** The boundary launch of a shard ([spmd_task], the loop over
    [LEFT .. DOWN_LEFT] in the iteration body) *)

Module Spmd.

Import Partitioner.

Local Open Scope nat_scope.

Inductive PrivilegeMode : Type := READ_ONLY | READ_WRITE | WRITE_DISCARD.

Inductive FieldID : Type := FID_IN | FID_OUT | FID_WEIGHT.

(** The logical regions of one shard. *)
Inductive Region : Type :=
| localLr | privateLr | interiorLr | weightLr
| boundaryLr (dir : nat)    (* subregion of colour [dir] of the boundary partition *)
| ghostLr (dir : nat)       (* subregion of colour [dir] of the halo partition *)
| bufferLr (dir : nat)
| neighborLr (dir : nat).

Record RegionRequirement : Type := {
  req_region : Region;
  req_privilege : PrivilegeMode;
  req_parent : Region;
  req_fields : list FieldID
}.

#[global] Instance Region_eq_dec : EqDecision Region.
Proof. solve_decision. Defined.

Definition boundaryLrs : list Region := boundaryLr <$> seq 0 8.

Definition ghostLrs : list Region := ghostLr <$> seq 0 4.

Definition at_index {A : Type} (v : list A) (i : nat) : result A :=
  match v !! i with
  | Some a => Ok a
  | None => Abort OutOfRange
  end.

(** The requirements added to [boundaryLauncher] for the sector [dir], in
    the order of the [add_region_requirement] calls. *)
Definition add_ghost_input (dir : nat) (reqs : list RegionRequirement)
    (idx : nat) : result (list RegionRequirement) :=
  ghost ← at_index ghostLrs ((dir / 2 + idx) mod 4);
  Ok (reqs ++ [{| req_region := ghost; req_privilege := READ_ONLY;
                  req_parent := localLr; req_fields := [FID_IN] |}]).

Definition boundaryLauncher (dir : nat) : result (list RegionRequirement) :=
  sector ← at_index boundaryLrs dir;
  let outputReq :=
    {| req_region := sector; req_privilege := READ_WRITE;
       req_parent := localLr; req_fields := [FID_OUT] |} in
  let weightReq :=
    {| req_region := weightLr; req_privilege := READ_ONLY;
       req_parent := weightLr; req_fields := [FID_WEIGHT] |} in
  reqs ← foldM (add_ghost_input dir) [outputReq; weightReq]
         (seq 0 (dir mod 2 + 1));
  let inputReq :=
    {| req_region := privateLr; req_privilege := READ_ONLY;
       req_parent := localLr; req_fields := [FID_IN] |} in
  Ok (reqs ++ [inputReq]).

(** One iteration's boundary launches: a task for every [dir] with
    [hasBoundary[dir]]. *)
Definition launch_boundary (hasBoundary : list bool)
    (launched : list (nat * list RegionRequirement)) (dir : nat)
    : result (list (nat * list RegionRequirement)) :=
  has ← at_index hasBoundary dir;
  if has : bool then
    reqs ← boundaryLauncher dir;
    Ok (launched ++ [(dir, reqs)])
  else Ok launched.

Definition boundary_launches (hasBoundary : list bool)
    : result (list (nat * list RegionRequirement)) :=
  foldM (launch_boundary hasBoundary) [] (seq (bid LEFT) 8).

(** The ghost regions among the inputs of a launch. *)
Definition is_ghost (r : Region) : bool :=
  match r with ghostLr _ => true | _ => false end.

Definition ghost_inputs (reqs : list RegionRequirement) : list Region :=
  filter (fun r => is_ghost r = true) (req_region <$> reqs).

(** The ghost directions next to a sector, by the names of the two enums. *)
Definition adjacent_ghosts (b : Boundary) : list GhostDirection :=
  match b with
  | LEFT => [GHOST_LEFT]
  | LEFT_UP => [GHOST_LEFT; GHOST_UP]
  | UP => [GHOST_UP]
  | UP_RIGHT => [GHOST_UP; GHOST_RIGHT]
  | RIGHT => [GHOST_RIGHT]
  | RIGHT_DOWN => [GHOST_RIGHT; GHOST_DOWN]
  | DOWN => [GHOST_DOWN]
  | DOWN_LEFT => [GHOST_DOWN; GHOST_LEFT]
  | INTERIOR => []
  end.

Definition is_edge (b : Boundary) : bool :=
  match b with LEFT | UP | RIGHT | DOWN => true | _ => false end.

Definition is_corner (b : Boundary) : bool :=
  match b with
  | LEFT_UP | UP_RIGHT | RIGHT_DOWN | DOWN_LEFT => true
  | _ => false
  end.

End Spmd.

(** ** The element type [DTYPE]

    [DTYPE] is [double] or [float]; the operations the program applies to it
    are kept abstract, so that nothing below depends on how they round.
    [ABS] is a macro of the kernels' common header; [COEFX], [COEFY] and
    [EPSILON] are the constants of the chosen [DTYPE]. *)

Class DTypeOps (D : Type) : Type := {
  d_zero : D;                 (* 0.0 *)
  d_of_int : Z -> D;          (* (DTYPE) i *)
  d_add : D -> D -> D;
  d_sub : D -> D -> D;
  d_mul : D -> D -> D;
  ABS : D -> D;
  d_lt : D -> D -> bool;      (* a < b *)
  COEFX : D;
  COEFY : D;
  EPSILON : D
}.

(** The instance of the default build ([#define DOUBLE]): IEEE binary64
    with the kernel's primitive operations.  [ABS(a)] is
    [((a) >= 0 ? (a) : -(a))], and [EPSILON] is the double nearest to
    [1.e-8]. *)
Module Double.

Import PrimFloat.

Definition of_int (z : Z) : PrimFloat.float :=
  match z with
  | Z0 => PrimFloat.zero
  | Zpos _ => PrimFloat.of_uint63 (Uint63.of_Z z)
  | Zneg _ => PrimFloat.opp (PrimFloat.of_uint63 (Uint63.of_Z (- z)))
  end.

#[global] Instance ops : DTypeOps PrimFloat.float := {|
  d_zero := PrimFloat.zero;
  d_of_int := of_int;
  d_add := PrimFloat.add;
  d_sub := PrimFloat.sub;
  d_mul := PrimFloat.mul;
  ABS := fun a => if PrimFloat.leb PrimFloat.zero a then a else PrimFloat.opp a;
  d_lt := PrimFloat.ltb;
  COEFX := PrimFloat.one;
  COEFY := PrimFloat.one;
  EPSILON := 0x1.5798ee2308c3ap-27%float
|}.

End Double.

(** ** Validation ([check_task] and the two summations above it) *)

Module Validation.

Section Check.

Context {D : Type} `{DTypeOps D}.

(** [args->n], [RADIUS], [args->numIterations], and the [FID_OUT] field of
    the shard's instance, addressed by grid cell: [OUT(i, j)] of the source
    is the cell [(luX + i, luY + j)]. *)
Variables (n RADIUS numIterations : Z).
Variable field_out : Z -> Z -> D.

Definition check_cell (realX realY : Z) (abserr : D) : D :=
  if (realX <? RADIUS) || (realY <? RADIUS) then abserr
  else if (n - RADIUS <=? realX) || (n - RADIUS <=? realY) then abserr
  else
    let norm := d_mul (d_of_int numIterations) (d_add COEFX COEFY) in
    let value := field_out realX realY in
    d_add abserr (ABS (d_sub value norm)).

Definition check_row (luX blockX realY : Z) (abserr : D) : D :=
  foldl (fun abserr i => check_cell (luX + i) realY abserr)
    abserr (seqZ 0 blockX).

Definition check_task (rect : Rect2) : D :=
  let luX := p0 (lo rect) in
  let luY := p1 (lo rect) in
  let blockX := p0 (hi rect) - luX + 1 in
  let blockY := p1 (hi rect) - luY + 1 in
  foldl (fun abserr j => check_row luX blockX (luY + j) abserr)
    d_zero (seqZ 0 blockY).

(** [spmd_task]: the results of the check launch over the thread blocks of
    the private region are added up in colour order. *)
Definition spmd_abserr (blocks : list Rect2) : D :=
  foldl (fun abserr block => d_add abserr (check_task block)) d_zero blocks.

End Check.

Section Total.

Context {D : Type} `{DTypeOps D}.

(** [top_level_task]: the shard results [p.second] are added up tile by
    tile and compared with [EPSILON]. *)
Definition total_abserr (Num_procsx Num_procsy : Z) (shard_abserr : Z -> Z -> D)
    : D :=
  foldl
    (fun abserr tileY =>
       foldl (fun abserr tileX => d_add abserr (shard_abserr tileX tileY))
         abserr (seqZ 0 Num_procsx))
    d_zero (seqZ 0 Num_procsy).

Definition validates (abserr : D) : bool := d_lt abserr EPSILON.

(** The cells of a block in the order the loops visit them, the cells the
    check keeps, and the deviation it adds for one of them. *)
Definition cells (rect : Rect2) : list (Z * Z) :=
  y ← seqZ (p1 (lo rect)) (p1 (hi rect) - p1 (lo rect) + 1);
  (fun x => (x, y)) <$> seqZ (p0 (lo rect)) (p0 (hi rect) - p0 (lo rect) + 1).

Definition checked (n RADIUS : Z) (c : Z * Z) : Prop :=
  RADIUS <= fst c < n - RADIUS /\ RADIUS <= snd c < n - RADIUS.

#[global] Instance checked_dec n RADIUS c : Decision (checked n RADIUS c).
Proof. unfold checked. apply _. Defined.

Definition deviation (numIterations : Z) (field_out : Z -> Z -> D)
    (c : Z * Z) : D :=
  ABS (d_sub (field_out (fst c) (snd c))
             (d_mul (d_of_int numIterations) (d_add COEFX COEFY))).

End Total.

End Validation.

(** ** The command line and the checks of [top_level_task] *)

Module Cli.

Section TopLevel.

Context {D : Type} `{DTypeOps D}.

Definition EXIT_SUCCESS : Z := 0.
Definition EXIT_FAILURE : Z := 1.

(** How the process ends: [exit(status)], or a fatal [failure]. *)
Inductive termination : Type :=
| Exited (status : Z)
| Killed (f : failure).

(** What the program prints, with the values it prints. *)
Inductive message : Type :=
| Usage (progname : string)
| ErrThreads (threads : Z)
| ErrIterations (iterations : Z)
| ErrOrder (n : Z)
| Banner (num_ranks n threads num_numa_nodes radius iterations : Z)
| ErrProcsx
| ErrProcsy
| ErrRadiusPositive (radius : Z)
| ErrRadiusGrid (radius n : Z)
| Tiles (Num_procsx Num_procsy : Z)
| Validates
| ErrSquared (abserr epsilon : D)
| Rate.

Record config : Type := {
  cfg_n : Z;
  cfg_threads : Z;
  cfg_iterations : Z;
  cfg_num_ranks : Z;
  cfg_Num_procsx : Z;
  cfg_Num_procsy : Z
}.

(** *** [atoi] of the C library: white space, an optional sign, digits.
    It is [(int) strtol(s, NULL, 10)]: the number read is clamped to the
    range of [long] and then cut down to [int]. *)

Definition is_digit (c : ascii) : bool :=
  (48 <=? nat_of_ascii c)%nat && (nat_of_ascii c <=? 57)%nat.

Definition is_space (c : ascii) : bool :=
  (nat_of_ascii c =? 32)%nat ||
  ((9 <=? nat_of_ascii c)%nat && (nat_of_ascii c <=? 13)%nat).

Fixpoint atoi_digits (s : string) (acc : Z) : Z :=
  match s with
  | String c s' =>
      if is_digit c
      then atoi_digits s' (10 * acc + (Z.of_nat (nat_of_ascii c) - 48))
      else acc
  | EmptyString => acc
  end.

Fixpoint skip_spaces (s : string) : string :=
  match s with
  | String c s' => if is_space c then skip_spaces s' else s
  | EmptyString => s
  end.

Definition strtol (s : string) : Z :=
  let number :=
    match skip_spaces s with
    | String "-" s' => - atoi_digits s' 0
    | String "+" s' => atoi_digits s' 0
    | s' => atoi_digits s' 0
    end in
  Z.max LONG_MIN (Z.min LONG_MAX number).

Definition atoi (s : string) : Z := to_int (strtol s).

(** [argv[i]] for [i < argc], and [argv[i][0]], which is the terminating
    NUL for an empty argument. *)
Definition arg (argv : list string) (i : nat) : string :=
  default EmptyString (argv !! i).

Definition first_char (s : string) : ascii :=
  match s with
  | String c _ => c
  | EmptyString => zero
  end.

Definition argc (argv : list string) : Z := Z.of_nat (length argv).

(** *** The optional fourth argument *)

Definition num_numa_nodes (argv : list string) : Z :=
  if (4 <? argc argv) && is_digit (first_char (arg argv 4))
  then atoi (arg argv 4)
  else 1.

(** *** The "processor" grid: the largest divisor of [num_ranks] that is at
    most [sqrt(num_ranks + 1)], and its cofactor *)

(** [(int)(sqrt(x))] for an [int] [x]: the integer square root; the square
    root of a negative number is a NaN, which the conversion of x86-64
    turns into [INT_MIN]. *)
Definition int_sqrt (x : Z) : Z :=
  if x <? 0 then INT_MIN else Z.sqrt x.

Fixpoint procs_loop (todo : nat) (num_ranks Num_procsx : Z) : Z * Z :=
  match todo with
  | O => (Num_procsx, 0)
  | S todo' =>
      if 0 <? Num_procsx then
        if num_ranks `rem` Num_procsx =? 0
        then (Num_procsx, num_ranks `quot` Num_procsx)
        else procs_loop todo' num_ranks (Num_procsx - 1)
      else (Num_procsx, 0)
  end.

Definition processor_grid (num_ranks : Z) : Z * Z :=
  let start := int_sqrt (int_add num_ranks 1) in
  procs_loop (S (Z.to_nat start)) num_ranks start.

(** *** Reading and testing the input parameters.  [gasnet_nodes] is the
    number of ranks of the job and [RADIUS] the compile-time radius. *)

Variable gasnet_nodes : positive.
Variable RADIUS : Z.

(** [num_ranks = gasnet_nodes(); ... num_ranks *= num_numa_nodes;] *)
Definition ranks (argv : list string) : Z :=
  int_mul (to_int (Z.pos gasnet_nodes)) (num_numa_nodes argv).

Definition read_parameters (argv : list string)
    : list message * (termination + config) :=
  if argc argv <? 4 then
    ([Usage (arg argv 0)], inl (Exited EXIT_FAILURE))
  else
  let threads := atoi (arg argv 1) in
  if threads <=? 0 then
    ([ErrThreads threads], inl (Exited EXIT_FAILURE))
  else
  let iterations := atoi (arg argv 2) in
  if iterations <? 1 then
    ([ErrIterations iterations], inl (Exited EXIT_FAILURE))
  else
  let n := atoi (arg argv 3) in
  if n <=? 0 then
    ([ErrOrder n], inl (Exited EXIT_FAILURE))
  else
  let numa := num_numa_nodes argv in
  let num_ranks := to_int (Z.pos gasnet_nodes) in
  let banner := Banner num_ranks n threads numa RADIUS iterations in
  let num_ranks := int_mul num_ranks numa in
  let '(Num_procsx, Num_procsy) := processor_grid num_ranks in
  if Num_procsx =? 0 then ([banner], inl (Killed DivisionByZero))
  else if negb (n `rem` Num_procsx =? 0) then
    ([banner; ErrProcsx], inl (Exited EXIT_FAILURE))
  else if Num_procsy =? 0 then ([banner], inl (Killed DivisionByZero))
  else if negb (n `rem` Num_procsy =? 0) then
    ([banner; ErrProcsy], inl (Exited EXIT_FAILURE))
  else if RADIUS <? 1 then
    ([banner; ErrRadiusPositive RADIUS], inl (Exited EXIT_FAILURE))
  else if n <? int_add (int_mul 2 RADIUS) 1 then
    ([banner; ErrRadiusGrid RADIUS n], inl (Exited EXIT_FAILURE))
  else
    ([banner; Tiles Num_procsx Num_procsy],
     inr {| cfg_n := n; cfg_threads := threads; cfg_iterations := iterations;
            cfg_num_ranks := num_ranks;
            cfg_Num_procsx := Num_procsx; cfg_Num_procsy := Num_procsy |}).

(** [top_level_task]; [epoch cfg] is the error the shards of the must-epoch
    launch return, summed over the tiles. *)
Definition top_level_task (epoch : config -> D) (argv : list string)
    : list message * termination :=
  match read_parameters argv with
  | (out, inl t) => (out, t)
  | (out, inr cfg) =>
      let abserr := epoch cfg in
      let epsilon := EPSILON in
      if d_lt abserr epsilon
      then (out ++ [Validates; Rate], Exited EXIT_SUCCESS)
      else (out ++ [ErrSquared abserr epsilon], Exited EXIT_FAILURE)
  end.

(** The conditions under which the run is refused, as the command-line
    documentation lists them. *)
Definition tile_grid (argv : list string) : Z * Z :=
  processor_grid (ranks argv).

Definition rejected (argv : list string) : Prop :=
  argc argv < 4 \/
  atoi (arg argv 1) <= 0 \/
  atoi (arg argv 2) < 1 \/
  atoi (arg argv 3) <= 0 \/
  ~ (fst (tile_grid argv) | atoi (arg argv 3)) \/
  ~ (snd (tile_grid argv) | atoi (arg argv 3)) \/
  RADIUS < 1 \/
  2 * RADIUS + 1 > atoi (arg argv 3).

Definition config_of (argv : list string) : config :=
  {| cfg_n := atoi (arg argv 3);
     cfg_threads := atoi (arg argv 1);
     cfg_iterations := atoi (arg argv 2);
     cfg_num_ranks := ranks argv;
     cfg_Num_procsx := fst (tile_grid argv);
     cfg_Num_procsy := snd (tile_grid argv) |}.

End TopLevel.

End Cli.

(** ** Reference definitions used in the statements *)

Module Layout.

Import Partitioner.

(** The balanced split as the design document words it: [size / workers]
    rows for every band, one more for the first [size mod workers]. *)
Definition band_rows (size workers c : Z) : Z :=
  if c <? size mod workers then size / workers + 1 else size / workers.

Definition band_start (first size workers c : Z) : Z :=
  first + c * (size / workers) + Z.min c (size mod workers).

Definition band (rect : Rect2) (workers c : Z) : Rect2 :=
  let first := band_start (p1 (lo rect)) (rows rect) workers c in
  Rect (make_point (p0 (lo rect)) first)
       (make_point (p0 (hi rect)) (first + band_rows (rows rect) workers c - 1)).

(** The bands of a colouring in colour order. *)
Definition bands (coloring : gmap Z Rect2) (workers : Z) : list Rect2 :=
  omap (fun c => coloring !! c) (seqZ 0 workers).

Definition sum_rows (bs : list Rect2) : Z := foldr Z.add 0 (rows <$> bs).

Definition balanced_layout (rect : Rect2) (workers : Z)
    (coloring : gmap Z Rect2) : Prop :=
  (* one band per worker, with the documented number of rows *)
  (forall c, is_Some (coloring !! c) <-> 0 <= c < workers) /\
  (forall c b, coloring !! c = Some b ->
     p0 (lo b) = p0 (lo rect) /\ p0 (hi b) = p0 (hi rect) /\
     rows b = band_rows (rows rect) workers c) /\
  (* contiguous, in increasing row order, from the first row to the last *)
  (forall b, coloring !! 0 = Some b -> p1 (lo b) = p1 (lo rect)) /\
  (forall c b b', coloring !! c = Some b -> coloring !! (c + 1) = Some b' ->
     p1 (lo b') = p1 (hi b) + 1) /\
  (forall b, coloring !! (workers - 1) = Some b -> p1 (hi b) = p1 (hi rect)) /\
  (* the rows add up and differ by at most one *)
  length (bands coloring workers) = Z.to_nat workers /\
  sum_rows (bands coloring workers) = rows rect /\
  (forall c c' b b', coloring !! c = Some b -> coloring !! c' = Some b' ->
     Z.abs (rows b - rows b') <= 1).

(** The cells of a sector of a boundary partition, and what it means for
    the sectors to tile a box: every cell of the box lies in some sector,
    every sector cell lies in the box, and no cell lies in two sectors. *)
Definition sector_cells (st : sector_state) (b : Boundary) (x y : Z) : Prop :=
  exists r, fst st !! bid b = Some r /\ in_rect r x y.

Definition tiles_exactly (box : Rect2) (st : sector_state) : Prop :=
  (forall x y, in_rect box x y <-> exists b, sector_cells st b x y) /\
  (forall b b' x y,
     sector_cells st b x y -> sector_cells st b' x y -> b = b').

(** [hasBoundary[b]] after the partition was built. *)
Definition sector_exists (st : sector_state) (b : Boundary) : Prop :=
  snd st !! bid b = Some true.

(** The existence conditions of the perimeter sectors in terms of the
    private box and the interior box. *)
Definition existence_conditions (box interior : Rect2) (st : sector_state)
    : Prop :=
  (sector_exists st LEFT <-> p0 (lo interior) > p0 (lo box)) /\
  (sector_exists st UP <-> p1 (lo interior) > p1 (lo box)) /\
  (sector_exists st RIGHT <-> p0 (hi interior) < p0 (hi box)) /\
  (sector_exists st DOWN <-> p1 (hi interior) < p1 (hi box)) /\
  (sector_exists st LEFT_UP <-> sector_exists st LEFT /\ sector_exists st UP) /\
  (sector_exists st UP_RIGHT <-> sector_exists st UP /\ sector_exists st RIGHT) /\
  (sector_exists st RIGHT_DOWN
   <-> sector_exists st RIGHT /\ sector_exists st DOWN) /\
  (sector_exists st DOWN_LEFT <-> sector_exists st DOWN /\ sector_exists st LEFT) /\
  (forall b, b <> INTERIOR ->
     (sector_exists st b <-> is_Some (fst st !! bid b))).

(** The table of sectors: the rectangle of each colour, if it is set. *)
Definition sector_table (n R : Z) (box : Rect2) (b : Boundary) : option Rect2 :=
  let ib := shrink n R box in
  let left := 0 <? p0 (lo ib) in
  let up := 0 <? p1 (lo ib) in
  let right := p0 (hi ib) <? n - 1 in
  let down := p1 (hi ib) <? n - 1 in
  let rect x0 y0 x1 y1 := Some (Rect (make_point x0 y0) (make_point x1 y1)) in
  match b with
  | LEFT =>
      if left
      then rect (p0 (lo box)) (p1 (lo ib)) (p0 (lo ib) - 1) (p1 (hi ib))
      else None
  | LEFT_UP =>
      if left && up
      then rect (p0 (lo box)) (p1 (lo box)) (p0 (lo ib) - 1) (p1 (lo ib) - 1)
      else None
  | UP =>
      if up
      then rect (p0 (lo ib)) (p1 (lo box)) (p0 (hi ib)) (p1 (lo ib) - 1)
      else None
  | UP_RIGHT =>
      if up && right
      then rect (p0 (hi ib) + 1) (p1 (lo box)) (p0 (hi box)) (p1 (lo ib) - 1)
      else None
  | RIGHT =>
      if right
      then rect (p0 (hi ib) + 1) (p1 (lo ib)) (p0 (hi box)) (p1 (hi ib))
      else None
  | RIGHT_DOWN =>
      if right && down
      then rect (p0 (hi ib) + 1) (p1 (hi ib) + 1) (p0 (hi box)) (p1 (hi box))
      else None
  | DOWN =>
      if down
      then rect (p0 (lo ib)) (p1 (hi ib) + 1) (p0 (hi ib)) (p1 (hi box))
      else None
  | DOWN_LEFT =>
      if down && left
      then rect (p0 (lo box)) (p1 (hi ib) + 1) (p0 (lo ib) - 1) (p1 (hi box))
      else None
  | INTERIOR => Some ib
  end.

(** [hasBoundary[b]] as the table sets it. *)
Definition sector_flag (n R : Z) (box : Rect2) (b : Boundary) : bool :=
  let ib := shrink n R box in
  let left := 0 <? p0 (lo ib) in
  let up := 0 <? p1 (lo ib) in
  let right := p0 (hi ib) <? n - 1 in
  let down := p1 (hi ib) <? n - 1 in
  match b with
  | LEFT => left
  | LEFT_UP => left && up
  | UP => up
  | UP_RIGHT => up && right
  | RIGHT => right
  | RIGHT_DOWN => right && down
  | DOWN => down
  | DOWN_LEFT => down && left
  | INTERIOR => false
  end.

(** A box inside the grid whose interior box is not inverted. *)
Definition well_shaped (n R : Z) (box : Rect2) : Prop :=
  0 <= p0 (lo box) /\ p0 (hi box) <= n - 1 /\
  0 <= p1 (lo box) /\ p1 (hi box) <= n - 1 /\
  p0 (lo (shrink n R box)) <= p0 (hi (shrink n R box)) + 1 /\
  p1 (lo (shrink n R box)) <= p1 (hi (shrink n R box)) + 1.

(** The private box of tile [(tx, ty)] as a shard obtains it: the colour
    [PRIVATE] of the halo partition of its halo-extended tile. *)
Definition tile_private_box (n RADIUS Num_procsx Num_procsy tx ty : Z) : Rect2 :=
  privateBox n RADIUS
    (tileDomain n RADIUS (n `quot` Num_procsx) (n `quot` Num_procsy) tx ty).

End Layout.

(** ** The shards: the neighbours of a tile ([top_level_task]) and the
    partitions a shard builds for itself ([spmd_task]) *)

Module Shards.

Import Partitioner.

#[global] Instance Rect2_inhabited : Inhabited Rect2 :=
  populate (Rect (make_point 0 0) (make_point 0 0)).

(** [int offsets[][2] = { {-1, 0}, {0, -1}, {1, 0}, {0, 1} };] *)
Definition offsets : list (Z * Z) := [(-1, 0); (0, -1); (1, 0); (0, 1)].

(** [neighborX = tileX + offsets[dir][0]], [neighborY = tileY +
    offsets[dir][1]]: sums of [int]. *)
Definition neighborCoords (tileX tileY : Z) (dir : nat) : Z * Z :=
  let off := offsets !!! dir in
  (int_add tileX off.1, int_add tileY off.2).

(** [neighborX < 0 || neighborY < 0 || neighborX >= Num_procsx ||
     neighborY >= Num_procsy] *)
Definition off_grid (Num_procsx Num_procsy : Z) (p : Z * Z) : bool :=
  (p.1 <? 0) || (p.2 <? 0) || (Num_procsx <=? p.1) || (Num_procsy <=? p.2).

(** *** [spmd_task]: the neighbours as the shard sees them *)

(** [hasNeighbor[GHOST_LEFT] = haloBox.lo[0] != 0;] and so on. *)
Definition hasNeighbor (n : Z) (haloBox : Rect2) : list bool :=
  [ negb (p0 (lo haloBox) =? 0);
    negb (p1 (lo haloBox) =? 0);
    negb (p0 (hi haloBox) =? n - 1);
    negb (p1 (hi haloBox) =? n - 1) ].

(** *** [spmd_task]: the partitions of a shard *)

Record shard_partitions : Type := {
  sp_privateBox : Rect2;
  sp_interiorBox : Rect2;
  sp_hasBoundary : list bool;
  sp_sectors : gmap nat Rect2;
  sp_ghosts : gmap nat Rect2;
  sp_privateLp : gmap Z Rect2;
  sp_interiorLp : gmap Z Rect2
}.

Definition spmd_partitions (n RADIUS numThreads : Z) (haloBox : Rect2)
    : result shard_partitions :=
  let localLP := createHaloPartition n RADIUS haloBox in
  let privateLr := localLP !!! gid PRIVATE in
  let boundaryLP :=
    createBoundaryPartition n RADIUS privateLr (replicate 9 false) in
  let interiorLr := boundaryLP.1 !!! bid INTERIOR in
  privateLp ← createBalancedPartition privateLr numThreads;
  interiorLp ← createBalancedPartition interiorLr numThreads;
  Ok {| sp_privateBox := privateLr;
        sp_interiorBox := interiorLr;
        sp_hasBoundary := boundaryLP.2;
        sp_sectors := boundaryLP.1;
        sp_ghosts := localLP;
        sp_privateLp := privateLp;
        sp_interiorLp := interiorLp |}.

End Shards.

(** ** Tiles in tile coordinates *)

Module Geometry.

Import Partitioner Layout Shards.

(** The cells of a colour of a halo partition. *)
Definition ghost_cells (coloring : gmap nat Rect2) (d : GhostDirection)
    (x y : Z) : Prop :=
  exists r, coloring !! gid d = Some r /\ in_rect r x y.

(** The tile's own cells: [tileSize] columns and rows from the tile's
    corner. *)
Definition tile_box (tileSizeX tileSizeY tx ty : Z) : Rect2 :=
  Rect (make_point (tx * tileSizeX) (ty * tileSizeY))
       (make_point ((tx + 1) * tileSizeX - 1) ((ty + 1) * tileSizeY - 1)).

(** The tile [(tx, ty)] has a neighbour tile in direction [dir]. *)
Definition has_neighbor_tile (Num_procsx Num_procsy tx ty : Z) (dir : nat)
    : bool :=
  negb (off_grid Num_procsx Num_procsy (neighborCoords tx ty dir)).

(** The halo box of a tile as [top_level_task] colours it. *)
Definition tile_halo_box (n RADIUS Num_procsx Num_procsy tx ty : Z) : Rect2 :=
  tileDomain n RADIUS (n `quot` Num_procsx) (n `quot` Num_procsy) tx ty.

(** The table of a halo partition: the rectangle of each colour, if it is
    set. *)
Definition halo_table (n R : Z) (haloBox : Rect2) (d : GhostDirection)
    : option Rect2 :=
  let bb := shrink n R haloBox in
  let rect x0 y0 x1 y1 := Some (Rect (make_point x0 y0) (make_point x1 y1)) in
  match d with
  | GHOST_LEFT =>
      if 0 <? p0 (lo bb)
      then rect (p0 (lo haloBox)) (p1 (lo bb)) (p0 (lo bb) - 1) (p1 (hi bb))
      else None
  | GHOST_UP =>
      if 0 <? p1 (lo bb)
      then rect (p0 (lo bb)) (p1 (lo haloBox)) (p0 (hi bb)) (p1 (lo bb) - 1)
      else None
  | GHOST_RIGHT =>
      if p0 (hi bb) <? n - 1
      then rect (p0 (hi bb) + 1) (p1 (lo bb)) (p0 (hi haloBox)) (p1 (hi bb))
      else None
  | GHOST_DOWN =>
      if p1 (hi bb) <? n - 1
      then rect (p0 (lo bb)) (p1 (hi bb) + 1) (p0 (hi bb)) (p1 (hi haloBox))
      else None
  | PRIVATE => Some bb
  end.

(** The four corner squares of a halo box, which no colour covers. *)
Definition halo_corner (n R : Z) (haloBox : Rect2) (x y : Z) : Prop :=
  let bb := shrink n R haloBox in
  (x < p0 (lo bb) \/ p0 (hi bb) < x) /\ (y < p1 (lo bb) \/ p1 (hi bb) < y).

(** The ghost direction with a given number. *)
Definition ghost_of (dir : nat) : GhostDirection :=
  match dir with
  | 0 => GHOST_LEFT | 1 => GHOST_UP | 2 => GHOST_RIGHT | 3 => GHOST_DOWN
  | _ => PRIVATE
  end%nat.

(** The ghost strips of a tile in tile coordinates: [R] columns or rows
    next to the tile's own block, on the sides where the grid goes on. *)
Definition tile_ghost_strip (R Px Py wx wy tx ty : Z) (d : GhostDirection)
    : option Rect2 :=
  let rect x0 y0 x1 y1 := Some (Rect (make_point x0 y0) (make_point x1 y1)) in
  match d with
  | GHOST_LEFT =>
      if 0 <? tx
      then rect (tx * wx - R) (ty * wy) (tx * wx - 1) ((ty + 1) * wy - 1)
      else None
  | GHOST_UP =>
      if 0 <? ty
      then rect (tx * wx) (ty * wy - R) ((tx + 1) * wx - 1) (ty * wy - 1)
      else None
  | GHOST_RIGHT =>
      if tx <? Px - 1
      then rect ((tx + 1) * wx) (ty * wy)
                ((tx + 1) * wx + R - 1) ((ty + 1) * wy - 1)
      else None
  | GHOST_DOWN =>
      if ty <? Py - 1
      then rect (tx * wx) ((ty + 1) * wy)
                ((tx + 1) * wx - 1) ((ty + 1) * wy + R - 1)
      else None
  | PRIVATE => Some (tile_box wx wy tx ty)
  end.

End Geometry.

(** * Properties *)

Import Partitioner Layout Spmd Validation Cli.

(** ** Machine integers *)

Lemma to_int_id (z : Z) : INT_MIN <= z <= INT_MAX -> to_int z = z.
Proof.
  unfold INT_MIN, INT_MAX, to_int. intros Hz.
  rewrite Z.mod_small by lia. lia.
Qed.

Lemma to_int_range (z : Z) : INT_MIN <= to_int z <= INT_MAX.
Proof.
  unfold INT_MIN, INT_MAX, to_int.
  pose proof (Z.mod_pos_bound (z + 2147483648) 4294967296 ltac:(lia)). lia.
Qed.

(** One axis of a tile: below [INT_MAX - RADIUS] the [int] expressions of
    the corners do not wrap. *)
Lemma tile_axis_exact (n R P w t : Z) :
  1 <= R -> 0 < n -> n + R <= INT_MAX -> n = P * w -> 0 <= t < P ->
  int_sub (int_mul t w) R = t * w - R /\
  int_sub (Z.min (int_add (int_mul (int_add t 1) w) R) n) 1
  = Z.min ((t + 1) * w + R) n - 1.
Proof.
  intros HR Hn Hmax Hnw Ht. unfold int_sub, int_mul, int_add.
  assert (0 < w) by nia.
  assert (0 <= t * w <= n) by nia.
  assert (0 < (t + 1) * w <= n) by nia.
  unfold INT_MAX in Hmax.
  assert (Hid : forall z, -2147483648 <= z <= 2147483647 -> to_int z = z)
    by (intros z Hz; apply to_int_id; unfold INT_MIN, INT_MAX; lia).
  rewrite (Hid (t * w)) by lia.
  rewrite (Hid (t * w - R)) by lia.
  rewrite (Hid (t + 1)) by nia.
  rewrite (Hid ((t + 1) * w)) by lia.
  rewrite (Hid ((t + 1) * w + R)) by lia.
  rewrite Hid by lia. split; reflexivity.
Qed.

Lemma tileDomain_exact (n R Px Py wx wy tx ty : Z) :
  1 <= R -> 0 < n -> n + R <= INT_MAX -> n = Px * wx -> n = Py * wy ->
  0 <= tx < Px -> 0 <= ty < Py ->
  tileDomain n R wx wy tx ty
  = Rect (make_point (Z.max (tx * wx - R) 0) (Z.max (ty * wy - R) 0))
         (make_point (Z.min ((tx + 1) * wx + R) n - 1)
                     (Z.min ((ty + 1) * wy + R) n - 1)).
Proof.
  intros HR Hn Hmax Hnx Hny Hx Hy. unfold tileDomain.
  destruct (tile_axis_exact n R Px wx tx HR Hn Hmax Hnx Hx) as [-> ->].
  destruct (tile_axis_exact n R Py wy ty HR Hn Hmax Hny Hy) as [-> ->].
  reflexivity.
Qed.

(** ** The model at work *)

Example balanced_7_rows_3_threads :
  match createBalancedPartition (Rect (make_point 0 10) (make_point 3 16)) 3 with
  | Ok coloring =>
      (coloring !! 0, coloring !! 1, coloring !! 2, coloring !! 3)
      = (Some (Rect (make_point 0 10) (make_point 3 12)),
         Some (Rect (make_point 0 13) (make_point 3 14)),
         Some (Rect (make_point 0 15) (make_point 3 16)),
         None)
  | Abort _ => False
  end.
Proof. vm_compute. reflexivity. Qed.

Example halo_tiles_8_2x2 :
  haloColoring 8 1 2 2 !! (1, 1)
  = Some (Rect (make_point 3 3) (make_point 7 7)).
Proof. vm_compute. reflexivity. Qed.

Example sectors_of_a_corner_tile :
  let st := createBoundaryPartition 8 1 (tile_private_box 8 1 2 2 0 0)
              (replicate 9 false) in
  snd st = [false; false; false; false; true; true; true; false; false] /\
  fst st !! bid RIGHT = Some (Rect (make_point 3 0) (make_point 3 2)) /\
  fst st !! bid RIGHT_DOWN = Some (Rect (make_point 3 3) (make_point 3 3)) /\
  fst st !! bid DOWN = Some (Rect (make_point 0 3) (make_point 2 3)) /\
  fst st !! bid INTERIOR = Some (Rect (make_point 0 0) (make_point 2 2)).
Proof. vm_compute. repeat split; reflexivity. Qed.

Example check_of_a_block_in_doubles :
  check_task (D:=PrimFloat.float) 8 2 3
    (fun x y => Double.of_int (x + y))
    (Rect (make_point 0 0) (make_point 3 3))
  = Double.of_int 4.
Proof. vm_compute. reflexivity. Qed.

Example run_accepted_and_validated :
  top_level_task (D:=PrimFloat.float) 1 2 (fun _ => PrimFloat.zero)
    ["stencil"; "2"; "10"; "64"]%string
  = ([Banner 1 64 2 1 2 10; Tiles 1 1; Validates; Rate], Exited EXIT_SUCCESS).
Proof. vm_compute. reflexivity. Qed.

Example run_refused_for_the_radius :
  top_level_task (D:=PrimFloat.float) 1 2 (fun _ => PrimFloat.zero)
    ["stencil"; "2"; "10"; "4"]%string
  = ([Banner 1 4 2 1 2 10; ErrRadiusGrid 2 4], Exited EXIT_FAILURE).
Proof. vm_compute. reflexivity. Qed.

(** An order that does not fit an [int]: [atoi] returns 0 for [2^32], and
    the run is refused. *)
Example run_refused_for_an_order_past_int :
  top_level_task (D:=PrimFloat.float) 1 2 (fun _ => PrimFloat.zero)
    ["stencil"; "2"; "10"; "4294967296"]%string
  = ([ErrOrder 0], Exited EXIT_FAILURE).
Proof. vm_compute. reflexivity. Qed.

Example numa_nodes_past_int :
  num_numa_nodes ["stencil"; "2"; "10"; "64"; "4294967295"]%string = -1.
Proof. vm_compute. reflexivity. Qed.

(** The corner of a tile past [INT_MAX - RADIUS]: the sum wraps. *)
Example tile_corner_wraps :
  tileDomain 2147483647 2 2147483647 2147483647 0 0
  = Rect (make_point 0 0) (make_point (-2147483648) (-2147483648)).
Proof. vm_compute. reflexivity. Qed.

(** The private region of a shard is the colour [PRIVATE] of its halo
    partition. *)
Lemma createHaloPartition_private (n R : Z) (haloBox : Rect2) :
  createHaloPartition n R haloBox !! gid PRIVATE
  = Some (privateBox n R haloBox).
Proof. unfold createHaloPartition. cbv zeta. apply lookup_insert_eq. Qed.

(** ** The balanced split *)

Section BalancedFacts.

Variables (rect : Rect2) (workers : Z).
Hypothesis workers_pos : 1 <= workers.
Hypothesis size_nonneg : 0 <= rows rect.

Let size := rows rect.

Local Set Default Proof Using "All".

Lemma offY_div : offY rect workers = size / workers.
Proof. unfold offY, sizeY. apply Z.quot_div_nonneg; unfold size, rows in *; lia. Qed.

Lemma remainder_mod : remainder rect workers = size mod workers.
Proof. unfold remainder, sizeY. apply Z.rem_mod_nonneg; unfold size, rows in *; lia. Qed.

Lemma size_split : size = workers * (size / workers) + size mod workers.
Proof. apply Z.div_mod. lia. Qed.

Lemma mod_range : 0 <= size mod workers < workers.
Proof. apply Z.mod_pos_bound. lia. Qed.

Lemma div_nonneg : 0 <= size / workers.
Proof. apply Z.div_pos; unfold size; lia. Qed.

Lemma band_start_next c :
  0 <= c ->
  band_start (p1 (lo rect)) size workers (c + 1) =
  band_start (p1 (lo rect)) size workers c + band_rows size workers c.
Proof.
  intros Hc. unfold band_start, band_rows.
  destruct (Z.ltb_spec c (size mod workers)); lia.
Qed.

Lemma band_start_end :
  band_start (p1 (lo rect)) size workers workers = p1 (hi rect) + 1.
Proof.
  unfold band_start. pose proof mod_range. pose proof size_split.
  unfold size, rows in *. lia.
Qed.

Lemma band_rows_bounds c :
  size / workers <= band_rows size workers c <= size / workers + 1.
Proof. unfold band_rows. destruct (c <? size mod workers); lia. Qed.

(** Before the last row of the rectangle at least [size / workers - 1]
    rows are left after the start of any band. *)
Lemma band_start_le c :
  0 <= c < workers ->
  band_start (p1 (lo rect)) size workers c + size / workers <= p1 (hi rect) + 1.
Proof.
  intros Hc. rewrite <- band_start_end. unfold band_start.
  pose proof mod_range. pose proof div_nonneg.
  assert (c * (size / workers) + size / workers <= workers * (size / workers))
    by nia.
  lia.
Qed.

Lemma band_start_last :
  band_start (p1 (lo rect)) size workers (workers - 1) + size / workers
  = p1 (hi rect) + 1.
Proof.
  pose proof (band_start_next (workers - 1) ltac:(lia)) as Hnext.
  replace (workers - 1 + 1) with workers in Hnext by lia.
  rewrite band_start_end in Hnext. unfold band_rows in Hnext.
  pose proof mod_range.
  destruct (Z.ltb_spec (workers - 1) (size mod workers)); lia.
Qed.

(** The loop, when every band has at least two rows. *)
Lemma balanced_loop_ok todo c coloring :
  2 <= size / workers ->
  0 <= c -> c + Z.of_nat todo = workers ->
  balanced_loop rect workers todo c
    (band_start (p1 (lo rect)) size workers c) coloring
  = Ok (foldl (fun col c => <[c := band rect workers c]> col) coloring
          (seqZ c (Z.of_nat todo))).
Proof.
  intros Hbig. revert c coloring.
  induction todo as [|todo IH]; intros c coloring Hc Hsum.
  - reflexivity.
  - cbn [balanced_loop]. rewrite offY_div, remainder_mod.
    fold (band_rows size workers c).
    pose proof (band_start_le c ltac:(lia)).
    pose proof (band_rows_bounds c).
    pose proof (band_start_next c Hc) as Hnext.
    assert (Hend : band_start (p1 (lo rect)) size workers (c + 1)
                   <= p1 (hi rect) + 1).
    { destruct (decide (c + 1 = workers)) as [->|].
      - rewrite band_start_end. lia.
      - pose proof (band_start_le (c + 1) ltac:(lia)).
        pose proof div_nonneg. lia. }
    replace (band_start (p1 (lo rect)) size workers c <? p1 (hi rect))
      with true by (symmetry; apply Z.ltb_lt; lia).
    replace (band_start (p1 (lo rect)) size workers c
             + band_rows size workers c - 1 <=? p1 (hi rect))
      with true by (symmetry; apply Z.leb_le; lia).
    cbn [assert mbind result_bind].
    replace (band_start (p1 (lo rect)) size workers c
             + band_rows size workers c)
      with (band_start (p1 (lo rect)) size workers (c + 1)) at 1.
    rewrite IH by lia.
    rewrite (seqZ_cons c) by lia. cbn [foldl].
    replace (Z.pred (Z.of_nat (S todo))) with (Z.of_nat todo) by lia.
    replace (Z.succ c) with (c + 1) by lia.
    reflexivity.
Qed.

(** The loop, when a band would have fewer than two rows: the first
    assertion fails at the last band at the latest. *)
Lemma balanced_loop_fails todo c coloring :
  size / workers <= 1 ->
  0 <= c -> c + Z.of_nat (S todo) = workers ->
  balanced_loop rect workers (S todo) c
    (band_start (p1 (lo rect)) size workers c) coloring
  = Abort AssertionFailed.
Proof.
  intros Hsmall. revert c coloring.
  induction todo as [|todo IH]; intros c coloring Hc Hsum.
  - cbn [balanced_loop].
    replace c with (workers - 1) by lia.
    pose proof band_start_last.
    replace (band_start (p1 (lo rect)) size workers (workers - 1)
             <? p1 (hi rect))
      with false by (symmetry; apply Z.ltb_ge; lia).
    reflexivity.
  - remember (S todo) as k. cbn [balanced_loop].
    rewrite offY_div, remainder_mod. fold (band_rows size workers c).
    destruct (band_start (p1 (lo rect)) size workers c <? p1 (hi rect));
      [|reflexivity].
    destruct (band_start (p1 (lo rect)) size workers c
              + band_rows size workers c - 1 <=? p1 (hi rect));
      [|reflexivity].
    cbn [assert mbind result_bind].
    rewrite <- (band_start_next c Hc). subst k. apply IH; lia.
Qed.

End BalancedFacts.

Lemma foldl_insert_lookup {A : Type} (f : Z -> A) (l : list Z)
    (m : gmap Z A) (k : Z) :
  foldl (fun col c => <[c := f c]> col) m l !! k
  = if decide (k ∈ l) then Some (f k) else m !! k.
Proof.
  revert m. induction l as [|c l IH]; intros m; cbn [foldl].
  - destruct (decide (k ∈ [])) as [Hin|]; [inversion Hin | reflexivity].
  - rewrite IH. destruct (decide (k ∈ l)) as [Hin|Hnin].
    + rewrite decide_True by (right; exact Hin). reflexivity.
    + destruct (decide (k = c)) as [->|Hne].
      * rewrite decide_True by left. apply lookup_insert_eq.
      * rewrite decide_False by (intros Hin; inversion Hin; subst; tauto).
        apply lookup_insert_ne. congruence.
Qed.

Lemma sum_rows_app (l1 l2 : list Rect2) :
  sum_rows (l1 ++ l2) = sum_rows l1 + sum_rows l2.
Proof.
  unfold sum_rows. induction l1 as [|b l1 IH]; cbn; [reflexivity|].
  cbn in IH. rewrite IH. lia.
Qed.

Lemma rows_band rect workers c :
  rows (band rect workers c) = band_rows (rows rect) workers c.
Proof. unfold rows, band. cbn. unfold rows. lia. Qed.

(** The rows of the first [k] bands telescope. *)
Lemma sum_rows_bands rect workers (k : nat) :
  1 <= workers -> 0 <= rows rect ->
  sum_rows (band rect workers <$> seqZ 0 (Z.of_nat k))
  = band_start (p1 (lo rect)) (rows rect) workers (Z.of_nat k)
    - band_start (p1 (lo rect)) (rows rect) workers 0.
Proof.
  intros Hw Hs. induction k as [|k IH].
  - rewrite seqZ_nil by lia. change (Z.of_nat 0) with 0.
    unfold sum_rows. cbn [fmap list_fmap foldr]. lia.
  - rewrite seqZ_S, fmap_app, sum_rows_app, IH. cbn [fmap list_fmap].
    unfold sum_rows at 1. cbn. rewrite rows_band.
    replace (Z.of_nat (S k)) with (Z.of_nat k + 1) by lia.
    rewrite (band_start_next rect workers Hw Hs) by lia.
    rewrite Z.add_0_l. lia.
Qed.

Lemma band_start_0 rect workers :
  1 <= workers -> 0 <= rows rect ->
  band_start (p1 (lo rect)) (rows rect) workers 0 = p1 (lo rect).
Proof.
  intros Hw Hs. unfold band_start.
  pose proof (mod_range rect workers Hw Hs). lia.
Qed.

(** The colouring the loop builds when no assertion fires. *)
Lemma balanced_coloring_layout rect workers :
  1 <= workers -> 0 <= rows rect ->
  balanced_layout rect workers
    (foldl (fun col c => <[c := band rect workers c]> col) ∅
       (seqZ 0 workers)).
Proof.
  intros Hw Hs.
  set (coloring := foldl _ _ _).
  assert (Hlook : forall c, coloring !! c
            = if decide (0 <= c < workers)
              then Some (band rect workers c) else None).
  { intros c. unfold coloring. rewrite foldl_insert_lookup.
    destruct (decide (c ∈ seqZ 0 workers)) as [Hin|Hnin];
      rewrite elem_of_seqZ in *.
    - rewrite decide_True by lia. reflexivity.
    - rewrite decide_False by lia. apply lookup_empty. }
  clearbody coloring.
  assert (Hbands : bands coloring workers = band rect workers <$> seqZ 0 workers).
  { unfold bands.
    assert (Hall : Forall (fun c => 0 <= c < workers) (seqZ 0 workers))
      by (apply Forall_seqZ; lia).
    induction Hall as [|c l Hc _ IH]; [reflexivity|].
    cbn. rewrite Hlook, decide_True by exact Hc. cbn. f_equal. exact IH. }
  pose proof (band_start_0 rect workers Hw Hs) as H0.
  assert (Hget : forall c b, coloring !! c = Some b ->
            0 <= c < workers /\ b = band rect workers c).
  { intros c b Hb. rewrite Hlook in Hb.
    destruct (decide (0 <= c < workers)); [|discriminate].
    injection Hb as <-. split; [assumption|reflexivity]. }
  unfold balanced_layout.
  split.
  { intros c. rewrite Hlook.
    destruct (decide (0 <= c < workers)); split; intros Hx;
      try assumption; try (eexists; reflexivity).
    - destruct Hx as [b Hb]. discriminate.
    - lia. }
  split.
  { intros c b Hb. apply Hget in Hb as [Hc ->].
    split; [reflexivity|split; [reflexivity|apply rows_band]]. }
  split.
  { intros b Hb. apply Hget in Hb as [Hc ->]. cbn. exact H0. }
  split.
  { intros c b b' Hb Hb'.
    apply Hget in Hb as [Hc ->]. apply Hget in Hb' as [Hc' ->]. cbn.
    rewrite (band_start_next rect workers Hw Hs) by lia. lia. }
  split.
  { intros b Hb. apply Hget in Hb as [Hc ->]. cbn.
    pose proof (band_start_next rect workers Hw Hs (workers - 1) ltac:(lia))
      as Hn.
    replace (workers - 1 + 1) with workers in Hn by lia.
    rewrite (band_start_end rect workers Hw Hs) in Hn. lia. }
  split.
  { rewrite Hbands, length_fmap, length_seqZ. reflexivity. }
  split.
  { rewrite Hbands.
    replace workers with (Z.of_nat (Z.to_nat workers)) at 2 by lia.
    rewrite sum_rows_bands by assumption.
    rewrite Z2Nat.id by lia.
    rewrite (band_start_end rect workers Hw Hs), H0. unfold rows. lia. }
  intros c c' b b' Hb Hb'.
  apply Hget in Hb as [Hc ->]. apply Hget in Hb' as [Hc' ->].
  rewrite !rows_band.
  pose proof (band_rows_bounds rect workers Hw Hs c).
  pose proof (band_rows_bounds rect workers Hw Hs c'). lia.
Qed.

Lemma createBalancedPartition_ok rect workers :
  1 <= workers -> 2 * workers <= rows rect ->
  createBalancedPartition rect workers
  = Ok (foldl (fun col c => <[c := band rect workers c]> col) ∅
          (seqZ 0 workers)).
Proof.
  intros Hw Hs. unfold createBalancedPartition.
  rewrite decide_False by lia.
  assert (H0 : 0 <= rows rect) by lia.
  rewrite <- (band_start_0 rect workers Hw H0).
  rewrite (balanced_loop_ok rect workers Hw H0); [| |lia|lia].
  - rewrite Z2Nat.id by lia. reflexivity.
  - apply Z.div_le_lower_bound; lia.
Qed.

Lemma createBalancedPartition_fails rect workers :
  1 <= workers -> rows rect < 2 * workers ->
  createBalancedPartition rect workers = Abort AssertionFailed.
Proof.
  intros Hw Hs. unfold createBalancedPartition.
  rewrite decide_False by lia.
  destruct (Z.to_nat workers) as [|todo] eqn:Htodo; [lia|].
  destruct (Z_lt_le_dec (rows rect) 2) as [Htiny|Hbig].
  - (* at most one row: the first band already starts on the last row *)
    cbn [balanced_loop].
    replace (p1 (lo rect) <? p1 (hi rect)) with false
      by (symmetry; apply Z.ltb_ge; unfold rows in *; lia).
    reflexivity.
  - assert (H0 : 0 <= rows rect) by lia.
    rewrite <- (band_start_0 rect workers Hw H0).
    apply (balanced_loop_fails rect workers Hw H0); [|lia|lia].
    assert (rows rect / workers < 2); [|lia].
    apply Z.div_lt_upper_bound; lia.
Qed.

(** C2, as stated, at a split of three rows between two workers: the
    bands would be rows 0-1 and row 2, but the last band starts on the last
    row, the strict [assert(startY < rect.hi[1])] fires and the colouring is
    never returned. *)
Lemma balanced_split_three_rows_two_workers :
  let rect := Rect (make_point 0 0) (make_point 3 2) in
  let workers := 2 in
  (1 <= rows rect /\ 1 <= workers /\ workers <= rows rect) /\
  ~ (exists coloring,
       createBalancedPartition rect workers = Ok coloring /\
       balanced_layout rect workers coloring).
Proof.
  cbv zeta. split.
  - unfold rows. cbn. lia.
  - intros [coloring [Hrun _]]. vm_compute in Hrun. discriminate.
Qed.

(** C2.  Where [createBalancedPartition] returns, which is for
    [workers >= 1] and a rectangle of at least [2 * workers] rows, it
    returns one band per worker: band [c] spans the columns of the rectangle
    and has
    [size / workers + 1] rows if [c < size mod workers] and
    [size / workers] rows otherwise; the bands follow each other without
    gap from the first row of the rectangle to its last, in increasing row
    order, so their rows add up to [size] and differ pairwise by at most
    one. *)
Theorem balanced_split_layout (rect : Rect2) (workers : Z) :
  1 <= workers -> 2 * workers <= rows rect ->
  exists coloring,
    createBalancedPartition rect workers = Ok coloring /\
    balanced_layout rect workers coloring.
Proof.
  intros Hw Hs. eexists. split.
  - apply createBalancedPartition_ok; assumption.
  - apply balanced_coloring_layout; lia.
Qed.

Lemma balanced_split_layout_witness :
  exists coloring,
    createBalancedPartition (Rect (make_point 0 10) (make_point 3 16)) 3
    = Ok coloring /\
    balanced_layout (Rect (make_point 0 10) (make_point 3 16)) 3 coloring.
Proof.
  apply balanced_split_layout; unfold rows; cbn; lia.
Defined.

(** C3, as stated, at one row and one worker: [workers <= size], and the
    first assertion of the loop fires. *)
Lemma balanced_assertion_one_row_one_worker :
  let rect := Rect (make_point 0 0) (make_point 0 0) in
  let workers := 1 in
  (1 <= rows rect /\ 1 <= workers /\ workers <= rows rect) /\
  createBalancedPartition rect workers = Abort AssertionFailed.
Proof.
  cbv zeta. split.
  - unfold rows. cbn. lia.
  - vm_compute. reflexivity.
Qed.

(** C3.  For [workers >= 1] the balanced split fails by assertion exactly
    when the rectangle has fewer than [2 * workers] rows: whenever
    [workers > size], and also for [workers <= size < 2 * workers], where
    the strict [assert(startY < rect.hi[1])] refuses the last band because
    it has one row.  With at least [2 * workers] rows neither in-loop
    assertion fires and a colouring is returned. *)
Theorem balanced_split_assertion (rect : Rect2) (workers : Z) :
  1 <= workers ->
  (createBalancedPartition rect workers = Abort AssertionFailed
   <-> rows rect < 2 * workers) /\
  (workers > rows rect ->
   createBalancedPartition rect workers = Abort AssertionFailed) /\
  (2 * workers <= rows rect ->
   is_ok (createBalancedPartition rect workers) = true).
Proof.
  intros Hw. split; [split|split].
  - intros Hfail. destruct (Z_lt_le_dec (rows rect) (2 * workers)); [assumption|].
    rewrite createBalancedPartition_ok in Hfail by assumption. discriminate.
  - apply createBalancedPartition_fails; assumption.
  - intros Hgt. apply createBalancedPartition_fails; lia.
  - intros Hs. rewrite createBalancedPartition_ok by assumption. reflexivity.
Qed.

Lemma balanced_split_assertion_witness :
  (createBalancedPartition (Rect (make_point 0 0) (make_point 7 4)) 3
   = Abort AssertionFailed
   <-> rows (Rect (make_point 0 0) (make_point 7 4)) < 2 * 3) /\
  (3 > rows (Rect (make_point 0 0) (make_point 7 4)) ->
   createBalancedPartition (Rect (make_point 0 0) (make_point 7 4)) 3
   = Abort AssertionFailed) /\
  (2 * 3 <= rows (Rect (make_point 0 0) (make_point 7 4)) ->
   is_ok (createBalancedPartition (Rect (make_point 0 0) (make_point 7 4)) 3)
   = true).
Proof.
  apply balanced_split_assertion. lia.
Defined.

(** The strict assertion refuses a band of one row only where the band is
    the last one.  Four rows for three workers: the first two passes of the
    loop accept the bands of rows 0-1 and of row 2 alone; the third pass,
    for row 3 alone, fails the assertion. *)
Lemma balanced_one_row_band_mid_split :
  let rect := Rect (make_point 0 0) (make_point 3 3) in
  (exists coloring,
     balanced_loop rect 3 2 0 0 ∅ = Ok coloring /\
     coloring !! 1 = Some (Rect (make_point 0 2) (make_point 3 2))) /\
  balanced_loop rect 3 3 0 0 ∅ = Abort AssertionFailed /\
  createBalancedPartition rect 3 = Abort AssertionFailed.
Proof.
  cbv zeta. split; [|split]; [|vm_compute; reflexivity..].
  eexists. split; vm_compute; reflexivity.
Qed.

(** The command line [stencil 4 10 7] on one rank with [RADIUS = 2] passes
    every check of [top_level_task]; the private region of the one shard
    has 7 rows, and its split between the 4 threads (bands of 2, 2, 2 and 1
    rows) fails the assertion. *)
Lemma balanced_split_aborts_on_accepted_input :
  let argv := ["stencil"; "4"; "10"; "7"]%string in
  snd (read_parameters (D:=PrimFloat.float) 1 2 argv)
  = inr {| cfg_n := 7; cfg_threads := 4; cfg_iterations := 10;
           cfg_num_ranks := 1; cfg_Num_procsx := 1; cfg_Num_procsy := 1 |} /\
  tile_private_box 7 2 1 1 0 0 = Rect (make_point 0 0) (make_point 6 6) /\
  4 <= rows (tile_private_box 7 2 1 1 0 0) /\
  createBalancedPartition (tile_private_box 7 2 1 1 0 0) 4
  = Abort AssertionFailed.
Proof.
  cbv zeta. split; [vm_compute; reflexivity|].
  split; [vm_compute; reflexivity|].
  split; [vm_compute; discriminate|vm_compute; reflexivity].
Qed.

(** ** Halo-extended tiles *)

Lemma haloColoring_row_lookup n R sx sy Px tileY col x y :
  haloColoring_row n R sx sy Px tileY col !! (x, y)
  = if decide (y = tileY /\ 0 <= x < Px)
    then Some (tileDomain n R sx sy x tileY) else col !! (x, y).
Proof.
  unfold haloColoring_row.
  assert (Hgen : forall l (col : gmap (Z * Z) Rect2),
    foldl (fun col tileX =>
             <[(tileX, tileY) := tileDomain n R sx sy tileX tileY]> col) col l
      !! (x, y)
    = if decide (y = tileY /\ x ∈ l)
      then Some (tileDomain n R sx sy x tileY) else col !! (x, y)).
  { clear col. intros l. induction l as [|c l IH]; intros col; cbn [foldl].
    - rewrite decide_False; [reflexivity|]. intros [_ Hin]. inversion Hin.
    - rewrite IH. destruct (decide (y = tileY /\ x ∈ l)) as [[-> Hin]|Hnin].
      + rewrite decide_True; [reflexivity|]. split; [reflexivity|]. right; assumption.
      + destruct (decide (y = tileY /\ x = c)) as [[-> ->]|Hne].
        * rewrite decide_True by (split; [reflexivity|left]).
          apply lookup_insert_eq.
        * rewrite decide_False.
          -- apply lookup_insert_ne. intros Heq. injection Heq as -> ->. tauto.
          -- intros [-> Hin]. inversion Hin; subst; tauto. }
  rewrite Hgen.
  destruct (decide (y = tileY /\ x ∈ seqZ 0 Px)) as [[-> Hin]|Hnin];
    rewrite elem_of_seqZ in *.
  - rewrite decide_True by (split; [reflexivity|lia]). reflexivity.
  - rewrite decide_False; [reflexivity|]. intros [-> Hx]. apply Hnin.
    split; [reflexivity|lia].
Qed.

Lemma haloColoring_lookup n R Px Py x y :
  haloColoring n R Px Py !! (x, y)
  = if decide (0 <= x < Px /\ 0 <= y < Py)
    then Some (tileDomain n R (n `quot` Px) (n `quot` Py) x y) else None.
Proof.
  unfold haloColoring. cbv zeta.
  set (sx := n `quot` Px). set (sy := n `quot` Py).
  assert (Hgen : forall l (col : gmap (Z * Z) Rect2),
    foldl (fun col tileY => haloColoring_row n R sx sy Px tileY col) col l
      !! (x, y)
    = if decide (0 <= x < Px /\ y ∈ l)
      then Some (tileDomain n R sx sy x y) else col !! (x, y)).
  { intros l. induction l as [|c l IH]; intros col; cbn [foldl].
    - rewrite decide_False; [reflexivity|]. intros [_ Hin]. inversion Hin.
    - rewrite IH. destruct (decide (0 <= x < Px /\ y ∈ l)) as [[Hx Hin]|Hnin].
      + rewrite decide_True; [reflexivity|]. split; [assumption|]. right; assumption.
      + rewrite haloColoring_row_lookup.
        destruct (decide (y = c /\ 0 <= x < Px)) as [[-> Hx]|Hne].
        * rewrite decide_True by (split; [assumption|left]). reflexivity.
        * rewrite decide_False; [reflexivity|].
          intros [Hx Hin]. inversion Hin; subst; tauto. }
  rewrite Hgen, lookup_empty.
  destruct (decide (0 <= x < Px /\ y ∈ seqZ 0 Py)) as [[Hx Hin]|Hnin];
    rewrite elem_of_seqZ in *.
  - rewrite decide_True by lia. reflexivity.
  - rewrite decide_False; [reflexivity|]. intros [Hx Hy]. apply Hnin. lia.
Qed.

(** One axis of a tile: [t] is the tile coordinate, [w] the tile width and
    [P] the number of tiles on the axis. *)
Lemma halo_axis n R P w t :
  1 <= R -> 0 < w -> n = P * w -> 0 <= t < P ->
  (Z.max (t * w - R) 0 = t * w <-> t = 0) /\
  (Z.min ((t + 1) * w + R) n - 1 = (t + 1) * w - 1 <-> t = P - 1) /\
  0 <= Z.max (t * w - R) 0 <= t * w /\
  (t + 1) * w - 1 <= Z.min ((t + 1) * w + R) n - 1 <= n - 1 /\
  t * w - R <= Z.max (t * w - R) 0 /\
  Z.min ((t + 1) * w + R) n - 1 <= (t + 1) * w + R - 1.
Proof.
  intros HR Hw Hn Ht.
  assert (0 <= t * w) by nia.
  assert ((t + 1) * w <= n) by nia.
  assert (t = 0 \/ w <= t * w) by nia.
  assert (t = P - 1 \/ (t + 1) * w + w <= n) by nia.
  assert (t = 0 -> t * w = 0) by nia.
  assert (t = P - 1 -> (t + 1) * w = n) by nia.
  repeat split; lia.
Qed.

Lemma quot_exact n P w : 0 < P -> n = P * w -> n `quot` P = w.
Proof.
  intros HP ->. rewrite Z.mul_comm. apply Z.quot_mul. lia.
Qed.

Lemma haloColoring_tile n R Px Py tx ty :
  0 <= tx < Px -> 0 <= ty < Py ->
  haloColoring n R Px Py !! (tx, ty)
  = Some (tileDomain n R (n `quot` Px) (n `quot` Py) tx ty).
Proof.
  intros Hx Hy. rewrite haloColoring_lookup. apply decide_True. lia.
Qed.

Lemma in_rect_box a b c d x y :
  in_rect (Rect (make_point a b) (make_point c d)) x y
  <-> a <= x <= c /\ b <= y <= d.
Proof. reflexivity. Qed.

(** A range widened by the radius and clipped to the grid. *)
Lemma axis_range a b n x :
  Z.max a 0 <= x <= Z.min b n - 1 <-> (a <= x <= b - 1) /\ 0 <= x <= n - 1.
Proof. lia. Qed.

(** C4.  For a valid configuration ([R >= 1], [n] a positive multiple of
    [Px] and [Py]) whose corners fit the [int] they are computed in
    ([n + R <= INT_MAX]) and every tile [(tx, ty)] of the [Px x Py] grid, the
    colouring built by the tile loops of [top_level_task] holds for the
    tile the box that is, per axis,
    [[max(t*w - R, 0), min((t+1)*w + R, n) - 1]] with [w] the tile width
    [n / P] of the axis.  It is the tile's own box widened by [R] and
    clipped to the grid, and the halo is absent on a side exactly when the
    tile touches the global boundary there. *)
Theorem halo_tile_box (n R Px Py tx ty : Z) :
  1 <= R -> 0 < n -> n + R <= INT_MAX -> (Px | n) -> (Py | n) ->
  0 <= tx < Px -> 0 <= ty < Py ->
  let wx := n `quot` Px in
  let wy := n `quot` Py in
  exists box,
    haloColoring n R Px Py !! (tx, ty) = Some box /\
    p0 (lo box) = Z.max (tx * wx - R) 0 /\
    p0 (hi box) = Z.min ((tx + 1) * wx + R) n - 1 /\
    p1 (lo box) = Z.max (ty * wy - R) 0 /\
    p1 (hi box) = Z.min ((ty + 1) * wy + R) n - 1 /\
    (p0 (lo box) = tx * wx <-> tx = 0) /\
    (p0 (hi box) = (tx + 1) * wx - 1 <-> tx = Px - 1) /\
    (p1 (lo box) = ty * wy <-> ty = 0) /\
    (p1 (hi box) = (ty + 1) * wy - 1 <-> ty = Py - 1) /\
    (forall x y, in_rect box x y <->
       (tx * wx - R <= x <= (tx + 1) * wx - 1 + R /\ 0 <= x <= n - 1) /\
       (ty * wy - R <= y <= (ty + 1) * wy - 1 + R /\ 0 <= y <= n - 1)).
Proof.
  intros HR Hn Hmax [kx Hkx] [ky Hky] Hx Hy wx wy.
  exists (tileDomain n R wx wy tx ty).
  split; [apply haloColoring_tile; assumption|].
  assert (Hwx : wx = kx) by (apply quot_exact; lia).
  assert (Hwy : wy = ky) by (apply quot_exact; lia).
  clearbody wx wy. subst wx wy.
  assert (0 < kx) by nia. assert (0 < ky) by nia.
  pose proof (halo_axis n R Px kx tx HR ltac:(lia) ltac:(lia) Hx)
    as (Ha & Hb & _).
  pose proof (halo_axis n R Py ky ty HR ltac:(lia) ltac:(lia) Hy)
    as (Ha' & Hb' & _).
  rewrite (tileDomain_exact n R Px Py kx ky) by lia.
  cbn [p0 p1 lo hi].
  repeat (split; [reflexivity|]).
  split; [exact Ha|]. split; [exact Hb|]. split; [exact Ha'|].
  split; [exact Hb'|].
  intros x y. rewrite in_rect_box, !axis_range.
  replace ((tx + 1) * kx - 1 + R) with ((tx + 1) * kx + R - 1) by ring.
  replace ((ty + 1) * ky - 1 + R) with ((ty + 1) * ky + R - 1) by ring.
  reflexivity.
Qed.

Lemma halo_tile_box_witness :
  exists box,
    haloColoring 8 1 2 2 !! (1, 0) = Some box /\
    p0 (lo box) = Z.max (1 * (8 `quot` 2) - 1) 0 /\
    p0 (hi box) = Z.min ((1 + 1) * (8 `quot` 2) + 1) 8 - 1 /\
    p1 (lo box) = Z.max (0 * (8 `quot` 2) - 1) 0 /\
    p1 (hi box) = Z.min ((0 + 1) * (8 `quot` 2) + 1) 8 - 1 /\
    (p0 (lo box) = 1 * (8 `quot` 2) <-> 1 = 0) /\
    (p0 (hi box) = (1 + 1) * (8 `quot` 2) - 1 <-> 1 = 2 - 1) /\
    (p1 (lo box) = 0 * (8 `quot` 2) <-> 0 = 0) /\
    (p1 (hi box) = (0 + 1) * (8 `quot` 2) - 1 <-> 0 = 2 - 1) /\
    (forall x y, in_rect box x y <->
       (1 * (8 `quot` 2) - 1 <= x <= (1 + 1) * (8 `quot` 2) - 1 + 1
        /\ 0 <= x <= 8 - 1) /\
       (0 * (8 `quot` 2) - 1 <= y <= (0 + 1) * (8 `quot` 2) - 1 + 1
        /\ 0 <= y <= 8 - 1)).
Proof.
  apply (halo_tile_box 8 1 2 2 1 0);
    try lia; try (vm_compute; discriminate); exists 4; reflexivity.
Defined.

(** ** The boundary sectors *)

Section SectorFacts.

Variables (n R : Z).

(** The shrink loop, axis by axis. *)
Lemma shrink_eq (b : Rect2) :
  shrink n R b =
  Rect
    (make_point
       (if decide (p0 (lo b) <> 0) then p0 (lo b) + R else p0 (lo b))
       (if decide (p1 (lo b) <> 0) then p1 (lo b) + R else p1 (lo b)))
    (make_point
       (if decide (p0 (hi b) <> n - 1) then p0 (hi b) - R else p0 (hi b))
       (if decide (p1 (hi b) <> n - 1) then p1 (hi b) - R else p1 (hi b))).
Proof.
  destruct b as [[lx ly] [hx hy]]. unfold shrink, shrink_axis. cbn.
  repeat case_decide; cbn; repeat case_decide; try reflexivity; try contradiction.
Qed.

Lemma createBoundaryPartition_lookup box hb b :
  fst (createBoundaryPartition n R box hb) !! bid b = sector_table n R box b.
Proof.
  unfold createBoundaryPartition, sector_table. cbv zeta.
  generalize (shrink n R box). intros ib.
  destruct (0 <? p0 (lo ib)), (0 <? p1 (lo ib)),
    (p0 (hi ib) <? n - 1), (p1 (hi ib) <? n - 1);
    destruct b; reflexivity.
Qed.

Lemma createBoundaryPartition_flags box b :
  snd (createBoundaryPartition n R box (replicate 9 false)) !! bid b
  = Some (sector_flag n R box b).
Proof.
  unfold createBoundaryPartition, sector_flag. cbv zeta.
  generalize (shrink n R box). intros ib.
  destruct (0 <? p0 (lo ib)), (0 <? p1 (lo ib)),
    (p0 (hi ib) <? n - 1), (p1 (hi ib) <? n - 1);
    destruct b; reflexivity.
Qed.

(** Case analysis on the comparisons of a hypothesis or of the goal. *)
Ltac split_ltb_in H :=
  repeat match type of H with
         | context [?a <? ?b] => destruct (Z.ltb_spec a b)
         end.

Ltac split_ltb :=
  repeat match goal with
         | |- context [?a <? ?b] => destruct (Z.ltb_spec a b)
         end.

(** The cell [(x, y)] lies in the sector [b], whose rectangle is set. *)
Ltac in_sector b :=
  exists b; rewrite createBoundaryPartition_lookup;
  unfold sector_table; rewrite shrink_eq; cbn;
  repeat case_decide; split_ltb; cbn; try lia;
  (eexists; split; [reflexivity|]; unfold in_rect; cbn; lia).

Lemma sectors_tile box hb :
  0 <= R -> well_shaped n R box ->
  tiles_exactly box (createBoundaryPartition n R box hb).
Proof.
  intros HR (Hx0 & Hx1 & Hy0 & Hy1 & Hix & Hiy).
  rewrite shrink_eq in Hix, Hiy. cbn in Hix, Hiy.
  unfold tiles_exactly, sector_cells. split.
  - intros x y. split.
    + (* a cell of the box: the sector follows from its column and row *)
      intros [Hx Hy].
      set (ib := shrink n R box).
      assert (Hcase :
        (x < p0 (lo ib) \/ p0 (lo ib) <= x <= p0 (hi ib) \/ p0 (hi ib) < x) /\
        (y < p1 (lo ib) \/ p1 (lo ib) <= y <= p1 (hi ib) \/ p1 (hi ib) < y))
        by lia.
      subst ib. rewrite shrink_eq in Hcase. cbn in Hcase.
      destruct Hcase as [[Hxl|[Hxm|Hxr]] [Hyl|[Hym|Hyr]]].
      * in_sector LEFT_UP.
      * in_sector LEFT.
      * in_sector DOWN_LEFT.
      * in_sector UP.
      * in_sector INTERIOR.
      * in_sector DOWN.
      * in_sector UP_RIGHT.
      * in_sector RIGHT.
      * in_sector RIGHT_DOWN.
    + (* a cell of a sector lies in the box *)
      intros [b [r [Hr Hin]]]. rewrite createBoundaryPartition_lookup in Hr.
      unfold sector_table in Hr. rewrite shrink_eq in Hr. cbn in Hr.
      unfold in_rect in *.
      destruct b; split_ltb_in Hr; cbn in Hr; try discriminate;
        injection Hr as <-; cbn in Hin; repeat case_decide; lia.
  - (* no cell lies in two sectors *)
    intros b b' x y [r [Hr Hin]] [r' [Hr' Hin']].
    rewrite createBoundaryPartition_lookup in Hr, Hr'.
    unfold sector_table in Hr, Hr'. rewrite shrink_eq in Hr, Hr'.
    cbn in Hr, Hr'. unfold in_rect in *.
    destruct b, b'; try reflexivity; exfalso;
      split_ltb_in Hr; cbn in Hr; try discriminate;
      split_ltb_in Hr'; cbn in Hr'; try discriminate;
      injection Hr as <-; injection Hr' as <-; cbn in Hin, Hin';
      repeat case_decide; lia.
Qed.

End SectorFacts.

Lemma sector_existence n R box :
  1 <= R ->
  0 <= p0 (lo box) -> p0 (hi box) <= n - 1 ->
  0 <= p1 (lo box) -> p1 (hi box) <= n - 1 ->
  existence_conditions box (shrink n R box)
    (createBoundaryPartition n R box (replicate 9 false)).
Proof.
  intros HR Hx0 Hx1 Hy0 Hy1.
  assert (Hflag : forall b,
    sector_exists (createBoundaryPartition n R box (replicate 9 false)) b
    <-> sector_flag n R box b = true).
  { intros b. unfold sector_exists. rewrite createBoundaryPartition_flags.
    split; [intros [= ->]; reflexivity | intros ->; reflexivity]. }
  assert (Hsome : forall b, b <> INTERIOR ->
    (sector_flag n R box b = true
     <-> is_Some (fst (createBoundaryPartition n R box (replicate 9 false))
                  !! bid b))).
  { intros b Hb. rewrite createBoundaryPartition_lookup.
    unfold sector_table, sector_flag.
    destruct b; try contradiction;
      match goal with
      | |- ?c = true <-> _ =>
          destruct c; split; intros Hx; try reflexivity;
          try (eexists; reflexivity); try discriminate;
          destruct Hx as [r Hr]; discriminate
      end. }
  unfold existence_conditions.
  repeat (split; [rewrite !Hflag; unfold sector_flag; rewrite shrink_eq; cbn;
                  rewrite ?andb_true_iff, !Z.ltb_lt;
                  try tauto; repeat case_decide; lia|]).
  intros b Hb. rewrite Hflag. apply Hsome. exact Hb.
Qed.

(** The private box of a tile that is at least [2 R] wide on both axes is
    the tile itself, and its interior box is not inverted. *)
Lemma tile_private_box_wide n R Px Py wx wy tx ty :
  1 <= R -> 0 < n -> n + R <= INT_MAX ->
  n = Px * wx -> n = Py * wy -> 2 * R <= wx -> 2 * R <= wy ->
  0 <= tx < Px -> 0 <= ty < Py ->
  tile_private_box n R Px Py tx ty
  = Rect (make_point (tx * wx) (ty * wy))
         (make_point ((tx + 1) * wx - 1) ((ty + 1) * wy - 1)) /\
  well_shaped n R (tile_private_box n R Px Py tx ty).
Proof.
  intros HR Hn Hmax Hnx Hny Hwx Hwy Hx Hy.
  assert (Hbox : tile_private_box n R Px Py tx ty
    = Rect (make_point (tx * wx) (ty * wy))
           (make_point ((tx + 1) * wx - 1) ((ty + 1) * wy - 1))).
  { unfold tile_private_box, privateBox.
    rewrite (quot_exact n Px wx), (quot_exact n Py wy) by lia.
    rewrite (tileDomain_exact n R Px Py wx wy) by assumption.
    rewrite shrink_eq. cbn.
    assert (tx = 0 \/ wx <= tx * wx) by nia.
    assert (ty = 0 \/ wy <= ty * wy) by nia.
    assert (tx = Px - 1 \/ (tx + 1) * wx + wx <= n) by nia.
    assert (ty = Py - 1 \/ (ty + 1) * wy + wy <= n) by nia.
    assert (tx = 0 -> tx * wx = 0) by nia.
    assert (ty = 0 -> ty * wy = 0) by nia.
    assert (tx = Px - 1 -> (tx + 1) * wx = n) by nia.
    assert (ty = Py - 1 -> (ty + 1) * wy = n) by nia.
    f_equal; f_equal; repeat case_decide; lia. }
  split; [exact Hbox|]. rewrite Hbox.
  unfold well_shaped. rewrite shrink_eq. cbn.
  assert (0 <= tx * wx) by nia. assert (0 <= ty * wy) by nia.
  assert ((tx + 1) * wx <= n) by nia. assert ((ty + 1) * wy <= n) by nia.
  repeat split; try lia; repeat case_decide; lia.
Qed.

(** For tiles that are at least [2 R] wide the sectors tile the private
    box, and they exist under the documented conditions. *)
Lemma sector_tiling_wide_tiles n R Px Py tx ty :
  1 <= R -> 0 < n -> n + R <= INT_MAX -> (Px | n) -> (Py | n) ->
  2 * R <= n `quot` Px -> 2 * R <= n `quot` Py ->
  0 <= tx < Px -> 0 <= ty < Py ->
  let box := tile_private_box n R Px Py tx ty in
  let st := createBoundaryPartition n R box (replicate 9 false) in
  tiles_exactly box st /\ existence_conditions box (shrink n R box) st.
Proof.
  intros HR Hn Hmax [wx Hwx] [wy Hwy] Hbx Hby Hx Hy box st.
  rewrite (quot_exact n Px wx) in Hbx by lia.
  rewrite (quot_exact n Py wy) in Hby by lia.
  destruct (tile_private_box_wide n R Px Py wx wy tx ty)
    as [Hbox Hshape]; try lia.
  split.
  - apply sectors_tile; [lia|exact Hshape].
  - destruct Hshape as (? & ? & ? & ? & _).
    apply sector_existence; assumption.
Qed.

(** C1, at the grid of order 9 cut into 1 x 3 tiles with radius 2, which
    the checks of the command line accept: the middle tile is 3 rows high,
    its interior box is inverted, and the sectors [UP] and [DOWN] both
    contain row 4, so the sectors do not tile the private box.  The
    balanced split of that interior box then fails its first assertion. *)
Theorem sector_overlap_narrow_tile :
  let n := 9 in
  let R := 2 in
  let Px := 1 in
  let Py := 3 in
  let box := tile_private_box n R Px Py 0 1 in
  let st := createBoundaryPartition n R box (replicate 9 false) in
  ((Px | n) /\ (Py | n) /\ 2 * R + 1 <= n) /\
  snd (read_parameters (D:=PrimFloat.float) 1 R
         ["stencil"; "1"; "1"; "9"; "3"]%string)
  = inr {| cfg_n := n; cfg_threads := 1; cfg_iterations := 1;
           cfg_num_ranks := 3; cfg_Num_procsx := Px; cfg_Num_procsy := Py |} /\
  haloColoring n R Px Py !! (0, 1)
  = Some (Rect (make_point 0 1) (make_point 8 7)) /\
  box = Rect (make_point 0 3) (make_point 8 5) /\
  fst st !! bid UP = Some (Rect (make_point 0 3) (make_point 8 4)) /\
  fst st !! bid DOWN = Some (Rect (make_point 0 4) (make_point 8 5)) /\
  fst st !! bid INTERIOR = Some (Rect (make_point 0 5) (make_point 8 3)) /\
  sector_cells st UP 0 4 /\
  sector_cells st DOWN 0 4 /\
  ~ tiles_exactly box st /\
  createBalancedPartition (Rect (make_point 0 5) (make_point 8 3)) 1
  = Abort AssertionFailed.
Proof.
  cbv zeta.
  assert (Hup : sector_cells
            (createBoundaryPartition 9 2 (tile_private_box 9 2 1 3 0 1)
               (replicate 9 false)) UP 0 4).
  { eexists. split; [vm_compute; reflexivity|]. unfold in_rect. cbn. lia. }
  assert (Hdown : sector_cells
            (createBoundaryPartition 9 2 (tile_private_box 9 2 1 3 0 1)
               (replicate 9 false)) DOWN 0 4).
  { eexists. split; [vm_compute; reflexivity|]. unfold in_rect. cbn. lia. }
  split.
  { split; [exists 9; reflexivity|]. split; [exists 3; reflexivity|lia]. }
  do 6 (split; [vm_compute; reflexivity|]).
  split; [exact Hup|]. split; [exact Hdown|].
  split; [|vm_compute; reflexivity].
  intros [_ Hdisjoint].
  specialize (Hdisjoint UP DOWN 0 4 Hup Hdown). discriminate.
Qed.

(** ** Ghost inputs of the boundary launch *)

Lemma boundaryLauncher_total (dir : nat) :
  (dir < 8)%nat -> exists reqs, boundaryLauncher dir = Ok reqs.
Proof.
  intros Hdir.
  do 8 (destruct dir as [|dir]; [eexists; vm_compute; reflexivity|]).
  lia.
Qed.

(** Every launch of the loop is the launch of a perimeter sector whose flag
    is set, with the requirements [boundaryLauncher] gives it. *)
Lemma boundary_launches_gen (hasBoundary : list bool) (dirs : list nat)
    (launched : list (nat * list RegionRequirement)) :
  length hasBoundary = 9%nat -> Forall (fun d => (d < 8)%nat) dirs ->
  exists ls,
    foldM (launch_boundary hasBoundary) launched dirs = Ok ls /\
    forall dir reqs, (dir, reqs) ∈ ls ->
      (dir, reqs) ∈ launched \/
      (dir ∈ dirs /\ hasBoundary !! dir = Some true /\
       boundaryLauncher dir = Ok reqs).
Proof.
  intros Hlen Hdirs. revert launched.
  induction Hdirs as [|d dirs Hd _ IH]; intros launched; cbn [foldM].
  - eexists. split; [reflexivity|]. intros dir reqs Hin. left. exact Hin.
  - destruct (hasBoundary !! d) as [has|] eqn:Hhas.
    2:{ apply lookup_ge_None in Hhas. lia. }
    destruct (boundaryLauncher_total d Hd) as [reqs Hreqs].
    assert (Hstep : launch_boundary hasBoundary launched d
              = Ok (if has then launched ++ [(d, reqs)] else launched)).
    { unfold launch_boundary, at_index. rewrite Hhas. cbn [mbind result_bind].
      destruct has; [rewrite Hreqs|]; reflexivity. }
    rewrite Hstep. cbn [mbind result_bind]. destruct has.
    + destruct (IH (launched ++ [(d, reqs)])) as [ls [Hrun Hls]].
      exists ls. split; [exact Hrun|].
      intros dir reqs' Hin. destruct (Hls dir reqs' Hin) as [Hold|(? & ? & ?)].
      * apply elem_of_app in Hold as [Hold|Hnew]; [left; exact Hold|].
        apply list_elem_of_singleton in Hnew. injection Hnew as -> ->.
        right. split; [left|]. split; assumption.
      * right. split; [right; assumption|]. split; assumption.
    + destruct (IH launched) as [ls [Hrun Hls]].
      exists ls. split; [exact Hrun|].
      intros dir reqs' Hin. destruct (Hls dir reqs' Hin) as [Hold|(? & ? & ?)].
      * left. exact Hold.
      * right. split; [right; assumption|]. split; assumption.
Qed.

(** C6.  The launch for a perimeter sector [b] has as ghost inputs exactly
    the ghost regions of the directions adjacent to [b]: the one region of
    direction [dir / 2] for an edge sector, the two regions of directions
    [dir / 2] and [(dir / 2 + 1) mod 4] for a corner sector; so one or two,
    each read-only on [FID_IN], next to the read-only private region.  The
    launches of an iteration are these launches, one for each sector whose
    [hasBoundary] flag is set. *)
Theorem boundary_sector_ghost_inputs (b : Boundary) (hasBoundary : list bool) :
  b <> INTERIOR -> length hasBoundary = 9%nat ->
  (exists reqs,
     boundaryLauncher (bid b) = Ok reqs /\
     ghost_inputs reqs = (fun d => ghostLr (gid d)) <$> adjacent_ghosts b /\
     (is_edge b = true ->
        ghost_inputs reqs = [ghostLr (bid b / 2)]) /\
     (is_corner b = true ->
        ghost_inputs reqs
        = [ghostLr (bid b / 2); ghostLr ((bid b / 2 + 1) mod 4)] /\
        (bid b / 2 <> (bid b / 2 + 1) mod 4)%nat) /\
     (1 <= length (ghost_inputs reqs) <= 2)%nat /\
     (forall r, r ∈ reqs -> is_ghost (req_region r) = true ->
        req_privilege r = READ_ONLY /\ req_fields r = [FID_IN]) /\
     {| req_region := privateLr; req_privilege := READ_ONLY;
        req_parent := localLr; req_fields := [FID_IN] |} ∈ reqs) /\
  (is_edge b = true \/ is_corner b = true) /\
  (exists launches,
     boundary_launches hasBoundary = Ok launches /\
     forall dir reqs, (dir, reqs) ∈ launches ->
       hasBoundary !! dir = Some true /\ boundaryLauncher dir = Ok reqs /\
       exists b', b' <> INTERIOR /\ dir = bid b').
Proof.
  intros Hb Hlen. split; [|split].
  - destruct b; try contradiction;
      (eexists; split; [vm_compute; reflexivity|]);
      (split; [reflexivity|]);
      (split; [cbn; first [discriminate | intros _; reflexivity]|]);
      (split; [cbn; first [discriminate
                          | intros _; split; [reflexivity|cbn; lia]]|]);
      (split; [vm_compute; lia|]);
      (split; [|repeat (first [left; reflexivity | right])]);
      intros r Hr Hg;
      repeat (apply elem_of_cons in Hr as [->|Hr];
              [cbn in Hg; try discriminate; split; reflexivity|]);
      inversion Hr.
  - destruct b; try contradiction; cbn; tauto.
  - unfold boundary_launches.
    destruct (boundary_launches_gen hasBoundary (seq (bid LEFT) 8) [] Hlen)
      as [ls [Hrun Hls]].
    { apply Forall_forall. intros d Hd. apply elem_of_seq in Hd. cbn in Hd. lia. }
    exists ls. split; [exact Hrun|].
    intros dir reqs Hin. destruct (Hls dir reqs Hin) as [Hnil|(Hd & Hflag & Hreqs)].
    + inversion Hnil.
    + split; [exact Hflag|]. split; [exact Hreqs|].
      apply elem_of_seq in Hd. cbn in Hd.
      assert (Hcases : dir = bid LEFT \/ dir = bid LEFT_UP \/ dir = bid UP \/
                dir = bid UP_RIGHT \/ dir = bid RIGHT \/ dir = bid RIGHT_DOWN \/
                dir = bid DOWN \/ dir = bid DOWN_LEFT) by (cbn; lia).
      destruct Hcases as [->|[->|[->|[->|[->|[->|[->| ->]]]]]]];
        eexists; (split; [|reflexivity]); discriminate.
Qed.

Lemma boundary_sector_ghost_inputs_witness :
  (exists reqs,
     boundaryLauncher (bid DOWN_LEFT) = Ok reqs /\
     ghost_inputs reqs
     = (fun d => ghostLr (gid d)) <$> adjacent_ghosts DOWN_LEFT /\
     (is_edge DOWN_LEFT = true ->
        ghost_inputs reqs = [ghostLr (bid DOWN_LEFT / 2)]) /\
     (is_corner DOWN_LEFT = true ->
        ghost_inputs reqs
        = [ghostLr (bid DOWN_LEFT / 2);
           ghostLr ((bid DOWN_LEFT / 2 + 1) mod 4)] /\
        (bid DOWN_LEFT / 2 <> (bid DOWN_LEFT / 2 + 1) mod 4)%nat) /\
     (1 <= length (ghost_inputs reqs) <= 2)%nat /\
     (forall r, r ∈ reqs -> is_ghost (req_region r) = true ->
        req_privilege r = READ_ONLY /\ req_fields r = [FID_IN]) /\
     {| req_region := privateLr; req_privilege := READ_ONLY;
        req_parent := localLr; req_fields := [FID_IN] |} ∈ reqs) /\
  (is_edge DOWN_LEFT = true \/ is_corner DOWN_LEFT = true) /\
  (exists launches,
     boundary_launches
       [true; false; false; false; false; false; true; true; false]
     = Ok launches /\
     forall dir reqs, (dir, reqs) ∈ launches ->
       [true; false; false; false; false; false; true; true; false] !! dir
       = Some true /\
       boundaryLauncher dir = Ok reqs /\
       exists b', b' <> INTERIOR /\ dir = bid b').
Proof.
  apply (boundary_sector_ghost_inputs DOWN_LEFT
           [true; false; false; false; false; false; true; true; false]).
  - discriminate.
  - reflexivity.
Defined.

(** ** The validation check *)

Section ValidationFacts.

Context {D : Type} `{DTypeOps D}.

Variables (n R iters : Z) (out : Z -> Z -> D).

Lemma check_cell_spec x y acc :
  check_cell n R iters out x y acc
  = if decide (checked n R (x, y))
    then d_add acc (deviation iters out (x, y)) else acc.
Proof.
  unfold check_cell, checked, deviation. cbn [fst snd].
  destruct (Z.ltb_spec x R), (Z.ltb_spec y R),
    (Z.leb_spec (n - R) x), (Z.leb_spec (n - R) y);
    cbn [orb]; case_decide; try reflexivity; lia.
Qed.

(** The two nested loops over any lists of columns and rows. *)
Lemma check_loops_spec (xs ys : list Z) acc :
  foldl (fun acc y => foldl (fun acc x => check_cell n R iters out x y acc)
                        acc xs) acc ys
  = foldl d_add acc
      (deviation iters out <$>
         filter (checked n R) (y ← ys; (fun x => (x, y)) <$> xs)).
Proof.
  revert acc. induction ys as [|y ys IH]; intros acc; [reflexivity|].
  cbn [foldl]. rewrite IH. rewrite bind_cons, filter_app, fmap_app, foldl_app.
  f_equal. clear IH. revert acc.
  induction xs as [|x xs IH]; intros acc; [reflexivity|].
  cbn [foldl fmap list_fmap]. rewrite filter_cons, check_cell_spec.
  case_decide; cbn [fmap list_fmap foldl]; apply IH.
Qed.

Lemma foldl_pointwise {A B : Type} (f g : A -> B -> A) (l : list B) (a : A) :
  (forall a b, f a b = g a b) -> foldl f a l = foldl g a l.
Proof.
  intros Hfg. revert a. induction l as [|b l IH]; intros a; [reflexivity|].
  cbn [foldl]. rewrite Hfg. apply IH.
Qed.

Lemma seqZ_shift (m k : Z) : seqZ m k = Z.add m <$> seqZ 0 k.
Proof. rewrite fmap_add_seqZ, Z.add_0_r. reflexivity. Qed.

Lemma check_task_spec rect :
  check_task n R iters out rect
  = foldl d_add d_zero
      (deviation iters out <$> filter (checked n R) (cells rect)).
Proof.
  unfold check_task, check_row, cells. cbv zeta.
  rewrite <- check_loops_spec.
  rewrite (seqZ_shift (p1 (lo rect))), (seqZ_shift (p0 (lo rect))).
  rewrite foldl_fmap.
  apply foldl_pointwise. intros acc j. rewrite foldl_fmap. reflexivity.
Qed.

Lemma elem_of_cells rect x y :
  (x, y) ∈ cells rect <-> in_rect rect x y.
Proof.
  unfold cells, in_rect. rewrite list_elem_of_bind. split.
  - intros [y' [Hx Hy]]. apply list_elem_of_fmap in Hx as [x' [Heq Hx]].
    injection Heq as -> ->. rewrite elem_of_seqZ in Hx, Hy. lia.
  - intros [Hx Hy]. exists y. split.
    + apply list_elem_of_fmap. exists x. split; [reflexivity|].
      rewrite elem_of_seqZ. lia.
    + rewrite elem_of_seqZ. lia.
Qed.

Lemma NoDup_cells rect : NoDup (cells rect).
Proof.
  unfold cells. apply NoDup_bind.
  - intros y1 y2 c _ _ H1 H2.
    apply list_elem_of_fmap in H1 as [x1 [-> _]].
    apply list_elem_of_fmap in H2 as [x2 [Heq _]]. congruence.
  - intros y _. apply NoDup_fmap_2; [|apply NoDup_seqZ].
    intros x1 x2 Heq. congruence.
  - apply NoDup_seqZ.
Qed.

Lemma total_abserr_spec Px Py (shard_abserr : Z -> Z -> D) :
  total_abserr Px Py shard_abserr
  = foldl d_add d_zero
      ((fun t => shard_abserr (fst t) (snd t)) <$>
         cells (Rect (make_point 0 0) (make_point (Px - 1) (Py - 1)))).
Proof.
  unfold total_abserr, cells. cbn [lo hi p0 p1].
  replace (Py - 1 - 0 + 1) with Py by lia.
  replace (Px - 1 - 0 + 1) with Px by lia.
  generalize (seqZ 0 Px) (seqZ 0 Py) d_zero. intros xs ys.
  induction ys as [|y ys IH]; intros acc; [reflexivity|].
  cbn [foldl]. rewrite IH, bind_cons, fmap_app, foldl_app. f_equal.
  rewrite <- list_fmap_compose, foldl_fmap. reflexivity.
Qed.

End ValidationFacts.

(** C5.  The check of a block adds up, in the order of the loops and
    starting from zero, the deviation [ABS(OUT - iterations * (COEFX +
    COEFY))] of exactly the cells of the block with [RADIUS <= x < n -
    RADIUS] and [RADIUS <= y < n - RADIUS], each once; a shard adds up the
    checks of its blocks and the top-level task the results of the shards;
    once the parameters are accepted the process ends with success if this
    total is strictly below [EPSILON] and with [EXIT_FAILURE] otherwise. *)
Theorem validation_check {D : Type} `{DTypeOps D}
    (n R iters : Z) (out : Z -> Z -> D) (rect : Rect2) :
  check_task n R iters out rect
  = foldl d_add d_zero
      (deviation iters out <$> filter (checked n R) (cells rect)) /\
  (forall x y, (x, y) ∈ filter (checked n R) (cells rect) <->
     in_rect rect x y /\ (R <= x < n - R /\ R <= y < n - R)) /\
  NoDup (filter (checked n R) (cells rect)) /\
  (forall blocks,
     spmd_abserr n R iters out blocks
     = foldl d_add d_zero (check_task n R iters out <$> blocks)) /\
  (forall Px Py (shard_abserr : Z -> Z -> D),
     total_abserr Px Py shard_abserr
     = foldl d_add d_zero
         ((fun t => shard_abserr (fst t) (snd t)) <$>
            cells (Rect (make_point 0 0) (make_point (Px - 1) (Py - 1))))) /\
  (forall gasnet_nodes (epoch : config -> D) argv,
     snd (top_level_task gasnet_nodes R epoch argv)
     = match snd (read_parameters (D:=D) gasnet_nodes R argv) with
       | inl t => t
       | inr cfg =>
           if validates (epoch cfg) then Exited EXIT_SUCCESS
           else Exited EXIT_FAILURE
       end).
Proof.
  split; [apply check_task_spec|].
  split.
  { intros x y. rewrite list_elem_of_filter, elem_of_cells.
    unfold checked. cbn [fst snd]. tauto. }
  split; [apply NoDup_filter, NoDup_cells|].
  split.
  { intros blocks. unfold spmd_abserr. rewrite foldl_fmap. reflexivity. }
  split; [apply total_abserr_spec|].
  intros gasnet_nodes epoch argv. unfold top_level_task, validates.
  destruct (read_parameters (D:=D) gasnet_nodes R argv) as [msgs [t|cfg]];
    [reflexivity|].
  cbn [snd]. destruct (d_lt (epoch cfg) EPSILON); reflexivity.
Qed.

(** ** The command line *)

Lemma is_digit_spec (c : ascii) :
  is_digit c
  = bool_decide
      (c ∈ ["0"; "1"; "2"; "3"; "4"; "5"; "6"; "7"; "8"; "9"]%char).
Proof.
  destruct c as [[] [] [] [] [] [] [] []]; vm_compute; reflexivity.
Qed.

Lemma atoi_digits_nonneg (s : string) (acc : Z) :
  0 <= acc -> 0 <= atoi_digits s acc.
Proof.
  revert acc. induction s as [|c s IH]; intros acc Hacc; cbn [atoi_digits].
  - exact Hacc.
  - destruct (is_digit c) eqn:Hc; [|exact Hacc].
    apply IH. unfold is_digit in Hc.
    apply andb_true_iff in Hc as [Hlo _]. apply Nat.leb_le in Hlo. lia.
Qed.

(** An argument that starts with a digit is read without skipping or sign:
    [strtol] gives the number written, or [LONG_MAX] when it is larger. *)
Lemma strtol_digit_first (s : string) :
  is_digit (first_char s) = true ->
  strtol s = Z.min LONG_MAX (atoi_digits s 0).
Proof.
  destruct s as [|c s]; [discriminate|]. cbn [first_char]. intros Hc.
  pose proof (atoi_digits_nonneg (String c s) 0 ltac:(lia)) as Hpos.
  unfold strtol. cbv zeta.
  assert (Heq : match skip_spaces (String c s) with
                | String "-" s' => - atoi_digits s' 0
                | String "+" s' => atoi_digits s' 0
                | s' => atoi_digits s' 0
                end = atoi_digits (String c s) 0).
  { destruct c as [[] [] [] [] [] [] [] []]; try discriminate Hc; reflexivity. }
  rewrite Heq. unfold LONG_MIN, LONG_MAX. lia.
Qed.

(** When that number fits an [int], [atoi] returns it. *)
Lemma atoi_digit_first (s : string) :
  is_digit (first_char s) = true -> atoi_digits s 0 <= INT_MAX ->
  atoi s = atoi_digits s 0 /\ 0 <= atoi s.
Proof.
  intros Hc Hfit.
  pose proof (atoi_digits_nonneg s 0 ltac:(lia)) as Hpos.
  unfold atoi. rewrite (strtol_digit_first s Hc).
  unfold INT_MAX in Hfit. unfold LONG_MAX.
  rewrite Z.min_r by lia.
  rewrite to_int_id by (unfold INT_MIN, INT_MAX; lia). lia.
Qed.

Lemma atoi_range (s : string) : INT_MIN <= atoi s <= INT_MAX.
Proof. apply to_int_range. Qed.

Lemma procs_loop_factor (num_ranks : Z) (todo : nat) (Num_procsx : Z) :
  1 <= Num_procsx -> (Z.to_nat Num_procsx <= todo)%nat ->
  1 <= fst (procs_loop todo num_ranks Num_procsx) <= Num_procsx /\
  num_ranks = fst (procs_loop todo num_ranks Num_procsx)
              * snd (procs_loop todo num_ranks Num_procsx).
Proof.
  revert Num_procsx. induction todo as [|todo IH]; intros Px HPx Htodo; [lia|].
  cbn [procs_loop].
  replace (0 <? Px) with true by (symmetry; apply Z.ltb_lt; lia).
  destruct (Z.eqb_spec (num_ranks `rem` Px) 0) as [Hrem|Hrem]; cbn [fst snd].
  - split; [lia|]. pose proof (Z.quot_rem' num_ranks Px). lia.
  - assert (Px <> 1) by (intros ->; apply Hrem, Z.rem_1_r).
    destruct (IH (Px - 1)) as [Hrange Hfactor]; [lia|lia|].
    split; [lia|exact Hfactor].
Qed.

(** The grid of an [int] number of ranks: a factorisation with a positive
    first factor; for [-1] the loop starts at [sqrt(0)] and leaves [0 x 0];
    for a negative [num_ranks + 1] (also the wrapped [INT_MAX + 1]) it starts
    at [INT_MIN] and leaves that. *)
Lemma processor_grid_cases (num_ranks : Z) :
  INT_MIN <= num_ranks <= INT_MAX ->
  (0 <= num_ranks /\ 1 <= fst (processor_grid num_ranks) /\
   num_ranks
   = fst (processor_grid num_ranks) * snd (processor_grid num_ranks)) \/
  (num_ranks = -1 /\ processor_grid num_ranks = (0, 0)) \/
  processor_grid num_ranks = (INT_MIN, 0).
Proof.
  unfold INT_MIN, INT_MAX. intros Hr. unfold processor_grid. cbv zeta.
  destruct (Z.eq_dec num_ranks 2147483647) as [->|Hmax];
    [right; right; reflexivity|].
  unfold int_add.
  rewrite to_int_id by (unfold INT_MIN, INT_MAX; lia).
  unfold int_sqrt.
  destruct (Z.ltb_spec (num_ranks + 1) 0) as [Hneg|Hpos].
  { right; right. reflexivity. }
  destruct (Z.eq_dec num_ranks (-1)) as [->|Hm1];
    [right; left; split; reflexivity|].
  left. split; [lia|].
  assert (0 < Z.sqrt (num_ranks + 1)) by (apply Z.sqrt_pos; lia).
  destruct (procs_loop_factor num_ranks (S (Z.to_nat (Z.sqrt (num_ranks + 1))))
              (Z.sqrt (num_ranks + 1))) as [Hrange Hfactor]; [lia|lia|].
  split; [lia|exact Hfactor].
Qed.

Lemma processor_grid_factor (num_ranks : Z) :
  0 <= num_ranks < INT_MAX ->
  1 <= fst (processor_grid num_ranks) /\
  num_ranks = fst (processor_grid num_ranks) * snd (processor_grid num_ranks).
Proof.
  intros Hnr.
  destruct (processor_grid_cases num_ranks) as [(_ & ? & ?)|[[? _]|Hmin]];
    [unfold INT_MIN, INT_MAX in *; lia|tauto|lia|].
  exfalso. revert Hmin. unfold processor_grid. cbv zeta. unfold int_add.
  rewrite to_int_id by (unfold INT_MIN, INT_MAX in *; lia).
  unfold int_sqrt.
  replace (num_ranks + 1 <? 0) with false by (symmetry; apply Z.ltb_ge; lia).
  assert (0 < Z.sqrt (num_ranks + 1)) by (apply Z.sqrt_pos; lia).
  destruct (procs_loop_factor num_ranks (S (Z.to_nat (Z.sqrt (num_ranks + 1))))
              (Z.sqrt (num_ranks + 1))) as [Hrange _]; [lia|lia|].
  intros Heq. rewrite Heq in Hrange. cbn [fst] in Hrange.
  unfold INT_MIN in Hrange. lia.
Qed.

Section CliFacts.

Context {D : Type} `{DTypeOps D}.

Variables (gasnet_nodes : positive) (R : Z).

Lemma ranks_range (argv : list string) :
  INT_MIN <= ranks gasnet_nodes argv <= INT_MAX.
Proof. apply to_int_range. Qed.

(** [2 * RADIUS + 1] as the [int] expression of the last check. *)
Lemma radius_span_exact : 1 <= R -> 2 * R + 1 <= INT_MAX ->
  int_add (int_mul 2 R) 1 = 2 * R + 1.
Proof.
  unfold INT_MAX. intros HR Hmax. unfold int_add, int_mul.
  rewrite (to_int_id (2 * R)) by (unfold INT_MIN, INT_MAX; lia).
  apply to_int_id. unfold INT_MIN, INT_MAX. lia.
Qed.

(** A run that is not refused reaches the launch with the configuration
    read from the arguments. *)
Lemma read_parameters_accepts (argv : list string) :
  ~ rejected gasnet_nodes R argv ->
  read_parameters (D:=D) gasnet_nodes R argv
  = ([Banner (to_int (Z.pos gasnet_nodes)) (atoi (arg argv 3))
        (atoi (arg argv 1)) (num_numa_nodes argv) R (atoi (arg argv 2));
      Tiles (fst (tile_grid gasnet_nodes argv))
            (snd (tile_grid gasnet_nodes argv))],
     inr (config_of gasnet_nodes argv)).
Proof.
  intros Hok. unfold rejected in Hok.
  pose proof (atoi_range (arg argv 3)) as Hn. unfold INT_MAX in Hn.
  unfold read_parameters, config_of.
  unfold tile_grid, ranks in *.
  destruct (processor_grid
              (int_mul (to_int (Z.pos gasnet_nodes)) (num_numa_nodes argv)))
    as [Px Py]. cbn [fst snd] in *.
  destruct (Z.ltb_spec (argc argv) 4); [tauto|].
  destruct (Z.leb_spec (atoi (arg argv 1)) 0); [tauto|].
  destruct (Z.ltb_spec (atoi (arg argv 2)) 1); [tauto|].
  destruct (Z.leb_spec (atoi (arg argv 3)) 0); [tauto|].
  assert (HPx : Px <> 0).
  { intros ->. apply Hok. do 4 right. left. intros Hdiv.
    apply Z.divide_0_l in Hdiv. lia. }
  assert (HPy : Py <> 0).
  { intros ->. apply Hok. do 5 right. left. intros Hdiv.
    apply Z.divide_0_l in Hdiv. lia. }
  destruct (Z.eqb_spec Px 0); [contradiction|].
  destruct (Z.eqb_spec (atoi (arg argv 3) `rem` Px) 0) as [|Hrem]; cbn [negb].
  2:{ exfalso. apply Hok. do 4 right. left. intros Hdiv.
      apply Hrem, Z.rem_divide; assumption. }
  destruct (Z.eqb_spec Py 0); [contradiction|].
  destruct (Z.eqb_spec (atoi (arg argv 3) `rem` Py) 0) as [|Hrem]; cbn [negb].
  2:{ exfalso. apply Hok. do 5 right. left. intros Hdiv.
      apply Hrem, Z.rem_divide; assumption. }
  destruct (Z.ltb_spec R 1); [tauto|].
  assert (Hspan : 2 * R + 1 <= atoi (arg argv 3)).
  { destruct (Z.le_gt_cases (2 * R + 1) (atoi (arg argv 3))); [assumption|].
    exfalso. apply Hok. do 7 right. lia. }
  rewrite radius_span_exact by (unfold INT_MAX; lia).
  destruct (Z.ltb_spec (atoi (arg argv 3)) (2 * R + 1)); [lia|].
  reflexivity.
Qed.

(** A refused run ends before the launch: with [exit(EXIT_FAILURE)], or,
    when the product of ranks and NUMA nodes is [0] or [-1] as an [int], in
    the division by the zero factor of the grid. *)
Lemma read_parameters_rejects (argv : list string) :
  2 * R + 1 <= INT_MAX ->
  rejected gasnet_nodes R argv ->
  exists t,
    snd (read_parameters (D:=D) gasnet_nodes R argv) = inl t /\
    (t = Exited EXIT_FAILURE \/
     t = Killed DivisionByZero /\
     (ranks gasnet_nodes argv = 0 \/ ranks gasnet_nodes argv = -1)).
Proof.
  intros Hmax Hbad. unfold rejected in Hbad.
  pose proof (atoi_range (arg argv 3)) as Hn. unfold INT_MIN, INT_MAX in Hn.
  pose proof (processor_grid_cases _ (ranks_range argv)) as Hgrid.
  unfold read_parameters. unfold tile_grid in *.
  fold (ranks gasnet_nodes argv).
  destruct (processor_grid (ranks gasnet_nodes argv)) as [Px Py].
  cbn [fst snd] in *.
  destruct (Z.ltb_spec (argc argv) 4); [eexists; split; [reflexivity|tauto]|].
  destruct (Z.leb_spec (atoi (arg argv 1)) 0);
    [eexists; split; [reflexivity|tauto]|].
  destruct (Z.ltb_spec (atoi (arg argv 2)) 1);
    [eexists; split; [reflexivity|tauto]|].
  destruct (Z.leb_spec (atoi (arg argv 3)) 0);
    [eexists; split; [reflexivity|tauto]|].
  destruct (Z.eqb_spec Px 0) as [->|HPx].
  { eexists; split; [reflexivity|]. right. split; [reflexivity|].
    destruct Hgrid as [(_ & ? & _)|[[? _]|Hmin]];
      [lia|tauto|discriminate Hmin]. }
  destruct (Z.eqb_spec (atoi (arg argv 3) `rem` Px) 0) as [Hx|Hx]; cbn [negb];
    [|eexists; split; [reflexivity|tauto]].
  apply Z.rem_divide in Hx; [|assumption].
  destruct (Z.eqb_spec Py 0) as [->|HPy].
  { eexists; split; [reflexivity|]. right. split; [reflexivity|].
    destruct Hgrid as [(_ & _ & ?)|[[_ Hzero]|Hmin]];
      [lia|congruence|].
    exfalso. injection Hmin as ->. destruct Hx as [k Hk].
    unfold INT_MIN in Hk. lia. }
  destruct (Z.eqb_spec (atoi (arg argv 3) `rem` Py) 0) as [Hy|Hy]; cbn [negb];
    [|eexists; split; [reflexivity|tauto]].
  apply Z.rem_divide in Hy; [|assumption].
  destruct (Z.ltb_spec R 1); [eexists; split; [reflexivity|tauto]|].
  rewrite radius_span_exact by lia.
  destruct (Z.ltb_spec (atoi (arg argv 3)) (2 * R + 1));
    [eexists; split; [reflexivity|tauto]|].
  exfalso.
  destruct Hbad as [?|[?|[?|[?|[?|[?|[?|?]]]]]]]; try lia; contradiction.
Qed.

End CliFacts.

(** C9.  With a radius whose [2 * RADIUS + 1] fits an [int], and [atoi] the
    [int] the C library returns, the process ends with a non-zero status
    whenever fewer than three arguments are given, [threads <= 0],
    [iterations < 1], [dimension <= 0], the dimension is not a multiple of a
    factor of the tile grid, [RADIUS < 1] or [2 * RADIUS + 1 > dimension]:
    by [exit(EXIT_FAILURE)], or, when the number of ranks times the number
    of NUMA nodes is [0] or [-1], in the division by the zero factor.
    It also ends with [EXIT_FAILURE] when the accumulated error is not below
    [EPSILON].  For every other configuration no check ends the run: the
    shards are launched with the configuration read, and a total below
    [EPSILON] ends the process with success. *)
Theorem cli_validation {D : Type} `{DTypeOps D}
    (gasnet_nodes : positive) (R : Z) (epoch : config -> D)
    (argv : list string) :
  2 * R + 1 <= INT_MAX ->
  let t := snd (top_level_task gasnet_nodes R epoch argv) in
  let abserr := epoch (config_of gasnet_nodes argv) in
  (rejected gasnet_nodes R argv ->
     t <> Exited EXIT_SUCCESS /\
     (t = Exited EXIT_FAILURE \/
      t = Killed DivisionByZero /\
      (ranks gasnet_nodes argv = 0 \/ ranks gasnet_nodes argv = -1))) /\
  (~ rejected gasnet_nodes R argv ->
     snd (read_parameters (D:=D) gasnet_nodes R argv)
     = inr (config_of gasnet_nodes argv) /\
     (d_lt abserr EPSILON = false -> t = Exited EXIT_FAILURE) /\
     (d_lt abserr EPSILON = true -> t = Exited EXIT_SUCCESS)).
Proof.
  intros Hmax. cbv zeta. split.
  - intros Hbad.
    destruct (read_parameters_rejects (D:=D) gasnet_nodes R argv Hmax Hbad)
      as [t [Ht Hkind]].
    unfold top_level_task.
    destruct (read_parameters gasnet_nodes R argv) as [msgs [t'|cfg]];
      cbn [snd] in *; [|discriminate].
    injection Ht as ->.
    split; [|exact Hkind].
    destruct Hkind as [->|[-> _]]; discriminate.
  - intros Hok. unfold top_level_task.
    rewrite (read_parameters_accepts gasnet_nodes R argv Hok). cbn [snd].
    split; [reflexivity|]. split; intros ->; reflexivity.
Qed.

Lemma cli_validation_witness :
  let argv := ["stencil"; "4"; "10"; "1000"; "-2"]%string in
  let t := snd (top_level_task (D:=PrimFloat.float) 4 2
                  (fun _ => PrimFloat.zero) argv) in
  2 * 2 + 1 <= INT_MAX /\
  snd (read_parameters (D:=PrimFloat.float) 4 2 argv) = inr (config_of 4 argv)
  /\ (d_lt PrimFloat.zero EPSILON = false -> t = Exited EXIT_FAILURE)
  /\ (d_lt PrimFloat.zero EPSILON = true -> t = Exited EXIT_SUCCESS).
Proof.
  cbv zeta.
  assert (Hmax : 2 * 2 + 1 <= INT_MAX) by (vm_compute; discriminate).
  split; [exact Hmax|].
  apply (cli_validation (D:=PrimFloat.float) 4 2 (fun _ => PrimFloat.zero)
           ["stencil"; "4"; "10"; "1000"; "-2"]%string Hmax).
  unfold rejected. vm_compute.
  intros [Hc|[Hc|[Hc|[Hc|[Hc|[Hc|[Hc|Hc]]]]]]]; try congruence.
  - apply Hc. exists 500%Z. reflexivity.
  - apply Hc. exists 500%Z. reflexivity.
Defined.

(** C10.  The fourth argument sets the number of NUMA nodes only when it
    starts with one of the characters ['0'] to ['9'], and then to
    [atoi] of it: the number written, when that fits an [int].  For any
    other fourth argument (a leading ['-'], ['+'] or blank, the empty
    string) the number of NUMA nodes is 1 and the run is the run without
    that argument: the same output, no error message, the same end. *)
Theorem numa_argument_needs_leading_digit {D : Type} `{DTypeOps D}
    (gasnet_nodes : positive) (R : Z) (epoch : config -> D)
    (a0 a1 a2 a3 s : string) (rest : list string) :
  let argv := a0 :: a1 :: a2 :: a3 :: s :: rest in
  (first_char s ∈ ["0"; "1"; "2"; "3"; "4"; "5"; "6"; "7"; "8"; "9"]%char ->
     num_numa_nodes argv = atoi s /\
     (atoi_digits s 0 <= INT_MAX ->
      num_numa_nodes argv = atoi_digits s 0 /\ 0 <= num_numa_nodes argv)) /\
  (first_char s ∉ ["0"; "1"; "2"; "3"; "4"; "5"; "6"; "7"; "8"; "9"]%char ->
     num_numa_nodes argv = 1 /\
     top_level_task gasnet_nodes R epoch argv
     = top_level_task gasnet_nodes R epoch [a0; a1; a2; a3]) /\
  num_numa_nodes [a0; a1; a2; a3] = 1 /\
  num_numa_nodes (a0 :: a1 :: a2 :: a3 :: "-2"%string :: rest) = 1.
Proof.
  cbv zeta.
  assert (Hargc : forall s',
    (4 <? argc (a0 :: a1 :: a2 :: a3 :: s' :: rest)) = true).
  { intros s'. apply Z.ltb_lt. unfold argc. cbn [length]. lia. }
  assert (Hignore : forall s',
    first_char s' ∉ ["0"; "1"; "2"; "3"; "4"; "5"; "6"; "7"; "8"; "9"]%char ->
    num_numa_nodes (a0 :: a1 :: a2 :: a3 :: s' :: rest) = 1).
  { intros s' Hother. unfold num_numa_nodes. rewrite Hargc.
    cbn [arg lookup list_lookup default].
    rewrite is_digit_spec, bool_decide_eq_false_2 by exact Hother. reflexivity. }
  split.
  { intros Hdigit.
    assert (Hnum : num_numa_nodes (a0 :: a1 :: a2 :: a3 :: s :: rest) = atoi s).
    { unfold num_numa_nodes. rewrite Hargc. cbn [arg lookup list_lookup default].
      rewrite is_digit_spec, bool_decide_eq_true_2 by exact Hdigit. reflexivity. }
    split; [exact Hnum|]. intros Hfit. rewrite Hnum.
    apply atoi_digit_first; [|exact Hfit].
    rewrite is_digit_spec. apply bool_decide_eq_true_2. exact Hdigit. }
  split.
  { intros Hother. split; [apply Hignore; exact Hother|].
    unfold top_level_task, read_parameters.
    rewrite (Hignore s Hother).
    change (num_numa_nodes [a0; a1; a2; a3]) with 1.
    replace (argc (a0 :: a1 :: a2 :: a3 :: s :: rest) <? 4) with false
      by (symmetry; apply Z.ltb_ge; unfold argc; cbn [length]; lia).
    reflexivity. }
  split; [reflexivity|].
  apply Hignore. apply (bool_decide_eq_false _). reflexivity.
Qed.

(** ** Placement of the shards *)

Import Mapper.

Section PlacementFacts.

Local Open Scope nat_scope.

Variable machine : Machine.

Lemma filter_none {A : Type} (P : A -> Prop) `{forall x, Decision (P x)}
    (l : list A) :
  (forall x, x ∈ l -> ~ P x) -> filter P l = [].
Proof.
  induction l as [|x l IH]; intros Hall; [reflexivity|].
  rewrite filter_cons, decide_False by (apply Hall; left).
  apply IH. intros y Hy. apply Hall. right. exact Hy.
Qed.

Lemma filter_all {A : Type} (P : A -> Prop) `{forall x, Decision (P x)}
    (l : list A) :
  (forall x, x ∈ l -> P x) -> filter P l = l.
Proof.
  induction l as [|x l IH]; intros Hall; [reflexivity|].
  rewrite filter_cons, decide_True by (apply Hall; left).
  f_equal. apply IH. intros y Hy. apply Hall. right. exact Hy.
Qed.

Lemma register_processor_step (m : StencilMapper) (p : Processor) :
  register_processor machine m p
  = if mem_exists (find_memory_kind machine p)
    then Ok {| proc_map :=
                 <[address_space machine p :=
                     (proc_map m !!! address_space machine p) ++ [p]]>
                   (proc_map m);
               all_sysmems :=
                 <[p := find_memory_kind machine p]> (all_sysmems m);
               num_nodes :=
                 Nat.max (num_nodes m) (address_space machine p + 1) |}
    else Abort AssertionFailed.
Proof.
  unfold register_processor.
  destruct (mem_exists (find_memory_kind machine p)); reflexivity.
Qed.

(** The constructor's loop: the table of a node lists the processors of
    that node in the order of the machine's set, and [num_nodes] exceeds
    every node that has a processor. *)
Lemma register_all (ps : list Processor) (m0 m : StencilMapper) :
  foldM (register_processor machine) m0 ps = Ok m ->
  (forall k, proc_map m !!! k
             = proc_map m0 !!! k
               ++ filter (fun p => address_space machine p = k) ps) /\
  num_nodes m0 <= num_nodes m /\
  (forall p, p ∈ ps -> address_space machine p < num_nodes m).
Proof.
  revert m0. induction ps as [|p ps IH]; intros m0; cbn [foldM].
  - intros [= <-]. split; [|split].
    + intros k. rewrite app_nil_r. reflexivity.
    + lia.
    + intros p Hp. inversion Hp.
  - rewrite register_processor_step.
    destruct (mem_exists (find_memory_kind machine p));
      cbn [mbind result_bind]; [|intros Hx; discriminate Hx].
    intros Hrun.
    apply IH in Hrun as (Hmap & Hnodes & Hprocs). cbn in Hmap, Hnodes.
    split; [|split].
    + intros k. rewrite Hmap, filter_cons.
      destruct (decide (address_space machine p = k)) as [<-|Hne].
      * rewrite lookup_total_insert_eq, <- app_assoc. reflexivity.
      * rewrite lookup_total_insert_ne by exact Hne. reflexivity.
    + lia.
    + intros q Hq. apply elem_of_cons in Hq as [->|Hq]; [lia|].
      apply Hprocs. exact Hq.
Qed.

Lemma init_proc_map (m : StencilMapper) (k : nat) :
  StencilMapper_init machine = Ok m ->
  proc_map m !!! k
  = filter (fun p => address_space machine p = k) (get_all_processors machine).
Proof.
  intros Hinit. apply register_all in Hinit as [Hmap _].
  rewrite Hmap. cbn. rewrite lookup_total_empty. reflexivity.
Qed.

Lemma init_no_processor_beyond (m : StencilMapper) (k : nat) :
  StencilMapper_init machine = Ok m ->
  num_nodes m <= k -> proc_map m !!! k = [].
Proof.
  intros Hinit Hk. rewrite (init_proc_map m k Hinit).
  apply register_all in Hinit as (_ & _ & Hprocs).
  apply filter_none. intros p Hp Heq. apply Hprocs in Hp. lia.
Qed.

Variable past_the_end : nat -> nat -> nat.

Lemma read_processor_inside (m : StencilMapper) (node offset : nat)
    (p : Processor) :
  (proc_map m !!! node) !! offset = Some p ->
  read_processor past_the_end m node offset = Ok p.
Proof. unfold read_processor. cbv zeta. intros ->. reflexivity. Qed.

Lemma read_processor_empty (m : StencilMapper) (node offset : nat) :
  proc_map m !!! node = [] ->
  read_processor past_the_end m node offset = Abort NullPointer.
Proof.
  unfold read_processor. cbv zeta. intros ->.
  rewrite lookup_nil, decide_True by reflexivity. reflexivity.
Qed.

(** What the first loop has done when it ends: every shard is bound to the
    processor read for it, and mapped there. *)
Lemma assign_shards_spec (m : StencilMapper) (spn : nat) (tasks : list Task)
    (i : nat) (tasks' : list Task) :
  assign_shards past_the_end m spn i tasks = Ok tasks' ->
  length tasks' = length tasks /\
  forall j task, tasks !! j = Some task ->
    exists p,
      read_processor past_the_end m ((i + j) / spn) ((i + j) mod spn) = Ok p /\
      tasks' !! j = Some (map_task m (with_target_proc p task)).
Proof.
  revert i tasks'. induction tasks as [|task rest IH]; intros i tasks'.
  - intros [= <-]. split; [reflexivity|]. intros j t Hj. discriminate.
  - cbn [assign_shards]. unfold assign_shard.
    destruct (decide (spn = 0)); [discriminate|].
    destruct (read_processor past_the_end m (i / spn) (i mod spn))
      as [p|f] eqn:Hp; [|discriminate].
    cbn [mbind result_bind].
    destruct (assign_shards past_the_end m spn (S i) rest)
      as [rest'|f] eqn:Hrest; [|discriminate].
    cbn [mbind result_bind]. intros [= <-].
    destruct (IH (S i) rest' Hrest) as [Hlen Hall].
    split; [cbn; lia|].
    intros [|j] t Hj.
    + injection Hj as <-. exists p. rewrite Nat.add_0_r.
      split; [exact Hp|reflexivity].
    + cbn in Hj. destruct (Hall j t Hj) as (q & Hq & Hlook).
      exists q. replace (i + S j) with (S i + j) by lia.
      split; [exact Hq|exact Hlook].
Qed.

Lemma assign_shards_ok (m : StencilMapper) (spn : nat) (tasks : list Task)
    (i : nat) :
  spn <> 0 ->
  (forall j, j < length tasks -> is_Some (shard_processor m spn (i + j))) ->
  exists tasks',
    assign_shards past_the_end m spn i tasks = Ok tasks' /\
    length tasks' = length tasks /\
    forall j task, tasks !! j = Some task ->
      exists p, shard_processor m spn (i + j) = Some p /\
                tasks' !! j = Some (map_task m (with_target_proc p task)).
Proof.
  intros Hspn. revert i. induction tasks as [|task rest IH]; intros i Hall.
  - exists []. split; [reflexivity|]. split; [reflexivity|].
    intros j t Hj. discriminate.
  - cbn [assign_shards]. unfold assign_shard.
    rewrite decide_False by exact Hspn.
    destruct (Hall 0 ltac:(cbn; lia)) as [p Hp].
    rewrite Nat.add_0_r in Hp. unfold shard_processor in Hp.
    rewrite (read_processor_inside m _ _ p Hp).
    cbn [mbind result_bind].
    destruct (IH (S i)) as (rest' & Hrun & Hlen & Hrest).
    { intros j Hj. replace (S i + j) with (i + S j) by lia.
      apply Hall. cbn. lia. }
    rewrite Hrun. cbn [mbind result_bind].
    eexists. split; [reflexivity|]. split; [cbn; lia|].
    intros [|j] t Hj.
    + injection Hj as <-. exists p. rewrite Nat.add_0_r. split; [exact Hp|reflexivity].
    + cbn in Hj. destruct (Hrest j t Hj) as (q & Hq & Hlook).
      exists q. replace (i + S j) with (S i + j) by lia.
      split; [exact Hq|exact Hlook].
Qed.

(** A shard sent to a node without processors ends the loop. *)
Lemma assign_shards_fails (m : StencilMapper) (spn : nat) (tasks : list Task)
    (i j : nat) :
  j < length tasks -> proc_map m !!! ((i + j) / spn) = [] ->
  exists f, assign_shards past_the_end m spn i tasks = Abort f.
Proof.
  revert i j. induction tasks as [|task rest IH]; intros i j Hj Hnone.
  - cbn in Hj. lia.
  - cbn [assign_shards]. unfold assign_shard.
    destruct (decide (spn = 0)); [eexists; reflexivity|].
    destruct (read_processor past_the_end m (i / spn) (i mod spn))
      as [p|f] eqn:Hp; [|eexists; reflexivity].
    cbn [mbind result_bind].
    destruct j as [|j].
    + rewrite Nat.add_0_r in Hnone.
      rewrite (read_processor_empty m _ _ Hnone) in Hp. discriminate.
    + destruct (IH (S i) j) as [f Hf].
      * cbn in Hj. lia.
      * replace (S i + j) with (i + S j) by lia. exact Hnone.
      * rewrite Hf. eexists. reflexivity.
Qed.

End PlacementFacts.

Section ShardPlacement.

Local Open Scope nat_scope.

Variables (past_the_end : nat -> nat -> nat).
Variables (machine : Machine) (m : StencilMapper).

Hypothesis procs_distinct : NoDup (get_all_processors machine).
Hypothesis init : StencilMapper_init machine = Ok m.

Lemma div_interval (i spn k : nat) :
  spn <> 0 -> (i / spn = k <-> k * spn <= i < (k + 1) * spn).
Proof.
  intros Hspn. pose proof (Nat.div_mod_eq i spn) as Hi.
  pose proof (Nat.mod_upper_bound i spn Hspn) as Hr.
  split.
  - intros <-. nia.
  - intros [Hlo Hhi].
    destruct (lt_eq_lt_dec (i / spn) k) as [[Hlt|Heq]|Hgt]; [|exact Heq|]; nia.
Qed.

(** The processor of a shard lives on node [i / shards_per_node]. *)
Lemma shard_processor_node (spn i : nat) (p : Processor) :
  shard_processor m spn i = Some p -> address_space machine p = i / spn.
Proof using init.
  unfold shard_processor. rewrite (init_proc_map machine m _ init).
  intros Hp. apply list_elem_of_lookup_2 in Hp.
  apply list_elem_of_filter in Hp as [Hnode _]. exact Hnode.
Qed.

Lemma shard_processor_inj (spn i j : nat) (p : Processor) :
  spn <> 0 ->
  shard_processor m spn i = Some p -> shard_processor m spn j = Some p ->
  i = j.
Proof using procs_distinct init.
  intros Hspn Hi Hj.
  pose proof (shard_processor_node spn i p Hi) as Hni.
  pose proof (shard_processor_node spn j p Hj) as Hnj.
  assert (Hnode : i / spn = j / spn) by congruence.
  unfold shard_processor in Hi, Hj. rewrite <- Hnode in Hj.
  rewrite (init_proc_map machine m _ init) in Hi, Hj.
  assert (Hpos : i mod spn = j mod spn).
  { eapply NoDup_lookup; [|exact Hi|exact Hj].
    apply NoDup_filter, procs_distinct. }
  rewrite (Nat.div_mod_eq i spn), (Nat.div_mod_eq j spn). congruence.
Qed.

(** Too many shards for the nodes: some shard is sent past the last node,
    where the vector of processors is empty. *)
Lemma shard_assignment_uneven (tasks : list Task) :
  num_nodes m <> 0 -> length tasks mod num_nodes m <> 0 ->
  exists f, shard_assignment past_the_end m tasks = Abort f.
Proof using init.
  intros HN Hmod. unfold shard_assignment. rewrite decide_False by exact HN.
  set (spn := length tasks / num_nodes m).
  pose proof (Nat.div_mod_eq (length tasks) (num_nodes m)) as HT.
  fold spn in HT.
  destruct (decide (spn = 0)) as [Hz|Hnz].
  - destruct tasks as [|task rest].
    + cbn in Hmod. rewrite Nat.Div0.mod_0_l in Hmod. contradiction.
    + cbn [assign_shards]. unfold assign_shard.
      rewrite decide_True by exact Hz. eexists. reflexivity.
  - apply (assign_shards_fails past_the_end m spn tasks 0 (num_nodes m * spn));
      [lia|].
    cbn [Nat.add]. rewrite Nat.div_mul by exact Hnz.
    apply (init_no_processor_beyond machine m _ init). lia.
Qed.

Lemma shard_assignment_even (tasks : list Task) :
  num_nodes m <> 0 -> length tasks mod num_nodes m = 0 ->
  (forall k, k < num_nodes m ->
     length tasks / num_nodes m <= length (proc_map m !!! k)) ->
  exists tasks',
    shard_assignment past_the_end m tasks = Ok tasks' /\
    length tasks' = length tasks /\
    forall i task, tasks !! i = Some task ->
      exists p,
        shard_processor m (length tasks / num_nodes m) i = Some p /\
        tasks' !! i = Some (map_task m (with_target_proc p task)).
Proof using Type.
  intros HN Hmod Hroom. unfold shard_assignment.
  rewrite decide_False by exact HN.
  set (spn := length tasks / num_nodes m) in *.
  pose proof (Nat.div_mod_eq (length tasks) (num_nodes m)) as HT.
  fold spn in HT. rewrite Hmod in HT.
  destruct (decide (spn = 0)) as [Hz|Hnz].
  - destruct tasks as [|task rest]; [|cbn in HT; lia].
    exists []. split; [reflexivity|]. split; [reflexivity|].
    intros i t Hi. discriminate.
  - destruct (assign_shards_ok past_the_end m spn tasks 0 Hnz)
      as (tasks' & Hrun & Hlen & Hall).
    { intros j Hj. cbn [Nat.add]. unfold shard_processor.
      apply lookup_lt_is_Some.
      pose proof (Nat.mod_upper_bound j spn Hnz).
      assert (j / spn < num_nodes m).
      { apply Nat.Div0.div_lt_upper_bound. lia. }
      specialize (Hroom (j / spn)). lia. }
    exists tasks'. split; [exact Hrun|]. split; [exact Hlen|].
    intros i t Hi. destruct (Hall i t Hi) as (p & Hp & Hlook).
    exists p. split; [exact Hp|exact Hlook].
Qed.

(** Whenever the loop ends, shard [i] is bound to what the read at position
    [i mod shards_per_node] of node [i / shards_per_node] returned. *)
Lemma shard_assignment_reads (tasks tasks' : list Task) :
  shard_assignment past_the_end m tasks = Ok tasks' ->
  length tasks' = length tasks /\
  forall i, i < length tasks ->
    exists p,
      read_processor past_the_end m (i / (length tasks / num_nodes m))
        (i mod (length tasks / num_nodes m)) = Ok p /\
      proc_of tasks' i = Some p.
Proof using Type.
  unfold shard_assignment.
  destruct (decide (num_nodes m = 0)); [discriminate|].
  intros Hrun. apply assign_shards_spec in Hrun as [Hlen Hall].
  split; [exact Hlen|].
  intros i Hi. apply lookup_lt_is_Some in Hi as [task Htask].
  destruct (Hall i task Htask) as (p & Hp & Hlook).
  exists p. split; [exact Hp|].
  unfold proc_of. rewrite Hlook. reflexivity.
Qed.

End ShardPlacement.




(** ** Memory agreement of the mapping constraints *)

Section ConstraintFacts.

Local Open Scope nat_scope.

Lemma same_shape_refl (tasks : list Task) : same_shape tasks tasks.
Proof. intros t idx. tauto. Qed.

Lemma same_shape_trans (a b c : list Task) :
  same_shape a b -> same_shape b c -> same_shape a c.
Proof.
  intros Hab Hbc t idx.
  destruct (Hab t idx) as (? & ? & ?), (Hbc t idx) as (? & ? & ?).
  split; [congruence|]. split; [congruence|tauto].
Qed.

Lemma valid_refs_same_shape (a b : list Task) (c : MappingConstraint) :
  same_shape a b -> valid_refs a c -> valid_refs b c.
Proof.
  intros Hab [H1 H2]. split.
  - apply (Hab (t1 c) (idx1 c)). exact H1.
  - apply (Hab (t2 c) (idx2 c)). exact H2.
Qed.

Lemma get_region_Some (tasks : list Task) (t idx : nat) :
  is_Some (ranking_of tasks t idx) ->
  exists task req,
    tasks !! t = Some task /\ regions task !! idx = Some req /\
    get_task tasks t = Ok task /\ get_region tasks t idx = Ok req /\
    region_of tasks t idx = Some (region req) /\
    proc_of tasks t = Some (target_proc task).
Proof.
  unfold ranking_of, get_region, get_task, region_of, proc_of.
  intros [ms Hms].
  destruct (tasks !! t) as [task|]; [|discriminate]. cbn in Hms.
  destruct (regions task !! idx) as [req|] eqn:Hreq; [|discriminate].
  exists task, req. cbn. rewrite Hreq. cbn.
  split; [reflexivity|]. split; [reflexivity|]. split; [reflexivity|].
  split; [reflexivity|]. split; reflexivity.
Qed.

(** Overwriting one ranking: the region takes the new ranking, every other
    ranking, every processor and every logical region stays. *)
Lemma set_ranking_ok (tasks : list Task) (t idx : nat) (mem : Memory) :
  is_Some (ranking_of tasks t idx) ->
  exists tasks',
    set_ranking tasks t idx mem = Ok tasks' /\
    same_shape tasks tasks' /\
    ranking_of tasks' t idx = Some [mem] /\
    (forall t' idx', (t', idx') <> (t, idx) ->
       ranking_of tasks' t' idx' = ranking_of tasks t' idx').
Proof.
  intros Hsome.
  destruct (get_region_Some tasks t idx Hsome)
    as (task & req & Htask & Hreq & Hget & Hgetr & _ & _).
  unfold set_ranking. rewrite Hget, Hgetr. cbn [mbind result_bind].
  eexists. split; [reflexivity|].
  assert (Ht : t < length tasks) by (apply lookup_lt_is_Some; eauto).
  assert (Hidx : idx < length (regions task))
    by (apply lookup_lt_is_Some; eauto).
  set (task' := with_regions _ task).
  assert (Hlook : forall t',
    <[t := task']> tasks !! t'
    = if decide (t' = t) then Some task' else tasks !! t').
  { intros t'. destruct (decide (t' = t)) as [->|Hne].
    - apply list_lookup_insert_eq. exact Ht.
    - apply list_lookup_insert_ne. congruence. }
  assert (Hregs : forall idx',
    regions task' !! idx'
    = if decide (idx' = idx) then Some (with_ranking [mem] req)
      else regions task !! idx').
  { intros idx'. unfold task'. cbn. destruct (decide (idx' = idx)) as [->|Hne].
    - apply list_lookup_insert_eq. exact Hidx.
    - apply list_lookup_insert_ne. congruence. }
  split; [|split].
  - intros t' idx'. unfold proc_of, region_of, ranking_of.
    rewrite Hlook. destruct (decide (t' = t)) as [->|Hne].
    + rewrite Htask. cbn. rewrite Hregs.
      destruct (decide (idx' = idx)) as [->|Hne'].
      * rewrite Hreq. cbn. split; [reflexivity|]. split; [reflexivity|].
        split; intros _; eexists; reflexivity.
      * split; [reflexivity|]. split; [reflexivity|]. tauto.
    + split; [reflexivity|]. split; [reflexivity|]. tauto.
  - unfold ranking_of. rewrite Hlook, decide_True by reflexivity. cbn.
    rewrite Hregs, decide_True by reflexivity. reflexivity.
  - intros t' idx' Hne. unfold ranking_of. rewrite Hlook.
    destruct (decide (t' = t)) as [->|Hne']; [|reflexivity].
    rewrite Htask. cbn. rewrite Hregs.
    rewrite decide_False by congruence. reflexivity.
Qed.

(** *** Lists of writes *)

Lemma last_write_app (a b : list (nat * nat * nat)) (t idx : nat) :
  last_write (a ++ b) t idx
  = match last_write b t idx with
    | Some mem => Some mem
    | None => last_write a t idx
    end.
Proof.
  induction a as [|[[t' idx'] mem] a IH]; cbn [app last_write].
  - destruct (last_write b t idx); reflexivity.
  - rewrite IH. destruct (last_write b t idx); reflexivity.
Qed.

Lemma last_write_Some (ws : list (nat * nat * nat)) (t idx mem : nat) :
  last_write ws t idx = Some mem -> (t, idx, mem) ∈ ws.
Proof.
  induction ws as [|[[t' idx'] mem'] ws IH]; cbn [last_write]; [discriminate|].
  destruct (last_write ws t idx) as [mem''|].
  - intros [= ->]. right. apply IH. reflexivity.
  - destruct (decide ((t', idx') = (t, idx))) as [Heq|]; [|discriminate].
    intros [= ->]. injection Heq as -> ->. left.
Qed.

Lemma last_write_None (ws : list (nat * nat * nat)) (t idx mem : nat) :
  last_write ws t idx = None -> (t, idx, mem) ∉ ws.
Proof.
  induction ws as [|[[t' idx'] mem'] ws IH]; cbn [last_write].
  - intros _ Hin. inversion Hin.
  - destruct (last_write ws t idx) as [mem''|]; [discriminate|].
    destruct (decide ((t', idx') = (t, idx))) as [|Hne]; [discriminate|].
    intros _ Hin. apply elem_of_cons in Hin as [Heq|Hin].
    + apply Hne. congruence.
    + apply IH in Hin; [exact Hin|reflexivity].
Qed.

(** A slot that is written, and with one memory only, ends with it. *)
Lemma last_write_agree (ws : list (nat * nat * nat)) (t idx mem : nat) :
  (t, idx, mem) ∈ ws ->
  (forall mem', (t, idx, mem') ∈ ws -> mem' = mem) ->
  last_write ws t idx = Some mem.
Proof.
  intros Hin Hone.
  destruct (last_write ws t idx) as [mem'|] eqn:Hlast.
  - apply last_write_Some in Hlast. rewrite (Hone mem' Hlast). reflexivity.
  - exfalso. exact (last_write_None ws t idx mem Hlast Hin).
Qed.

Lemma ranking_after_app (a b : list (nat * nat * nat)) (tasks : list Task)
    (t idx : nat) :
  ranking_after (a ++ b) tasks t idx
  = match last_write b t idx with
    | Some mem => Some [mem]
    | None => ranking_after a tasks t idx
    end.
Proof.
  unfold ranking_after. rewrite last_write_app.
  destruct (last_write b t idx); reflexivity.
Qed.

(** Writes [a] to [tasks] give [tasks']; writes [b] to [tasks'] then give
    what the writes [a ++ b] to [tasks] give. *)
Lemma ranking_after_compose (a b : list (nat * nat * nat))
    (tasks tasks' tasks'' : list Task) :
  (forall t idx, ranking_of tasks' t idx = ranking_after a tasks t idx) ->
  (forall t idx, ranking_of tasks'' t idx = ranking_after b tasks' t idx) ->
  forall t idx, ranking_of tasks'' t idx = ranking_after (a ++ b) tasks t idx.
Proof.
  intros Ha Hb t idx. rewrite ranking_after_app, Hb. unfold ranking_after at 1.
  destruct (last_write b t idx); [reflexivity|apply Ha].
Qed.

(** Two rankings set one after the other to the same memory. *)
Lemma set_both_ok (tasks : list Task) (c : MappingConstraint) (mem : Memory) :
  valid_refs tasks c ->
  exists tasks1 tasks2,
    set_ranking tasks (t1 c) (idx1 c) mem = Ok tasks1 /\
    set_ranking tasks1 (t2 c) (idx2 c) mem = Ok tasks2 /\
    same_shape tasks tasks2 /\
    ranking_of tasks2 (t1 c) (idx1 c) = Some [mem] /\
    ranking_of tasks2 (t2 c) (idx2 c) = Some [mem] /\
    forall t idx,
      ranking_of tasks2 t idx = ranking_after (side_writes c mem) tasks t idx.
Proof.
  intros [H1 H2].
  destruct (set_ranking_ok tasks (t1 c) (idx1 c) mem H1)
    as (tasks1 & Hrun1 & Hshape1 & Hset1 & Hframe1).
  assert (H2' : is_Some (ranking_of tasks1 (t2 c) (idx2 c)))
    by (apply Hshape1; exact H2).
  destruct (set_ranking_ok tasks1 (t2 c) (idx2 c) mem H2')
    as (tasks2 & Hrun2 & Hshape2 & Hset2 & Hframe2).
  exists tasks1, tasks2. split; [exact Hrun1|]. split; [exact Hrun2|].
  split; [eapply same_shape_trans; eassumption|].
  assert (Hfirst : ranking_of tasks2 (t1 c) (idx1 c) = Some [mem]).
  { destruct (decide ((t1 c, idx1 c) = (t2 c, idx2 c))) as [Heq|Hne].
    - injection Heq as -> ->. exact Hset2.
    - rewrite Hframe2 by exact Hne. exact Hset1. }
  split; [exact Hfirst|]. split; [exact Hset2|].
  intros t idx. unfold ranking_after, side_writes. cbn [last_write].
  destruct (decide ((t2 c, idx2 c) = (t, idx))) as [Heq|Hne2].
  - injection Heq as <- <-. exact Hset2.
  - destruct (decide ((t1 c, idx1 c) = (t, idx))) as [Heq|Hne1].
    + injection Heq as <- <-. exact Hfirst.
    + rewrite Hframe2 by congruence. apply Hframe1. congruence.
Qed.

Variable m : StencilMapper.

(** A constraint with a side at slot 0. *)
Lemma primary_step_ok (tasks : list Task) (mappings : gmap nat nat)
    (c : MappingConstraint) (side : nat * nat) :
  primary_side c = Some side -> valid_refs tasks c ->
  exists tasks' mem r,
    primary_memory m tasks c = Some mem /\
    primary_region tasks c = Some r /\
    primary_step m (tasks, mappings) c = Ok (tasks', <[r := mem]> mappings) /\
    same_shape tasks tasks' /\
    ranking_of tasks' (t1 c) (idx1 c) = Some [mem] /\
    ranking_of tasks' (t2 c) (idx2 c) = Some [mem] /\
    forall t idx,
      ranking_of tasks' t idx = ranking_after (side_writes c mem) tasks t idx.
Proof.
  intros Hside Hvalid.
  assert (Hown : is_Some (ranking_of tasks (fst side) (snd side))).
  { unfold primary_side in Hside. destruct Hvalid as [H1 H2].
    repeat case_decide; try discriminate; injection Hside as <-; assumption. }
  destruct (get_region_Some tasks _ _ Hown)
    as (task & req & Htask & Hreq & Hget & Hgetr & Hregion & Hproc).
  set (mem := all_sysmems m !!! target_proc task).
  destruct (set_both_ok tasks c mem Hvalid)
    as (tasks1 & tasks2 & Hrun1 & Hrun2 & Hshape & Hr1 & Hr2 & Hfr).
  assert (Hown2 : is_Some (ranking_of tasks2 (fst side) (snd side)))
    by (apply Hshape; exact Hown).
  destruct (get_region_Some tasks2 _ _ Hown2)
    as (task2 & req2 & _ & _ & _ & Hgetr2 & Hregion2 & _).
  assert (Hsame : region req2 = region req).
  { destruct (Hshape (fst side) (snd side)) as (_ & Hreg & _). congruence. }
  exists tasks2, mem, (region req).
  unfold primary_memory, primary_region. rewrite Hside. cbn [mbind option_bind].
  rewrite Hproc, Hregion. cbn [mbind option_bind].
  split; [reflexivity|]. split; [reflexivity|].
  split; [|split; [exact Hshape|repeat split; assumption]].
  unfold primary_step. cbn [fst snd].
  unfold primary_side in Hside.
  destruct (decide (idx1 c = 0)) as [H0|H0].
  - injection Hside as <-. cbn [fst snd] in *.
    rewrite Hget. cbn [mbind result_bind]. fold mem.
    rewrite Hrun1. cbn [mbind result_bind].
    rewrite Hrun2. cbn [mbind result_bind].
    rewrite Hgetr2. cbn [mbind result_bind]. rewrite Hsame. reflexivity.
  - destruct (decide (idx2 c = 0)) as [H0'|H0']; [|discriminate].
    injection Hside as <-. cbn [fst snd] in *.
    rewrite Hget. cbn [mbind result_bind]. fold mem.
    rewrite Hrun1. cbn [mbind result_bind].
    rewrite Hrun2. cbn [mbind result_bind].
    rewrite Hgetr2. cbn [mbind result_bind]. rewrite Hsame. reflexivity.
Qed.

Lemma primary_step_skip (st : epoch_state) (c : MappingConstraint) :
  primary_side c = None -> primary_step m st c = Ok st.
Proof.
  unfold primary_side, primary_step.
  repeat case_decide; intros; try discriminate; reflexivity.
Qed.

Lemma primary_side_deferred (c : MappingConstraint) :
  primary_side c = None <-> deferred c.
Proof.
  unfold primary_side, deferred.
  repeat case_decide; split; intros Hx; try discriminate; try tauto;
    try reflexivity; destruct Hx; contradiction.
Qed.

(** The first loop: it always completes on valid constraints, and every
    memory it records was recorded for a constraint with a side at slot 0. *)
Lemma primary_pass (tasks0 : list Task) (cs : list MappingConstraint)
    (tasks : list Task) (mappings : gmap nat nat) :
  Forall (valid_refs tasks0) cs -> same_shape tasks0 tasks ->
  exists tasks1 mappings1,
    foldM (primary_step m) (tasks, mappings) cs = Ok (tasks1, mappings1) /\
    same_shape tasks0 tasks1 /\
    forall r mem, mappings1 !! r = Some mem ->
      mappings !! r = Some mem \/
      exists c, c ∈ cs /\ primary_region tasks0 c = Some r /\
                primary_memory m tasks0 c = Some mem.
Proof.
  intros Hvalid. revert tasks mappings.
  induction Hvalid as [|c cs Hc _ IH]; intros tasks mappings Hshape.
  - exists tasks, mappings. split; [reflexivity|]. split; [exact Hshape|].
    intros r mem Hr. left. exact Hr.
  - cbn [foldM].
    destruct (primary_side c) as [side|] eqn:Hside.
    + destruct (primary_step_ok tasks mappings c side Hside)
        as (tasks' & mem & r & Hmem & Hreg & Hrun & Hshape' & _).
      { eapply valid_refs_same_shape; eassumption. }
      rewrite Hrun. cbn [mbind result_bind].
      destruct (IH tasks' (<[r := mem]> mappings)) as (tasks1 & mp1 & Hrun1 & Hs1 & Hrec).
      { eapply same_shape_trans; eassumption. }
      exists tasks1, mp1. split; [exact Hrun1|]. split; [exact Hs1|].
      intros r' mem' Hr'. destruct (Hrec r' mem' Hr') as [Hold|(c' & Hin & ? & ?)].
      * destruct (decide (r' = r)) as [->|Hne].
        -- rewrite lookup_insert_eq in Hold. injection Hold as <-.
           right. exists c. split; [left|].
           assert (Hm0 : primary_memory m tasks0 c = primary_memory m tasks c).
           { unfold primary_memory. rewrite Hside. cbn [mbind option_bind].
             destruct (Hshape (fst side) 0) as (-> & _). reflexivity. }
           assert (Hr0 : primary_region tasks0 c = primary_region tasks c).
           { unfold primary_region. rewrite Hside. cbn [mbind option_bind].
             destruct (Hshape (fst side) (snd side)) as (_ & -> & _).
             reflexivity. }
           rewrite Hm0, Hr0. split; assumption.
        -- rewrite lookup_insert_ne in Hold by congruence. left. exact Hold.
      * right. exists c'. split; [right; exact Hin|]. split; assumption.
    + rewrite primary_step_skip by exact Hside. cbn [mbind result_bind].
      destruct (IH tasks mappings Hshape) as (tasks1 & mp1 & Hrun1 & Hs1 & Hrec).
      exists tasks1, mp1. split; [exact Hrun1|]. split; [exact Hs1|].
      intros r' mem' Hr'. destruct (Hrec r' mem' Hr') as [Hold|(c' & Hin & ? & ?)].
      * left. exact Hold.
      * right. exists c'. split; [right; exact Hin|]. split; assumption.
Qed.

Lemma primary_memory_same_shape (tasks0 tasks : list Task)
    (c : MappingConstraint) :
  same_shape tasks0 tasks ->
  primary_memory m tasks c = primary_memory m tasks0 c.
Proof.
  intros Hshape. unfold primary_memory.
  destruct (primary_side c) as [side|]; [|reflexivity].
  cbn [mbind option_bind].
  destruct (Hshape (fst side) 0) as (-> & _). reflexivity.
Qed.

Lemma primary_region_same_shape (tasks0 tasks : list Task)
    (c : MappingConstraint) :
  same_shape tasks0 tasks ->
  primary_region tasks c = primary_region tasks0 c.
Proof.
  intros Hshape. unfold primary_region.
  destruct (primary_side c) as [side|]; [|reflexivity].
  cbn [mbind option_bind].
  destruct (Hshape (fst side) (snd side)) as (_ & -> & _). reflexivity.
Qed.

Lemma primary_memory_deferred (tasks : list Task) (c : MappingConstraint) :
  primary_side c = None -> primary_memory m tasks c = None.
Proof. unfold primary_memory. intros ->. reflexivity. Qed.

Lemma primary_writes_cons (tasks : list Task) (c : MappingConstraint)
    (cs : list MappingConstraint) :
  primary_writes m tasks (c :: cs)
  = match primary_memory m tasks c with
    | Some mem => side_writes c mem
    | None => []
    end ++ primary_writes m tasks cs.
Proof. reflexivity. Qed.

(** The first loop as a list of writes: the store it leaves is the store it
    started from with the writes of the constraints that have a side at slot
    0, in their order, and the memories on record are those of
    [record_primary]. *)
Lemma primary_pass_rankings (tasks0 : list Task) (cs : list MappingConstraint)
    (tasks : list Task) (mappings : gmap nat nat) :
  Forall (valid_refs tasks0) cs -> same_shape tasks0 tasks ->
  exists tasks1,
    foldM (primary_step m) (tasks, mappings) cs
    = Ok (tasks1, foldl (record_primary m tasks0) mappings cs) /\
    same_shape tasks0 tasks1 /\
    forall t idx,
      ranking_of tasks1 t idx
      = ranking_after (primary_writes m tasks0 cs) tasks t idx.
Proof.
  intros Hvalid. revert tasks mappings.
  induction Hvalid as [|c cs Hc _ IH]; intros tasks mappings Hshape.
  - exists tasks. split; [reflexivity|]. split; [exact Hshape|].
    intros t idx. reflexivity.
  - cbn [foldM foldl]. rewrite primary_writes_cons.
    destruct (primary_side c) as [side|] eqn:Hside.
    + destruct (primary_step_ok tasks mappings c side Hside)
        as (tasks' & mem & r & Hmem & Hreg & Hrun & Hshape' & _ & _ & Hfr).
      { eapply valid_refs_same_shape; eassumption. }
      rewrite Hrun. cbn [mbind result_bind].
      rewrite (primary_memory_same_shape tasks0 tasks c Hshape) in Hmem.
      rewrite (primary_region_same_shape tasks0 tasks c Hshape) in Hreg.
      assert (Hrecord : record_primary m tasks0 mappings c = <[r := mem]> mappings).
      { unfold record_primary. rewrite Hreg, Hmem. reflexivity. }
      rewrite Hrecord, Hmem.
      destruct (IH tasks' (<[r := mem]> mappings)) as (tasks1 & Hrun1 & Hs1 & Hrank).
      { eapply same_shape_trans; eassumption. }
      exists tasks1. split; [exact Hrun1|]. split; [exact Hs1|].
      eapply ranking_after_compose; eassumption.
    + rewrite primary_step_skip by exact Hside. cbn [mbind result_bind].
      assert (Hrecord : record_primary m tasks0 mappings c = mappings).
      { unfold record_primary, primary_region. rewrite Hside. reflexivity. }
      rewrite Hrecord, (primary_memory_deferred tasks0 c Hside). cbn [app].
      apply IH. exact Hshape.
Qed.

Lemma primary_writes_elem (tasks : list Task) (cs : list MappingConstraint)
    (t idx mem : nat) :
  (t, idx, mem) ∈ primary_writes m tasks cs ->
  exists c, c ∈ cs /\ primary_memory m tasks c = Some mem /\ (t, idx) ∈ slots c.
Proof.
  unfold primary_writes. intros Hin.
  apply list_elem_of_bind in Hin as (c & Hin & Hc).
  exists c. split; [exact Hc|].
  destruct (primary_memory m tasks c) as [mem'|]; [|inversion Hin].
  unfold side_writes in Hin. unfold slots.
  apply elem_of_cons in Hin as [Heq|Hin].
  - injection Heq as -> -> ->. split; [reflexivity|left].
  - apply elem_of_cons in Hin as [Heq|Hin]; [|inversion Hin].
    injection Heq as -> -> ->. split; [reflexivity|]. right. left.
Qed.

Lemma primary_writes_intro (tasks : list Task) (cs : list MappingConstraint)
    (c : MappingConstraint) (t idx mem : nat) :
  c ∈ cs -> primary_memory m tasks c = Some mem -> (t, idx) ∈ slots c ->
  (t, idx, mem) ∈ primary_writes m tasks cs.
Proof.
  intros Hc Hmem Hs. unfold primary_writes.
  apply list_elem_of_bind. exists c. split; [|exact Hc].
  rewrite Hmem. unfold side_writes. unfold slots in Hs.
  apply elem_of_cons in Hs as [Heq|Hs].
  - injection Heq as -> ->. left.
  - apply elem_of_cons in Hs as [Heq|Hs]; [|inversion Hs].
    injection Heq as -> ->. right. left.
Qed.

End ConstraintFacts.

Section DeferredFacts.

Local Open Scope nat_scope.

Variable mappings : gmap nat nat.

(** A constraint with no side at slot 0, in the second loop. *)
Lemma deferred_step_recorded (tasks : list Task) (c : MappingConstraint)
    (r : nat) (mem : nat) :
  deferred c -> valid_refs tasks c ->
  region_of tasks (t1 c) (idx1 c) = Some r -> mappings !! r = Some mem ->
  exists tasks',
    deferred_step mappings tasks c = Ok tasks' /\
    same_shape tasks tasks' /\
    ranking_of tasks' (t1 c) (idx1 c) = Some [mem] /\
    ranking_of tasks' (t2 c) (idx2 c) = Some [mem] /\
    forall t idx,
      ranking_of tasks' t idx = ranking_after (side_writes c mem) tasks t idx.
Proof.
  intros Hdef Hvalid Hregion Hrec.
  destruct (get_region_Some tasks _ _ (proj1 Hvalid))
    as (task & req & _ & _ & _ & Hgetr & Hregion' & _).
  assert (region req = r) by congruence. subst r.
  destruct (set_both_ok tasks c mem Hvalid)
    as (tasks1 & tasks2 & Hrun1 & Hrun2 & Hshape & Hr1 & Hr2 & Hfr).
  exists tasks2. split; [|split; [exact Hshape|repeat split; assumption]].
  unfold deferred_step. rewrite decide_True by exact Hdef.
  rewrite Hgetr. cbn [mbind result_bind]. rewrite Hrec.
  rewrite Hrun1. cbn [mbind result_bind]. exact Hrun2.
Qed.

Lemma deferred_step_unrecorded (tasks : list Task) (c : MappingConstraint)
    (r : nat) :
  deferred c -> valid_refs tasks c ->
  region_of tasks (t1 c) (idx1 c) = Some r -> mappings !! r = None ->
  deferred_step mappings tasks c = Abort AssertionFailed.
Proof.
  intros Hdef Hvalid Hregion Hrec.
  destruct (get_region_Some tasks _ _ (proj1 Hvalid))
    as (task & req & _ & _ & _ & Hgetr & Hregion' & _).
  assert (region req = r) by congruence. subst r.
  unfold deferred_step. rewrite decide_True by exact Hdef.
  rewrite Hgetr. cbn [mbind result_bind]. rewrite Hrec. reflexivity.
Qed.

Lemma deferred_step_skip (tasks : list Task) (c : MappingConstraint) :
  ~ deferred c -> deferred_step mappings tasks c = Ok tasks.
Proof.
  intros Hnot. unfold deferred_step. rewrite decide_False by exact Hnot.
  reflexivity.
Qed.

(** On valid constraints a step of the second loop completes or fails by
    assertion, nothing else. *)
Lemma deferred_step_cases (tasks : list Task) (c : MappingConstraint) :
  valid_refs tasks c ->
  (exists tasks', deferred_step mappings tasks c = Ok tasks' /\
                  same_shape tasks tasks') \/
  deferred_step mappings tasks c = Abort AssertionFailed.
Proof.
  intros Hvalid. destruct (decide (deferred c)) as [Hdef|Hnot].
  - destruct (get_region_Some tasks _ _ (proj1 Hvalid))
      as (task & req & _ & _ & _ & _ & Hregion & _).
    destruct (mappings !! region req) as [mem|] eqn:Hrec.
    + destruct (deferred_step_recorded tasks c _ mem Hdef Hvalid Hregion Hrec)
        as (tasks' & Hrun & Hshape & _).
      left. exists tasks'. split; assumption.
    + right. eapply deferred_step_unrecorded; eassumption.
  - left. exists tasks. split; [apply deferred_step_skip; exact Hnot|].
    apply same_shape_refl.
Qed.

Lemma deferred_pass_ok (tasks0 : list Task) (cs : list MappingConstraint)
    (tasks : list Task) :
  Forall (valid_refs tasks0) cs -> same_shape tasks0 tasks ->
  (forall c, c ∈ cs -> deferred c -> recorded mappings tasks0 c) ->
  exists tasks',
    foldM (deferred_step mappings) tasks cs = Ok tasks' /\
    same_shape tasks0 tasks'.
Proof.
  intros Hvalid. revert tasks.
  induction Hvalid as [|c cs Hc _ IH]; intros tasks Hshape Hrec.
  - exists tasks. split; [reflexivity|exact Hshape].
  - cbn [foldM].
    assert (Hc' : valid_refs tasks c)
      by (eapply valid_refs_same_shape; eassumption).
    assert (Hstep : exists tasks1,
              deferred_step mappings tasks c = Ok tasks1 /\
              same_shape tasks tasks1).
    { destruct (decide (deferred c)) as [Hdef|Hnot].
      - destruct (Hrec c ltac:(left) Hdef) as (r & Hregion & [mem Hmem]).
        destruct (Hshape (t1 c) (idx1 c)) as (_ & Hreg & _).
        rewrite <- Hreg in Hregion.
        destruct (deferred_step_recorded tasks c r mem Hdef Hc' Hregion Hmem)
          as (tasks1 & Hrun & Hs & _).
        exists tasks1. split; assumption.
      - exists tasks. split; [apply deferred_step_skip; exact Hnot|].
        apply same_shape_refl. }
    destruct Hstep as (tasks1 & Hrun & Hs). rewrite Hrun.
    cbn [mbind result_bind]. apply IH.
    + eapply same_shape_trans; eassumption.
    + intros c' Hin. apply Hrec. right. exact Hin.
Qed.

Lemma deferred_pass_fails (tasks0 : list Task) (cs : list MappingConstraint)
    (tasks : list Task) (c : MappingConstraint) :
  Forall (valid_refs tasks0) cs -> same_shape tasks0 tasks ->
  c ∈ cs -> deferred c -> ~ recorded mappings tasks0 c ->
  foldM (deferred_step mappings) tasks cs = Abort AssertionFailed.
Proof.
  intros Hvalid. revert tasks.
  induction Hvalid as [|c0 cs Hc0 _ IH]; intros tasks Hshape Hin Hdef Hnot.
  - inversion Hin.
  - cbn [foldM].
    assert (Hc0' : valid_refs tasks c0)
      by (eapply valid_refs_same_shape; eassumption).
    destruct (deferred_step_cases tasks c0 Hc0') as [(tasks1 & Hrun & Hs)|Hfail].
    2:{ rewrite Hfail. reflexivity. }
    rewrite Hrun. cbn [mbind result_bind].
    apply elem_of_cons in Hin as [->|Hin].
    + exfalso.
      destruct (get_region_Some tasks _ _ (proj1 Hc0'))
        as (task & req & _ & _ & _ & _ & Hregion & _).
      destruct (mappings !! region req) as [mem|] eqn:Hrec.
      * apply Hnot. exists (region req). split; [|eauto].
        destruct (Hshape (t1 c0) (idx1 c0)) as (_ & Hreg & _). congruence.
      * rewrite (deferred_step_unrecorded tasks c0 _ Hdef Hc0' Hregion Hrec)
          in Hrun. discriminate.
    + apply IH; try assumption. eapply same_shape_trans; eassumption.
Qed.

Lemma deferred_writes_cons (tasks : list Task) (c : MappingConstraint)
    (cs : list MappingConstraint) :
  deferred_writes mappings tasks (c :: cs)
  = match deferred_memory mappings tasks c with
    | Some mem => side_writes c mem
    | None => []
    end ++ deferred_writes mappings tasks cs.
Proof. reflexivity. Qed.

(** The second loop as a list of writes. *)
Lemma deferred_pass_rankings (tasks0 : list Task) (cs : list MappingConstraint)
    (tasks tasks' : list Task) :
  Forall (valid_refs tasks0) cs -> same_shape tasks0 tasks ->
  foldM (deferred_step mappings) tasks cs = Ok tasks' ->
  same_shape tasks0 tasks' /\
  forall t idx,
    ranking_of tasks' t idx
    = ranking_after (deferred_writes mappings tasks0 cs) tasks t idx.
Proof.
  intros Hvalid. revert tasks.
  induction Hvalid as [|c cs Hc _ IH]; intros tasks Hshape Hrun.
  - injection Hrun as <-. split; [exact Hshape|]. intros t idx. reflexivity.
  - cbn [foldM] in Hrun. rewrite deferred_writes_cons.
    assert (Hc' : valid_refs tasks c)
      by (eapply valid_refs_same_shape; eassumption).
    destruct (decide (deferred c)) as [Hdef|Hnot].
    + destruct (get_region_Some tasks _ _ (proj1 Hc'))
        as (task & req & _ & _ & _ & _ & Hregion & _).
      assert (Hregion0 : region_of tasks0 (t1 c) (idx1 c) = Some (region req)).
      { destruct (Hshape (t1 c) (idx1 c)) as (_ & Hreg & _). congruence. }
      destruct (mappings !! region req) as [mem|] eqn:Hrec.
      * destruct (deferred_step_recorded tasks c _ mem Hdef Hc' Hregion Hrec)
          as (tasks1 & Hstep & Hs & _ & _ & Hfr).
        rewrite Hstep in Hrun. cbn [mbind result_bind] in Hrun.
        assert (Hmem : deferred_memory mappings tasks0 c = Some mem).
        { unfold deferred_memory. rewrite decide_True by exact Hdef.
          rewrite Hregion0. cbn [mbind option_bind]. exact Hrec. }
        rewrite Hmem.
        destruct (IH tasks1 (same_shape_trans _ _ _ Hshape Hs) Hrun)
          as [Hs' Hrank].
        split; [exact Hs'|]. eapply ranking_after_compose; eassumption.
      * rewrite (deferred_step_unrecorded tasks c _ Hdef Hc' Hregion Hrec)
          in Hrun. discriminate.
    + rewrite (deferred_step_skip tasks c Hnot) in Hrun.
      cbn [mbind result_bind] in Hrun.
      assert (Hmem : deferred_memory mappings tasks0 c = None).
      { unfold deferred_memory. rewrite decide_False by exact Hnot.
        reflexivity. }
      rewrite Hmem. cbn [app]. apply IH; assumption.
Qed.

(** When the second loop ends, every constraint it handled found a memory
    on record. *)
Lemma deferred_pass_memory (tasks0 : list Task) (cs : list MappingConstraint)
    (tasks tasks' : list Task) (c : MappingConstraint) :
  Forall (valid_refs tasks0) cs -> same_shape tasks0 tasks ->
  foldM (deferred_step mappings) tasks cs = Ok tasks' ->
  c ∈ cs -> deferred c ->
  recorded mappings tasks0 c /\
  is_Some (deferred_memory mappings tasks0 c).
Proof.
  intros Hvalid Hshape Hrun Hin Hdef.
  assert (Hc : valid_refs tasks0 c)
    by (rewrite Forall_forall in Hvalid; apply Hvalid; exact Hin).
  destruct (get_region_Some tasks0 _ _ (proj1 Hc))
    as (task & req & _ & _ & _ & _ & Hregion & _).
  destruct (mappings !! region req) as [mem|] eqn:Hrec.
  - split.
    + exists (region req). split; [exact Hregion|eauto].
    + exists mem. unfold deferred_memory. rewrite decide_True by exact Hdef.
      rewrite Hregion. cbn [mbind option_bind]. exact Hrec.
  - exfalso.
    rewrite (deferred_pass_fails tasks0 cs tasks c Hvalid Hshape Hin Hdef)
      in Hrun; [discriminate|].
    intros (r & Hr & [mem Hmem]). congruence.
Qed.

Lemma deferred_writes_elem (tasks : list Task) (cs : list MappingConstraint)
    (t idx mem : nat) :
  (t, idx, mem) ∈ deferred_writes mappings tasks cs ->
  exists c, c ∈ cs /\ deferred_memory mappings tasks c = Some mem /\
            (t, idx) ∈ slots c.
Proof.
  unfold deferred_writes. intros Hin.
  apply list_elem_of_bind in Hin as (c & Hin & Hc).
  exists c. split; [exact Hc|].
  destruct (deferred_memory mappings tasks c) as [mem'|]; [|inversion Hin].
  unfold side_writes in Hin. unfold slots.
  apply elem_of_cons in Hin as [Heq|Hin].
  - injection Heq as -> -> ->. split; [reflexivity|left].
  - apply elem_of_cons in Hin as [Heq|Hin]; [|inversion Hin].
    injection Heq as -> -> ->. split; [reflexivity|]. right. left.
Qed.

Lemma deferred_writes_intro (tasks : list Task) (cs : list MappingConstraint)
    (c : MappingConstraint) (t idx mem : nat) :
  c ∈ cs -> deferred_memory mappings tasks c = Some mem ->
  (t, idx) ∈ slots c ->
  (t, idx, mem) ∈ deferred_writes mappings tasks cs.
Proof.
  intros Hc Hmem Hs. unfold deferred_writes.
  apply list_elem_of_bind. exists c. split; [|exact Hc].
  rewrite Hmem. unfold side_writes. unfold slots in Hs.
  apply elem_of_cons in Hs as [Heq|Hs].
  - injection Heq as -> ->. left.
  - apply elem_of_cons in Hs as [Heq|Hs]; [|inversion Hs].
    injection Heq as -> ->. right. left.
Qed.

End DeferredFacts.

(** The store that [map_constraints] returns: every ranking is the memory
    of the last write to its slot, first loop before second, or the ranking
    the slot had. *)
Lemma map_constraints_rankings (m : StencilMapper) (tasks : list Task)
    (constraints : list MappingConstraint) (tasks2 : list Task) :
  Forall (valid_refs tasks) constraints ->
  map_constraints m tasks constraints = Ok tasks2 ->
  same_shape tasks tasks2 /\
  forall t idx,
    ranking_of tasks2 t idx = final_ranking m tasks constraints t idx.
Proof.
  intros Hvalid Hrun. unfold map_constraints in Hrun.
  destruct (primary_pass_rankings m tasks constraints tasks ∅ Hvalid
              (same_shape_refl tasks)) as (tasks1 & Hrun1 & Hs1 & Hrank1).
  rewrite Hrun1 in Hrun. cbn [mbind result_bind fst snd] in Hrun.
  destruct (deferred_pass_rankings _ tasks constraints tasks1 tasks2
              Hvalid Hs1 Hrun) as [Hs2 Hrank2].
  split; [exact Hs2|].
  unfold final_ranking, recorded_memories.
  eapply ranking_after_compose; eassumption.
Qed.

(** A constraint whose slots no other constraint names: in the store that
    is returned both its rankings are the one memory it decided on. *)
Lemma map_constraints_agreement (m : StencilMapper) (tasks : list Task)
    (constraints : list MappingConstraint) (tasks2 : list Task)
    (c : MappingConstraint) :
  Forall (valid_refs tasks) constraints ->
  map_constraints m tasks constraints = Ok tasks2 ->
  c ∈ constraints -> sole_writer constraints c ->
  exists mem,
    constraint_memory m tasks constraints c = Some mem /\
    ranking_of tasks2 (t1 c) (idx1 c) = Some [mem] /\
    ranking_of tasks2 (t2 c) (idx2 c) = Some [mem].
Proof.
  intros Hvalid Hrun Hin Hsole.
  destruct (map_constraints_rankings m tasks constraints tasks2 Hvalid Hrun)
    as [_ Hfinal].
  assert (Hc : valid_refs tasks c)
    by (rewrite Forall_forall in Hvalid; apply Hvalid; exact Hin).
  assert (Hmem : exists mem, constraint_memory m tasks constraints c = Some mem).
  { unfold constraint_memory. destruct (primary_side c) as [side|] eqn:Hside.
    - destruct (primary_step_ok m tasks ∅ c side Hside Hc)
        as (_ & mem & _ & Hmem & _).
      exists mem. exact Hmem.
    - unfold map_constraints in Hrun.
      destruct (primary_pass_rankings m tasks constraints tasks ∅ Hvalid
                  (same_shape_refl tasks)) as (tasks1 & Hrun1 & Hs1 & _).
      rewrite Hrun1 in Hrun. cbn [mbind result_bind fst snd] in Hrun.
      apply (deferred_pass_memory _ tasks constraints tasks1 tasks2 c
               Hvalid Hs1 Hrun Hin).
      apply primary_side_deferred. exact Hside. }
  destruct Hmem as [mem Hmem]. exists mem. split; [exact Hmem|].
  assert (Hslot : forall t idx, (t, idx) ∈ slots c ->
            ranking_of tasks2 t idx = Some [mem]).
  { intros t idx Hs. rewrite Hfinal. unfold final_ranking, ranking_after.
    rewrite (last_write_agree _ t idx mem); [reflexivity| |].
    - apply elem_of_app. unfold constraint_memory in Hmem.
      destruct (primary_side c) eqn:Hside.
      + left. eapply primary_writes_intro; eassumption.
      + right. eapply deferred_writes_intro; eassumption.
    - intros mem' Hin'. apply elem_of_app in Hin' as [Hp|Hd].
      + apply primary_writes_elem in Hp as (c' & Hc' & Hmem' & Hs').
        destruct (decide (c' = c)) as [->|Hne].
        * unfold constraint_memory in Hmem.
          destruct (primary_side c) eqn:Hside; [congruence|].
          rewrite (primary_memory_deferred m tasks c Hside) in Hmem'.
          discriminate.
        * exfalso. exact (Hsole c' (t, idx) Hc' Hne Hs Hs').
      + apply deferred_writes_elem in Hd as (c' & Hc' & Hmem' & Hs').
        destruct (decide (c' = c)) as [->|Hne].
        * unfold constraint_memory in Hmem.
          destruct (primary_side c) eqn:Hside; [|congruence].
          unfold deferred_memory in Hmem'.
          destruct (decide (deferred c)) as [Hdef|]; [|discriminate].
          apply primary_side_deferred in Hdef. congruence.
        * exfalso. exact (Hsole c' (t, idx) Hc' Hne Hs Hs'). }
  split; apply Hslot; unfold slots; [left|right; left].
Qed.



(** * The tiles of the grid and the set-up of a shard *)

Import Shards Geometry.

(** ** Tiles, halo boxes and private boxes *)

(** One axis of a tile that is wider than the radius. *)
Lemma private_axis n R P w t :
  1 <= R < w -> n = P * w -> 0 <= t < P ->
  (0 < t -> Z.max (t * w - R) 0 = t * w - R /\ 0 < t * w - R) /\
  (t = 0 -> Z.max (t * w - R) 0 = 0 /\ t * w = 0) /\
  (t < P - 1 -> Z.min ((t + 1) * w + R) n - 1 = (t + 1) * w + R - 1
                /\ (t + 1) * w + R - 1 < n - 1) /\
  (t = P - 1 -> Z.min ((t + 1) * w + R) n - 1 = n - 1 /\ (t + 1) * w = n).
Proof.
  intros HR Hn Ht.
  assert (0 < t -> w <= t * w) by nia.
  assert (t < P - 1 -> (t + 1) * w + w <= n) by nia.
  assert (t = P - 1 -> (t + 1) * w = n) by nia.
  assert (t = 0 -> t * w = 0) by nia.
  repeat split; intros; lia.
Qed.

Lemma tile_width n P w t : 0 < n -> n = P * w -> 0 <= t < P -> 0 < P /\ 0 < w.
Proof. intros Hn -> Ht. nia. Qed.

Lemma tile_private_box_eq n R Px Py wx wy tx ty :
  0 < n -> n + R <= INT_MAX ->
  1 <= R < wx -> 1 <= R < wy -> n = Px * wx -> n = Py * wy ->
  0 <= tx < Px -> 0 <= ty < Py ->
  tile_private_box n R Px Py tx ty = tile_box wx wy tx ty.
Proof.
  intros Hn Hmax Hwx Hwy Hnx Hny Hx Hy.
  unfold tile_private_box, privateBox, tile_box.
  rewrite (quot_exact n Px wx), (quot_exact n Py wy) by lia.
  rewrite (tileDomain_exact n R Px Py wx wy) by (assumption || lia).
  rewrite shrink_eq. cbn [lo hi p0 p1].
  destruct (private_axis n R Px wx tx Hwx Hnx Hx) as (Ha & Hb & Hc & Hd).
  destruct (private_axis n R Py wy ty Hwy Hny Hy) as (Ha' & Hb' & Hc' & Hd').
  f_equal; f_equal; case_decide; lia.
Qed.

Lemma divisor_positive n P : 0 < n -> (P | n) -> 0 < n `quot` P -> 0 < P.
Proof.
  intros Hn [k ->] Hq.
  destruct (Z.lt_trichotomy P 0) as [Hneg|[->|Hpos]]; [|lia|exact Hpos].
  rewrite Z.quot_mul in Hq by lia. nia.
Qed.

Lemma tile_of_cell P w n x :
  0 < w -> n = P * w -> 0 <= x < n ->
  0 <= x / w < P /\ (x / w) * w <= x <= (x / w + 1) * w - 1.
Proof.
  intros Hw -> Hx.
  pose proof (Z.div_mod x w ltac:(lia)) as Hdm.
  pose proof (Z.mod_pos_bound x w Hw) as Hmod.
  assert (0 <= x / w) by (apply Z.div_pos; lia).
  assert (x / w < P).
  { apply Z.div_lt_upper_bound; [lia|]. rewrite Z.mul_comm. lia. }
  lia.
Qed.

Lemma tile_unique w t t' x :
  0 < w ->
  t * w <= x <= (t + 1) * w - 1 -> t' * w <= x <= (t' + 1) * w - 1 ->
  t = t'.
Proof. intros Hw Ht Ht'. nia. Qed.

(** X1.  When the tiles are wider than the radius, the private region of
    every shard is the tile's own block of [n / Px] by [n / Py] cells, so
    the private regions of the shards partition the grid: every cell of the
    grid lies in the private box of exactly one tile. *)
Theorem private_boxes_partition_grid (n R Px Py : Z) :
  1 <= R -> 0 < n -> n + R <= INT_MAX -> (Px | n) -> (Py | n) ->
  R < n `quot` Px -> R < n `quot` Py ->
  (forall tx ty, 0 <= tx < Px -> 0 <= ty < Py ->
     tile_private_box n R Px Py tx ty
     = tile_box (n `quot` Px) (n `quot` Py) tx ty) /\
  (forall x y, 0 <= x < n -> 0 <= y < n ->
     exists tx ty,
       (0 <= tx < Px /\ 0 <= ty < Py) /\
       in_rect (tile_private_box n R Px Py tx ty) x y) /\
  (forall tx ty tx' ty' x y,
     0 <= tx < Px -> 0 <= ty < Py -> 0 <= tx' < Px -> 0 <= ty' < Py ->
     in_rect (tile_private_box n R Px Py tx ty) x y ->
     in_rect (tile_private_box n R Px Py tx' ty') x y ->
     tx = tx' /\ ty = ty') /\
  (forall tx ty x y, 0 <= tx < Px -> 0 <= ty < Py ->
     in_rect (tile_private_box n R Px Py tx ty) x y ->
     0 <= x < n /\ 0 <= y < n).
Proof.
  intros HR Hn Hmax Hdx Hdy Hwx Hwy.
  assert (HPx : 0 < Px) by (apply (divisor_positive n); [assumption..|lia]).
  assert (HPy : 0 < Py) by (apply (divisor_positive n); [assumption..|lia]).
  destruct Hdx as [wx Hnx], Hdy as [wy Hny].
  rewrite Z.mul_comm in Hnx, Hny.
  rewrite (quot_exact n Px wx) in * by lia.
  rewrite (quot_exact n Py wy) in * by lia.
  assert (Hbox : forall tx ty, 0 <= tx < Px -> 0 <= ty < Py ->
    tile_private_box n R Px Py tx ty = tile_box wx wy tx ty).
  { intros tx ty Hx Hy. apply tile_private_box_eq; lia. }
  split; [exact Hbox|]. split; [|split].
  - intros x y Hx Hy.
    destruct (tile_of_cell Px wx n x ltac:(lia) Hnx Hx) as [Htx Hin].
    destruct (tile_of_cell Py wy n y ltac:(lia) Hny Hy) as [Hty Hin'].
    exists (x / wx), (y / wy). split; [lia|].
    rewrite Hbox by lia. unfold tile_box. rewrite in_rect_box. lia.
  - intros tx ty tx' ty' x y Hx Hy Hx' Hy'.
    rewrite !Hbox by lia. unfold tile_box. rewrite !in_rect_box.
    intros [H1 H2] [H3 H4]. split.
    + apply (tile_unique wx tx tx' x); lia.
    + apply (tile_unique wy ty ty' y); lia.
  - intros tx ty x y Hx Hy. rewrite Hbox by lia.
    unfold tile_box. rewrite in_rect_box. intros [H1 H2].
    assert (0 <= tx * wx) by nia. assert ((tx + 1) * wx <= n) by nia.
    assert (0 <= ty * wy) by nia. assert ((ty + 1) * wy <= n) by nia.
    lia.
Qed.

Lemma private_boxes_partition_grid_witness :
  tile_private_box 8 1 2 4 1 2 = tile_box (8 `quot` 2) (8 `quot` 4) 1 2.
Proof.
  apply (private_boxes_partition_grid 8 1 2 4);
    try lia; try (vm_compute; reflexivity); try (vm_compute; discriminate);
    [exists 4; reflexivity | exists 2; reflexivity].
Defined.

(** ** The halo partition of a shard *)

Lemma createHaloPartition_lookup n R haloBox d :
  createHaloPartition n R haloBox !! gid d = halo_table n R haloBox d.
Proof.
  unfold createHaloPartition, halo_table. cbv zeta.
  generalize (shrink n R haloBox). intros bb.
  destruct (0 <? p0 (lo bb)), (0 <? p1 (lo bb)),
    (p0 (hi bb) <? n - 1), (p1 (hi bb) <? n - 1);
    destruct d; reflexivity.
Qed.

(** One axis of the halo box of a tile, for any tile width: the bounding
    box after the shrink loop, relative to the halo box. *)
Lemma halo_shrink_axis n R P w t :
  1 <= R -> 0 < n -> n = P * w -> 0 <= t < P ->
  let l := Z.max (t * w - R) 0 in
  let h := Z.min ((t + 1) * w + R) n - 1 in
  let l' := if decide (l <> 0) then l + R else l in
  let h' := if decide (h <> n - 1) then h - R else h in
  0 <= l <= h /\ h <= n - 1 /\ l <= l' /\ h' <= h /\
  l' - 1 <= h /\ l <= h' + 1 /\
  (0 < l' -> h' < n - 1 -> l' - 1 < h' + 1).
Proof.
  intros HR Hn Hnw Ht l h l' h'. subst l h l' h'.
  assert (0 < w) by nia.
  assert (0 <= t * w) by nia.
  assert ((t + 1) * w <= n) by nia.
  repeat case_decide; lia.
Qed.

Ltac case_ltb_in H :=
  repeat match type of H with
         | context [?a <? ?b] => destruct (Z.ltb_spec a b)
         end.

Lemma halo_colours_disjoint n R haloBox :
  let bb := shrink n R haloBox in
  p0 (lo haloBox) <= p0 (lo bb) -> p0 (hi bb) <= p0 (hi haloBox) ->
  p1 (lo haloBox) <= p1 (lo bb) -> p1 (hi bb) <= p1 (hi haloBox) ->
  p0 (lo bb) - 1 <= p0 (hi haloBox) -> p0 (lo haloBox) <= p0 (hi bb) + 1 ->
  p1 (lo bb) - 1 <= p1 (hi haloBox) -> p1 (lo haloBox) <= p1 (hi bb) + 1 ->
  (0 < p0 (lo bb) -> p0 (hi bb) < n - 1 -> p0 (lo bb) - 1 < p0 (hi bb) + 1) ->
  (0 < p1 (lo bb) -> p1 (hi bb) < n - 1 -> p1 (lo bb) - 1 < p1 (hi bb) + 1) ->
  (forall d d' x y,
     ghost_cells (createHaloPartition n R haloBox) d x y ->
     ghost_cells (createHaloPartition n R haloBox) d' x y -> d = d') /\
  (forall d x y,
     ghost_cells (createHaloPartition n R haloBox) d x y ->
     in_rect haloBox x y).
Proof.
  intros bb Hlx Hhx Hly Hhy Hix Hix' Hiy Hiy' Hsx Hsy.
  pose proof (createHaloPartition_lookup n R haloBox) as Htab.
  unfold halo_table in Htab. fold bb in Htab. clearbody bb.
  destruct bb as [[blx bly] [bhx bhy]], haloBox as [[hlx hly] [hhx hhy]].
  cbn [lo hi p0 p1] in *.
  unfold ghost_cells, in_rect. split.
  - intros d d' x y [r [Hr Hin]] [r' [Hr' Hin']].
    rewrite Htab in Hr, Hr'. clear Htab.
    destruct d, d'; try reflexivity; exfalso;
      case_ltb_in Hr; try discriminate;
      case_ltb_in Hr'; try discriminate;
      injection Hr as <-; injection Hr' as <-;
      cbn [lo hi p0 p1] in Hin, Hin'; lia.
  - intros d x y [r [Hr Hin]].
    rewrite Htab in Hr. clear Htab.
    destruct d; case_ltb_in Hr; try discriminate;
      injection Hr as <-; cbn [lo hi p0 p1] in Hin |- *; lia.
Qed.

(** X2.  For every tile of a grid that the command line accepts, whatever
    the tile width, the colours of the halo partition (the four ghost
    strips and the private box) are pairwise disjoint, as the
    [DISJOINT_KIND] of the partition says, and lie inside the halo box. *)
Theorem halo_partition_disjoint (n R Px Py tx ty : Z) :
  1 <= R -> 0 < n -> n + R <= INT_MAX -> (Px | n) -> (Py | n) ->
  0 <= tx < Px -> 0 <= ty < Py ->
  let haloBox := tile_halo_box n R Px Py tx ty in
  let coloring := createHaloPartition n R haloBox in
  (forall d d' x y,
     ghost_cells coloring d x y -> ghost_cells coloring d' x y -> d = d') /\
  (forall d x y, ghost_cells coloring d x y -> in_rect haloBox x y).
Proof.
  intros HR Hn Hmax [wx Hnx] [wy Hny] Hx Hy haloBox coloring.
  rewrite Z.mul_comm in Hnx, Hny.
  subst coloring haloBox. unfold tile_halo_box.
  rewrite (quot_exact n Px wx), (quot_exact n Py wy) by lia.
  rewrite (tileDomain_exact n R Px Py wx wy) by (assumption || lia).
  pose proof (halo_shrink_axis n R Px wx tx HR Hn Hnx Hx) as Hax.
  pose proof (halo_shrink_axis n R Py wy ty HR Hn Hny Hy) as Hay.
  cbv zeta in Hax, Hay.
  apply halo_colours_disjoint; rewrite shrink_eq;
    cbn [lo hi p0 p1]; lia.
Qed.

Lemma halo_partition_disjoint_witness :
  (forall d d' x y,
     ghost_cells (createHaloPartition 9 2 (tile_halo_box 9 2 1 3 0 1)) d x y ->
     ghost_cells (createHaloPartition 9 2 (tile_halo_box 9 2 1 3 0 1)) d' x y ->
     d = d') /\
  (forall d x y,
     ghost_cells (createHaloPartition 9 2 (tile_halo_box 9 2 1 3 0 1)) d x y ->
     in_rect (tile_halo_box 9 2 1 3 0 1) x y).
Proof.
  apply (halo_partition_disjoint 9 2 1 3 0 1);
    try lia; try (vm_compute; discriminate);
    [exists 9; reflexivity | exists 3; reflexivity].
Defined.

Lemma tile_private_box_halo n R Px Py tx ty :
  tile_private_box n R Px Py tx ty
  = shrink n R (tile_halo_box n R Px Py tx ty).
Proof. reflexivity. Qed.

Lemma tile_halo_box_eq n R Px Py wx wy tx ty :
  0 < n -> n + R <= INT_MAX ->
  1 <= R < wx -> 1 <= R < wy -> n = Px * wx -> n = Py * wy ->
  0 <= tx < Px -> 0 <= ty < Py ->
  tile_halo_box n R Px Py tx ty
  = Rect (make_point (if 0 <? tx then tx * wx - R else 0)
                     (if 0 <? ty then ty * wy - R else 0))
         (make_point (if tx <? Px - 1 then (tx + 1) * wx + R - 1
                      else (tx + 1) * wx - 1)
                     (if ty <? Py - 1 then (ty + 1) * wy + R - 1
                      else (ty + 1) * wy - 1)).
Proof.
  intros Hn Hmax Hwx Hwy Hnx Hny Hx Hy.
  unfold tile_halo_box.
  rewrite (quot_exact n Px wx), (quot_exact n Py wy) by lia.
  rewrite (tileDomain_exact n R Px Py wx wy) by (assumption || lia).
  destruct (private_axis n R Px wx tx Hwx Hnx Hx) as (Ha & Hb & Hc & Hd).
  destruct (private_axis n R Py wy ty Hwy Hny Hy) as (Ha' & Hb' & Hc' & Hd').
  f_equal; f_equal;
    match goal with
    | |- _ = if ?a <? ?b then _ else _ => destruct (Z.ltb_spec a b); lia
    end.
Qed.

Lemma halo_table_tile n R Px Py wx wy tx ty d :
  0 < n -> n + R <= INT_MAX ->
  1 <= R < wx -> 1 <= R < wy -> n = Px * wx -> n = Py * wy ->
  0 <= tx < Px -> 0 <= ty < Py ->
  halo_table n R (tile_halo_box n R Px Py tx ty) d
  = tile_ghost_strip R Px Py wx wy tx ty d.
Proof.
  intros Hn Hmax Hwx Hwy Hnx Hny Hx Hy.
  pose proof (tile_private_box_eq n R Px Py wx wy tx ty
                Hn Hmax Hwx Hwy Hnx Hny Hx Hy) as Hbox.
  rewrite tile_private_box_halo in Hbox.
  pose proof (tile_halo_box_eq n R Px Py wx wy tx ty
                Hn Hmax Hwx Hwy Hnx Hny Hx Hy) as Hhalo.
  revert Hbox Hhalo. generalize (tile_halo_box n R Px Py tx ty).
  intros haloBox Hbox ->.
  unfold halo_table. cbv zeta. rewrite Hbox. clear Hbox.
  unfold tile_box, tile_ghost_strip. cbn [lo hi p0 p1].
  assert (0 < tx -> 0 < tx * wx) by nia.
  assert (tx = 0 -> tx * wx = 0) by nia.
  assert (0 < ty -> 0 < ty * wy) by nia.
  assert (ty = 0 -> ty * wy = 0) by nia.
  assert (tx < Px - 1 -> (tx + 1) * wx < n) by nia.
  assert (tx = Px - 1 -> (tx + 1) * wx = n) by nia.
  assert (ty < Py - 1 -> (ty + 1) * wy < n) by nia.
  assert (ty = Py - 1 -> (ty + 1) * wy = n) by nia.
  destruct d; try reflexivity.
  - destruct (Z.ltb_spec 0 tx), (Z.ltb_spec 0 (tx * wx));
      try reflexivity; lia.
  - destruct (Z.ltb_spec 0 ty), (Z.ltb_spec 0 (ty * wy));
      try reflexivity; lia.
  - destruct (Z.ltb_spec tx (Px - 1)), (Z.ltb_spec ((tx + 1) * wx - 1) (n - 1));
      try reflexivity; try lia.
    replace ((tx + 1) * wx - 1 + 1) with ((tx + 1) * wx) by lia. reflexivity.
  - destruct (Z.ltb_spec ty (Py - 1)), (Z.ltb_spec ((ty + 1) * wy - 1) (n - 1));
      try reflexivity; try lia.
    replace ((ty + 1) * wy - 1 + 1) with ((ty + 1) * wy) by lia. reflexivity.
Qed.

Lemma neighborCoords_spec tx ty :
  INT_MIN < tx < INT_MAX -> INT_MIN < ty < INT_MAX ->
  neighborCoords tx ty 0 = (tx + -1, ty + 0) /\
  neighborCoords tx ty 1 = (tx + 0, ty + -1) /\
  neighborCoords tx ty 2 = (tx + 1, ty + 0) /\
  neighborCoords tx ty 3 = (tx + 0, ty + 1).
Proof.
  intros Hx Hy. unfold neighborCoords, int_add. cbn.
  rewrite !to_int_id by lia. repeat split; reflexivity.
Qed.

Lemma has_neighbor_tile_spec Px Py tx ty :
  Px < INT_MAX -> Py < INT_MAX ->
  0 <= tx < Px -> 0 <= ty < Py ->
  has_neighbor_tile Px Py tx ty 0 = (0 <? tx) /\
  has_neighbor_tile Px Py tx ty 1 = (0 <? ty) /\
  has_neighbor_tile Px Py tx ty 2 = (tx <? Px - 1) /\
  has_neighbor_tile Px Py tx ty 3 = (ty <? Py - 1).
Proof.
  intros HPx HPy Hx Hy. unfold has_neighbor_tile, off_grid.
  assert (Hmin : INT_MIN < 0) by reflexivity.
  destruct (neighborCoords_spec tx ty ltac:(lia) ltac:(lia))
    as (-> & -> & -> & ->).
  cbn [fst snd].
  repeat split;
    repeat match goal with
           | |- context [?a <? ?b] => destruct (Z.ltb_spec a b)
           | |- context [?a <=? ?b] => destruct (Z.leb_spec a b)
           end; cbn; try reflexivity; lia.
Qed.

(** The grid is narrower than [INT_MAX] tiles. *)
Lemma grid_below_int_max n R P w :
  0 < n -> n + R <= INT_MAX -> 1 <= R < w -> n = P * w -> P < INT_MAX.
Proof. intros Hn Hmax Hw Hnw. nia. Qed.

Lemma hasNeighbor_tile n R Px Py wx wy tx ty :
  0 < n -> n + R <= INT_MAX ->
  1 <= R < wx -> 1 <= R < wy -> n = Px * wx -> n = Py * wy ->
  0 <= tx < Px -> 0 <= ty < Py ->
  hasNeighbor n (tile_halo_box n R Px Py tx ty)
  = [0 <? tx; 0 <? ty; tx <? Px - 1; ty <? Py - 1].
Proof.
  intros Hn Hmax Hwx Hwy Hnx Hny Hx Hy.
  unfold hasNeighbor, tile_halo_box.
  rewrite (quot_exact n Px wx), (quot_exact n Py wy) by lia.
  rewrite (tileDomain_exact n R Px Py wx wy) by (assumption || lia).
  cbn [lo hi p0 p1].
  destruct (private_axis n R Px wx tx Hwx Hnx Hx) as (Ha & Hb & Hc & Hd).
  destruct (private_axis n R Py wy ty Hwy Hny Hy) as (Ha' & Hb' & Hc' & Hd').
  f_equal; [|f_equal; [|f_equal; [|f_equal]]];
    match goal with
    | |- negb (?a =? ?b) = (?c <? ?d) =>
        destruct (Z.eqb_spec a b), (Z.ltb_spec c d); cbn;
        try reflexivity; lia
    end.
Qed.

(** X3.  When the tiles are wider than the radius, the halo partition of a
    shard has a ghost strip in a direction exactly when the tile has a
    neighbour tile there, the shard's [hasNeighbor] flag says the same, and
    the strip is the part of that neighbour's private box that lies inside
    the shard's halo box: [R] columns or rows next to the tile. *)
Theorem ghost_strips_of_tile (n R Px Py tx ty : Z) :
  1 <= R -> 0 < n -> n + R <= INT_MAX -> (Px | n) -> (Py | n) ->
  R < n `quot` Px -> R < n `quot` Py ->
  0 <= tx < Px -> 0 <= ty < Py ->
  let haloBox := tile_halo_box n R Px Py tx ty in
  let coloring := createHaloPartition n R haloBox in
  (forall d, coloring !! gid d
             = tile_ghost_strip R Px Py (n `quot` Px) (n `quot` Py) tx ty d) /\
  (forall dir, (dir < 4)%nat ->
     let nb := neighborCoords tx ty dir in
     hasNeighbor n haloBox !! dir = Some (has_neighbor_tile Px Py tx ty dir) /\
     (has_neighbor_tile Px Py tx ty dir = false -> coloring !! dir = None) /\
     (has_neighbor_tile Px Py tx ty dir = true ->
        exists strip,
          coloring !! dir = Some strip /\
          forall x y,
            in_rect strip x y <->
            in_rect (tile_private_box n R Px Py nb.1 nb.2) x y /\
            in_rect haloBox x y)).
Proof.
  intros HR Hn Hmax [wx Hnx] [wy Hny] Hwx Hwy Hx Hy haloBox coloring.
  rewrite Z.mul_comm in Hnx, Hny.
  rewrite (quot_exact n Px wx) in * by lia.
  rewrite (quot_exact n Py wy) in * by lia.
  assert (Hcol : forall d, coloring !! gid d
                           = tile_ghost_strip R Px Py wx wy tx ty d).
  { intros d. subst coloring haloBox.
    rewrite createHaloPartition_lookup. apply halo_table_tile; lia. }
  split; [exact Hcol|].
  pose proof (grid_below_int_max n R Px wx Hn Hmax ltac:(lia) Hnx) as HPx.
  pose proof (grid_below_int_max n R Py wy Hn Hmax ltac:(lia) Hny) as HPy.
  destruct (has_neighbor_tile_spec Px Py tx ty HPx HPy Hx Hy)
    as (H0 & H1 & H2 & H3).
  assert (Hmin : INT_MIN < 0) by reflexivity.
  destruct (neighborCoords_spec tx ty ltac:(lia) ltac:(lia))
    as (N0 & N1 & N2 & N3).
  assert (Hhas : hasNeighbor n haloBox
                 = [0 <? tx; 0 <? ty; tx <? Px - 1; ty <? Py - 1])
    by (apply (hasNeighbor_tile n R Px Py wx wy); lia).
  assert (Hhalo := tile_halo_box_eq n R Px Py wx wy tx ty
                     Hn Hmax ltac:(lia) ltac:(lia) Hnx Hny Hx Hy).
  fold haloBox in Hhalo. clearbody haloBox. subst haloBox. clearbody coloring.
  assert (E1 : (tx + -1) * wx = tx * wx - wx) by ring.
  assert (E2 : (tx + -1 + 1) * wx = tx * wx) by ring.
  assert (E3 : (ty + -1) * wy = ty * wy - wy) by ring.
  assert (E4 : (ty + -1 + 1) * wy = ty * wy) by ring.
  assert (E5 : (tx + 1 + 1) * wx = (tx + 1) * wx + wx) by ring.
  assert (E6 : (ty + 1 + 1) * wy = (ty + 1) * wy + wy) by ring.
  assert (E7 : (tx + 1) * wx = tx * wx + wx) by ring.
  assert (E8 : (ty + 1) * wy = ty * wy + wy) by ring.
  assert (E9 : tx + 0 = tx) by ring.
  assert (E10 : ty + 0 = ty) by ring.
  assert (F1 : 0 <= tx * wx) by nia.
  assert (F2 : 0 <= ty * wy) by nia.
  assert (F3 : 0 < tx -> wx <= tx * wx) by nia.
  assert (F4 : 0 < ty -> wy <= ty * wy) by nia.
  intros dir Hdir nb. subst nb.
  destruct dir as [|[|[|[|dir]]]]; [| | | |lia];
    rewrite Hhas; (split; [cbn; congruence|]);
    [ rewrite H0; pose proof (Hcol GHOST_LEFT) as Hc
    | rewrite H1; pose proof (Hcol GHOST_UP) as Hc
    | rewrite H2; pose proof (Hcol GHOST_RIGHT) as Hc
    | rewrite H3; pose proof (Hcol GHOST_DOWN) as Hc ];
    cbn [gid] in Hc; rewrite Hc; clear Hc Hcol;
    unfold tile_ghost_strip;
    rewrite ?N0, ?N1, ?N2, ?N3; cbn [fst snd];
    (split; [intros ->; reflexivity|]); intros Hlt; rewrite Hlt;
    apply Z.ltb_lt in Hlt;
    (eexists; split; [reflexivity|]); intros x y;
    rewrite (tile_private_box_eq n R Px Py wx wy) by lia;
    unfold tile_box; rewrite !in_rect_box;
    rewrite ?E9, ?E10, ?E1, ?E2, ?E3, ?E4, ?E5, ?E6, ?E7, ?E8;
    repeat match goal with
           | |- context [?a <? ?b] => destruct (Z.ltb_spec a b)
           end; lia.
Qed.

Lemma ghost_strips_of_tile_witness :
  (forall d, createHaloPartition 8 1 (tile_halo_box 8 1 2 2 1 0) !! gid d
             = tile_ghost_strip 1 2 2 (8 `quot` 2) (8 `quot` 2) 1 0 d) /\
  (forall dir, (dir < 4)%nat ->
     hasNeighbor 8 (tile_halo_box 8 1 2 2 1 0) !! dir
     = Some (has_neighbor_tile 2 2 1 0 dir) /\
     (has_neighbor_tile 2 2 1 0 dir = false ->
      createHaloPartition 8 1 (tile_halo_box 8 1 2 2 1 0) !! dir = None) /\
     (has_neighbor_tile 2 2 1 0 dir = true ->
        exists strip,
          createHaloPartition 8 1 (tile_halo_box 8 1 2 2 1 0) !! dir
          = Some strip /\
          forall x y,
            in_rect strip x y <->
            in_rect (tile_private_box 8 1 2 2 (neighborCoords 1 0 dir).1
                       (neighborCoords 1 0 dir).2) x y /\
            in_rect (tile_halo_box 8 1 2 2 1 0) x y)).
Proof.
  apply (ghost_strips_of_tile 8 1 2 2 1 0);
    try lia; try (vm_compute; reflexivity); try (vm_compute; discriminate);
    exists 4; reflexivity.
Defined.

(** ** The boundary sectors of a tile and its neighbours *)

Lemma sector_flag_tile n R Px Py wx wy tx ty b :
  1 <= R < wx -> 1 <= R < wy -> n = Px * wx -> n = Py * wy ->
  0 <= tx < Px -> 0 <= ty < Py ->
  sector_flag n R (tile_box wx wy tx ty) b
  = match b with
    | LEFT => 0 <? tx
    | LEFT_UP => (0 <? tx) && (0 <? ty)
    | UP => 0 <? ty
    | UP_RIGHT => (0 <? ty) && (tx <? Px - 1)
    | RIGHT => tx <? Px - 1
    | RIGHT_DOWN => (tx <? Px - 1) && (ty <? Py - 1)
    | DOWN => ty <? Py - 1
    | DOWN_LEFT => (ty <? Py - 1) && (0 <? tx)
    | INTERIOR => false
    end.
Proof.
  intros Hwx Hwy Hnx Hny Hx Hy.
  assert (Hl : forall P w t, 1 <= R < w -> n = P * w -> 0 <= t < P ->
    (0 <? (if decide (t * w <> 0) then t * w + R else t * w)) = (0 <? t)).
  { intros P w t Hw Hn Ht. assert (0 <= t * w) by nia.
    assert (0 < t -> 0 < t * w) by nia.
    assert (t = 0 -> t * w = 0) by nia.
    case_decide;
      match goal with
      | |- (?a <? ?b) = (?c <? ?d) =>
          destruct (Z.ltb_spec a b), (Z.ltb_spec c d); try reflexivity; lia
      end. }
  assert (Hh : forall P w t, 1 <= R < w -> n = P * w -> 0 <= t < P ->
    ((if decide ((t + 1) * w - 1 <> n - 1) then (t + 1) * w - 1 - R
      else (t + 1) * w - 1) <? n - 1) = (t <? P - 1)).
  { intros P w t Hw Hn Ht. assert ((t + 1) * w <= n) by nia.
    assert (t < P - 1 -> (t + 1) * w < n) by nia.
    assert (t = P - 1 -> (t + 1) * w = n) by nia.
    case_decide;
      match goal with
      | |- (?a <? ?b) = (?c <? ?d) =>
          destruct (Z.ltb_spec a b), (Z.ltb_spec c d); try reflexivity; lia
      end. }
  unfold sector_flag. rewrite shrink_eq. unfold tile_box. cbn [lo hi p0 p1].
  rewrite (Hl Px wx tx), (Hl Py wy ty), (Hh Px wx tx), (Hh Py wy ty)
    by assumption.
  destruct b; reflexivity.
Qed.

(** X4.  When the tiles are wider than the radius, a boundary sector
    exists, and a boundary task is launched for it, exactly when the tile
    has a neighbour tile in every ghost direction next to the sector; the
    ghost regions that the launcher of an existing sector names are then
    ghost strips that exist. *)
Theorem boundary_sectors_of_tile (n R Px Py tx ty : Z) :
  1 <= R -> 0 < n -> n + R <= INT_MAX -> (Px | n) -> (Py | n) ->
  R < n `quot` Px -> R < n `quot` Py ->
  0 <= tx < Px -> 0 <= ty < Py ->
  let st := createBoundaryPartition n R (tile_private_box n R Px Py tx ty)
              (replicate 9 false) in
  let ghosts := createHaloPartition n R (tile_halo_box n R Px Py tx ty) in
  forall b,
    (sector_exists st b <->
     b <> INTERIOR /\
     forall d, d ∈ adjacent_ghosts b ->
               has_neighbor_tile Px Py tx ty (gid d) = true) /\
    (sector_exists st b ->
     forall d, d ∈ adjacent_ghosts b -> is_Some (ghosts !! gid d)).
Proof.
  intros HR Hn Hmax [wx Hnx] [wy Hny] Hwx Hwy Hx Hy st ghosts b.
  rewrite Z.mul_comm in Hnx, Hny.
  rewrite (quot_exact n Px wx) in * by lia.
  rewrite (quot_exact n Py wy) in * by lia.
  pose proof (grid_below_int_max n R Px wx Hn Hmax ltac:(lia) Hnx) as HPx.
  pose proof (grid_below_int_max n R Py wy Hn Hmax ltac:(lia) Hny) as HPy.
  assert (Hex : sector_exists st b <->
    b <> INTERIOR /\
    forall d, d ∈ adjacent_ghosts b ->
              has_neighbor_tile Px Py tx ty (gid d) = true).
  { unfold sector_exists. subst st.
    rewrite createBoundaryPartition_flags.
    rewrite (tile_private_box_eq n R Px Py wx wy) by lia.
    rewrite (sector_flag_tile n R Px Py wx wy) by lia.
    destruct (has_neighbor_tile_spec Px Py tx ty HPx HPy Hx Hy)
      as (H0 & H1 & H2 & H3).
    assert (Hiff : forall (c : bool), Some c = Some true <-> c = true).
    { intros c. split; [intros [= ->]|intros ->]; reflexivity. }
    rewrite Hiff.
    destruct b; cbn [adjacent_ghosts];
      rewrite ?andb_true_iff;
      (split;
       [ intros Hb; split; [discriminate|];
         intros d Hd; rewrite ?elem_of_cons in Hd;
         repeat destruct Hd as [->|Hd]; cbn [gid];
         rewrite ?H0, ?H1, ?H2, ?H3; try tauto; inversion Hd
       | intros [Hne Hall] ]);
      try (exfalso; apply Hne; reflexivity);
      repeat split;
      first [ rewrite <- H0; apply (Hall GHOST_LEFT)
            | rewrite <- H1; apply (Hall GHOST_UP)
            | rewrite <- H2; apply (Hall GHOST_RIGHT)
            | rewrite <- H3; apply (Hall GHOST_DOWN) ];
      rewrite ?elem_of_cons; tauto. }
  split; [exact Hex|].
  intros Hb d Hd. apply Hex in Hb as [_ Hall]. specialize (Hall d Hd).
  subst ghosts. rewrite createHaloPartition_lookup.
  rewrite (halo_table_tile n R Px Py wx wy) by lia.
  destruct (has_neighbor_tile_spec Px Py tx ty HPx HPy Hx Hy)
    as (H0 & H1 & H2 & H3).
  unfold tile_ghost_strip.
  destruct d; cbn [gid] in Hall;
    rewrite ?H0, ?H1, ?H2, ?H3 in Hall; rewrite ?Hall; eexists; reflexivity.
Qed.

Lemma boundary_sectors_of_tile_witness :
  (sector_exists
     (createBoundaryPartition 8 1 (tile_private_box 8 1 2 2 1 0)
        (replicate 9 false)) DOWN_LEFT <->
   DOWN_LEFT <> INTERIOR /\
   forall d, d ∈ adjacent_ghosts DOWN_LEFT ->
             has_neighbor_tile 2 2 1 0 (gid d) = true) /\
  (sector_exists
     (createBoundaryPartition 8 1 (tile_private_box 8 1 2 2 1 0)
        (replicate 9 false)) DOWN_LEFT ->
   forall d, d ∈ adjacent_ghosts DOWN_LEFT ->
     is_Some (createHaloPartition 8 1 (tile_halo_box 8 1 2 2 1 0) !! gid d)).
Proof.
  apply (boundary_sectors_of_tile 8 1 2 2 1 0);
    try lia; try (vm_compute; reflexivity); try (vm_compute; discriminate);
    exists 4; reflexivity.
Defined.

(** ** The bands of a balanced partition, cell by cell *)

Section BandFacts.

Variables (rect : Rect2) (workers : Z).
Hypothesis workers_pos : 1 <= workers.
Hypothesis size_nonneg : 0 <= rows rect.

Local Set Default Proof Using "All".

Local Abbreviation start c :=
  (band_start (p1 (lo rect)) (rows rect) workers c) (only parsing).

Lemma band_rows_nonneg c : 0 <= band_rows (rows rect) workers c.
Proof.
  pose proof (band_rows_bounds rect workers workers_pos size_nonneg c).
  pose proof (div_nonneg rect workers workers_pos size_nonneg). lia.
Qed.

Lemma band_start_mono (k : nat) c :
  0 <= c -> start c <= start (c + Z.of_nat k).
Proof.
  intros Hc. induction k as [|k IH].
  - replace (c + Z.of_nat 0) with c by lia. lia.
  - replace (c + Z.of_nat (S k)) with (c + Z.of_nat k + 1) by lia.
    rewrite (band_start_next rect workers workers_pos size_nonneg) by lia.
    pose proof (band_rows_nonneg (c + Z.of_nat k)). lia.
Qed.

Lemma band_start_le_le c c' : 0 <= c <= c' -> start c <= start c'.
Proof.
  intros Hc. replace c' with (c + Z.of_nat (Z.to_nat (c' - c))) by lia.
  apply band_start_mono. lia.
Qed.

Lemma band_cover (k : nat) y :
  p1 (lo rect) <= y < start (Z.of_nat k) ->
  exists c, 0 <= c < Z.of_nat k /\ start c <= y < start (c + 1).
Proof.
  induction k as [|k IH]; intros Hy.
  - change (Z.of_nat 0) with 0 in Hy.
    rewrite (band_start_0 rect workers workers_pos size_nonneg) in Hy. lia.
  - destruct (Z_lt_le_dec y (start (Z.of_nat k))) as [Hlt|Hge].
    + destruct IH as [c [Hc Hin]]; [lia|]. exists c. split; [lia|exact Hin].
    + exists (Z.of_nat k). split; [lia|].
      replace (Z.of_nat k + 1) with (Z.of_nat (S k)) by lia. lia.
Qed.

Lemma in_band c x y :
  0 <= c ->
  in_rect (band rect workers c) x y
  <-> p0 (lo rect) <= x <= p0 (hi rect) /\ start c <= y < start (c + 1).
Proof.
  intros Hc. unfold band. cbv zeta. rewrite in_rect_box.
  rewrite (band_start_next rect workers workers_pos size_nonneg c Hc). lia.
Qed.

End BandFacts.

(** X5.  Whenever [createBalancedPartition] returns a colouring for at
    least one thread, its bands partition the rectangle: every cell of the
    rectangle lies in exactly one band, and every band cell lies in the
    rectangle. *)
Theorem balanced_bands_partition_cells (rect : Rect2) (workers : Z)
    (coloring : gmap Z Rect2) :
  1 <= workers ->
  createBalancedPartition rect workers = Ok coloring ->
  (forall x y,
     in_rect rect x y
     <-> exists c b, coloring !! c = Some b /\ in_rect b x y) /\
  (forall c c' b b' x y,
     coloring !! c = Some b -> coloring !! c' = Some b' ->
     in_rect b x y -> in_rect b' x y -> c = c').
Proof.
  intros Hw Hok.
  assert (Hs : 2 * workers <= rows rect).
  { destruct (Z_lt_le_dec (rows rect) (2 * workers)) as [Hlt|Hle]; [|exact Hle].
    rewrite createBalancedPartition_fails in Hok by assumption. discriminate. }
  rewrite createBalancedPartition_ok in Hok by assumption.
  injection Hok as <-.
  assert (H0 : 0 <= rows rect) by lia.
  assert (Hlook : forall c b,
    foldl (fun col c => <[c := band rect workers c]> col)
      (∅ : gmap Z Rect2) (seqZ 0 workers) !! c = Some b
    <-> 0 <= c < workers /\ b = band rect workers c).
  { intros c b. rewrite foldl_insert_lookup, lookup_empty.
    case_decide as Hin; rewrite elem_of_seqZ in Hin.
    - split; [intros [= <-]; split; [lia|reflexivity]|intros [_ ->]; reflexivity].
    - split; [discriminate|intros [Hc _]; lia]. }
  pose proof (band_start_0 rect workers Hw H0) as Hfirst.
  pose proof (band_start_end rect workers Hw H0) as Hlast.
  split.
  - intros x y. split.
    + intros [Hx Hy].
      destruct (band_cover rect workers Hw H0 (Z.to_nat workers) y) as [c [Hc Hin]].
      { rewrite Z2Nat.id by lia. lia. }
      exists c, (band rect workers c). split.
      * apply Hlook. split; [lia|reflexivity].
      * apply (in_band rect workers Hw H0); [lia|]. split; [exact Hx|exact Hin].
    + intros [c [b [Hb Hin]]]. apply Hlook in Hb as [Hc ->].
      apply (in_band rect workers Hw H0) in Hin as [Hx Hy]; [|lia].
      pose proof (band_start_le_le rect workers Hw H0 0 c ltac:(lia)).
      pose proof (band_start_le_le rect workers Hw H0 (c + 1) workers ltac:(lia)).
      unfold in_rect. lia.
  - intros c c' b b' x y Hb Hb' Hin Hin'.
    apply Hlook in Hb as [Hc ->]. apply Hlook in Hb' as [Hc' ->].
    apply (in_band rect workers Hw H0) in Hin as [_ Hy]; [|lia].
    apply (in_band rect workers Hw H0) in Hin' as [_ Hy']; [|lia].
    destruct (Z.lt_trichotomy c c') as [Hlt|[Heq|Hgt]]; [|exact Heq|].
    + pose proof (band_start_le_le rect workers Hw H0 (c + 1) c' ltac:(lia)). lia.
    + pose proof (band_start_le_le rect workers Hw H0 (c' + 1) c ltac:(lia)). lia.
Qed.

Lemma balanced_bands_partition_cells_witness :
  let rect := Rect (make_point 0 10) (make_point 3 16) in
  let coloring :=
    foldl (fun col c => <[c := band rect 3 c]> col) (∅ : gmap Z Rect2)
      (seqZ 0 3) in
  (forall x y,
     in_rect rect x y
     <-> exists c b, coloring !! c = Some b /\ in_rect b x y) /\
  (forall c c' b b' x y,
     coloring !! c = Some b -> coloring !! c' = Some b' ->
     in_rect b x y -> in_rect b' x y -> c = c').
Proof.
  apply (balanced_bands_partition_cells
           (Rect (make_point 0 10) (make_point 3 16)) 3); [lia|].
  apply createBalancedPartition_ok; [lia|]. unfold rows. cbn. lia.
Defined.

(** ** The partitions of a shard *)

Lemma spmd_private_box n R haloBox :
  createHaloPartition n R haloBox !!! gid PRIVATE = privateBox n R haloBox.
Proof.
  rewrite lookup_total_alt, createHaloPartition_private. reflexivity.
Qed.

Lemma spmd_interior_box n R box hb :
  (createBoundaryPartition n R box hb).1 !!! bid INTERIOR = shrink n R box.
Proof.
  rewrite lookup_total_alt, createBoundaryPartition_lookup. reflexivity.
Qed.

Lemma spmd_partitions_run (n R numThreads : Z) (haloBox : Rect2) :
  spmd_partitions n R numThreads haloBox
  = (privateLp ← createBalancedPartition (privateBox n R haloBox) numThreads;
     interiorLp ← createBalancedPartition
                    (shrink n R (privateBox n R haloBox)) numThreads;
     Ok {| sp_privateBox := privateBox n R haloBox;
           sp_interiorBox := shrink n R (privateBox n R haloBox);
           sp_hasBoundary :=
             (createBoundaryPartition n R (privateBox n R haloBox)
                (replicate 9 false)).2;
           sp_sectors :=
             (createBoundaryPartition n R (privateBox n R haloBox)
                (replicate 9 false)).1;
           sp_ghosts := createHaloPartition n R haloBox;
           sp_privateLp := privateLp;
           sp_interiorLp := interiorLp |}).
Proof.
  unfold spmd_partitions. cbv zeta.
  rewrite spmd_private_box, spmd_interior_box. reflexivity.
Qed.

Lemma spmd_partitions_ok (n R numThreads : Z) (haloBox private interior : Rect2) :
  1 <= numThreads ->
  private = privateBox n R haloBox -> interior = shrink n R private ->
  2 * numThreads <= rows private -> 2 * numThreads <= rows interior ->
  exists parts,
    spmd_partitions n R numThreads haloBox = Ok parts /\
    sp_privateBox parts = private /\ sp_interiorBox parts = interior /\
    createBalancedPartition private numThreads = Ok (sp_privateLp parts) /\
    createBalancedPartition interior numThreads = Ok (sp_interiorLp parts) /\
    (sp_sectors parts, sp_hasBoundary parts)
    = createBoundaryPartition n R private (replicate 9 false) /\
    sp_ghosts parts = createHaloPartition n R haloBox.
Proof.
  intros Hw Hprivate Hinterior Hp Hi.
  rewrite spmd_partitions_run. rewrite <- Hprivate, <- Hinterior.
  rewrite (createBalancedPartition_ok private) by assumption.
  rewrite (createBalancedPartition_ok interior) by assumption.
  eexists. split; [reflexivity|].
  cbn [sp_privateBox sp_interiorBox sp_privateLp sp_interiorLp
       sp_sectors sp_hasBoundary sp_ghosts].
  split; [reflexivity|]. split; [reflexivity|].
  split; [reflexivity|]. split; [reflexivity|].
  split; [|reflexivity].
  destruct (createBoundaryPartition n R private (replicate 9 false));
    reflexivity.
Qed.

Lemma spmd_partitions_fails (n R numThreads : Z) (haloBox private interior : Rect2) :
  1 <= numThreads ->
  private = privateBox n R haloBox -> interior = shrink n R private ->
  ~ (2 * numThreads <= rows private /\ 2 * numThreads <= rows interior) ->
  spmd_partitions n R numThreads haloBox = Abort AssertionFailed.
Proof.
  intros Hw Hprivate Hinterior Hnot.
  rewrite spmd_partitions_run. rewrite <- Hprivate, <- Hinterior.
  destruct (Z_lt_le_dec (rows private) (2 * numThreads)) as [Hp|Hp].
  - rewrite (createBalancedPartition_fails private) by assumption.
    reflexivity.
  - rewrite (createBalancedPartition_ok private) by assumption.
    rewrite (createBalancedPartition_fails interior) by lia. reflexivity.
Qed.

(** The rows of the private box and of the interior box of a tile. *)
Lemma tile_rows (n R Px Py wx wy tx ty : Z) :
  0 < n -> n + R <= INT_MAX ->
  1 <= R < wx -> 1 <= R < wy -> n = Px * wx -> n = Py * wy ->
  0 <= tx < Px -> 0 <= ty < Py ->
  rows (privateBox n R (tile_halo_box n R Px Py tx ty)) = wy /\
  rows (shrink n R (privateBox n R (tile_halo_box n R Px Py tx ty)))
  = wy - R * ((if 0 <? ty then 1 else 0) + (if ty <? Py - 1 then 1 else 0)).
Proof.
  intros Hn Hmax Hwx Hwy Hnx Hny Hx Hy.
  pose proof (tile_private_box_eq n R Px Py wx wy tx ty
                Hn Hmax Hwx Hwy Hnx Hny Hx Hy) as Hbox.
  rewrite tile_private_box_halo in Hbox.
  unfold privateBox. rewrite Hbox. clear Hbox.
  rewrite shrink_eq. unfold rows, tile_box. cbn [lo hi p0 p1].
  assert (0 < ty -> 0 < ty * wy) by nia.
  assert (ty = 0 -> ty * wy = 0) by nia.
  assert (ty < Py - 1 -> (ty + 1) * wy < n) by nia.
  assert (ty = Py - 1 -> (ty + 1) * wy = n) by nia.
  assert ((ty + 1) * wy = ty * wy + wy) by ring.
  split; [lia|].
  destruct (Z.ltb_spec 0 ty), (Z.ltb_spec ty (Py - 1));
    repeat case_decide; lia.
Qed.

Lemma spmd_partitions_rows (n R numThreads : Z)
    (haloBox private interior : Rect2) (bound : Z) :
  1 <= numThreads ->
  private = privateBox n R haloBox -> interior = shrink n R private ->
  rows interior <= rows private -> rows interior = bound ->
  is_ok (spmd_partitions n R numThreads haloBox) = true
  <-> 2 * numThreads <= bound.
Proof.
  intros Hw Hprivate Hinterior Hle Hri. rewrite <- Hri. split.
  - intros Hok.
    destruct (Z_lt_le_dec (rows interior) (2 * numThreads)) as [Hlt|Hge];
      [|exact Hge].
    rewrite (spmd_partitions_fails n R numThreads haloBox private interior)
      in Hok by (assumption || lia).
    discriminate.
  - intros Hge.
    destruct (spmd_partitions_ok n R numThreads haloBox private interior)
      as [parts [-> _]]; (assumption || lia || reflexivity).
Qed.

(** X6.  The partitions of a shard are built exactly when both the private
    box and the interior box have at least two rows for every thread; any
    other shard stops on an assertion of [createBalancedPartition].  For a
    tile that is wider than the radius this means
    [2 * numThreads <= n / Py - RADIUS * k], where [k] counts the
    neighbour tiles above and below. *)
Theorem spmd_partitions_succeed (n R numThreads : Z) (haloBox : Rect2) :
  1 <= numThreads ->
  (2 * numThreads <= rows (privateBox n R haloBox) /\
   2 * numThreads <= rows (shrink n R (privateBox n R haloBox)) ->
   exists parts,
     spmd_partitions n R numThreads haloBox = Ok parts /\
     sp_privateBox parts = privateBox n R haloBox /\
     sp_interiorBox parts = shrink n R (privateBox n R haloBox) /\
     createBalancedPartition (privateBox n R haloBox) numThreads
     = Ok (sp_privateLp parts) /\
     createBalancedPartition (shrink n R (privateBox n R haloBox)) numThreads
     = Ok (sp_interiorLp parts) /\
     (sp_sectors parts, sp_hasBoundary parts)
     = createBoundaryPartition n R (privateBox n R haloBox)
         (replicate 9 false) /\
     sp_ghosts parts = createHaloPartition n R haloBox) /\
  (~ (2 * numThreads <= rows (privateBox n R haloBox) /\
      2 * numThreads <= rows (shrink n R (privateBox n R haloBox))) ->
   spmd_partitions n R numThreads haloBox = Abort AssertionFailed) /\
  (forall Px Py tx ty,
     1 <= R -> 0 < n -> n + R <= INT_MAX -> (Px | n) -> (Py | n) ->
     R < n `quot` Px -> R < n `quot` Py ->
     0 <= tx < Px -> 0 <= ty < Py ->
     haloBox = tile_halo_box n R Px Py tx ty ->
     (is_ok (spmd_partitions n R numThreads haloBox) = true
      <-> 2 * numThreads
          <= n `quot` Py
             - R * ((if 0 <? ty then 1 else 0)
                    + (if ty <? Py - 1 then 1 else 0)))).
Proof.
  intros Hw. split; [|split].
  - intros [Hp Hi].
    exact (spmd_partitions_ok n R numThreads haloBox _ _ Hw
             eq_refl eq_refl Hp Hi).
  - exact (spmd_partitions_fails n R numThreads haloBox _ _ Hw
             eq_refl eq_refl).
  - intros Px Py tx ty HR Hn Hmax [wx Hnx] [wy Hny] Hwx Hwy Hx Hy Hhalo.
    rewrite Z.mul_comm in Hnx, Hny.
    rewrite (quot_exact n Px wx) in * by lia.
    rewrite (quot_exact n Py wy) in * by lia.
    destruct (tile_rows n R Px Py wx wy tx ty Hn Hmax ltac:(lia) ltac:(lia)
                Hnx Hny Hx Hy) as [Hrp Hri].
    rewrite <- Hhalo in Hrp, Hri.
    apply (spmd_partitions_rows n R numThreads haloBox
             (privateBox n R haloBox) (shrink n R (privateBox n R haloBox)));
      [exact Hw|reflexivity|reflexivity| |exact Hri].
    rewrite Hri, Hrp. destruct (0 <? ty), (ty <? Py - 1); lia.
Qed.

Lemma spmd_partitions_succeed_witness :
  is_ok (spmd_partitions 8 1 1 (tile_halo_box 8 1 2 2 1 0)) = true
  <-> 2 * 1 <= 8 `quot` 2
               - 1 * ((if 0 <? 0 then 1 else 0) + (if 0 <? 2 - 1 then 1 else 0)).
Proof.
  destruct (spmd_partitions_succeed 8 1 1 (tile_halo_box 8 1 2 2 1 0))
    as (_ & _ & Htile); [lia|].
  apply (Htile 2 2 1 0);
    try lia; try (vm_compute; reflexivity); try (vm_compute; discriminate);
    try reflexivity; exists 4; reflexivity.
Defined.
